(** * FIMS m1-prototypes: folded time/age indexing, sex-by-area partitioning,
    and the error behaviour of the math utilities.

    The development embeds both revisions of [fims_indexing.cpp] (fixed
    seasons only, and variable season lengths) and the functions [dlnorm],
    [gamma], [lgamma], [sum] and [dmultinom] of [fims_math.hpp].

    - [size_t] is a 64-bit unsigned integer: an [N] whose arithmetic is
      reduced modulo [2^64] at every operation.
    - [double] is Rocq's primitive binary64 [float].
    - [std::vector<T>] is a [list T]; [v[i]] past the end is undefined
      behaviour in C++ and is modelled as the error [OutOfBounds].
    - [std::map<size_t, ...>] is a [gmap N ...].
    - the static counter [model_base::id_g] is threaded explicitly.
    - output: [finalize] returns the sequence of numbers that it hands to
      [std::cout], each with the loop counters of that moment; the text
      that the stream makes of a number is not modelled.
    - the functions of the C library ([exp], [log], [floor], [pow],
      [::lgamma] and the conversion to [int]) are parameters. *)

From Stdlib Require Import NArith ZArith Lia Floats Uint63.
From stdpp Require Import base option list gmap.

Set Warnings "-inexact-float".
Set Default Proof Using "Type".

(** ** Outcomes of running a piece of the program *)

Inductive error : Set :=
| OutOfBounds      (* unchecked [operator[]] past the end of a vector: undefined behaviour *)
| SignedOverflow   (* an [int] loop counter incremented past [INT_MAX]: undefined behaviour *)
| Uninitialized    (* read of a member that no constructor initialised *)
| BadAlloc         (* a vector that cannot be allocated *)
| InvalidArgument. (* [throw std::invalid_argument] *)

Inductive result (A : Type) : Type :=
| Ok (a : A)
| Err (e : error).
Arguments Ok {A} a.
Arguments Err {A} e.

#[global] Instance result_ret : MRet result := λ A a, Ok a.
#[global] Instance result_bind : MBind result := λ A B f r,
  match r with
  | Ok a => f a
  | Err e => Err e
  end.

Definition is_ok {A} (r : result A) : Prop := ∃ a, r = Ok a.

(** ** [size_t] and [double] *)

Module SizeT.
Definition modulus : N := 2 ^ 64.
Definition wrap (n : N) : N := n mod modulus.
Definition add (a b : N) : N := wrap (a + b).
Definition mul (a b : N) : N := wrap (a * b).
(** Largest value of a 32-bit [int]. *)
Definition INT_MAX : N := 2 ^ 31 - 1.
(** Conversion [size_t -> double], rounding to nearest.  [of_uint63]
    converts 63-bit values; a value with the top bit set is halved with a
    sticky low bit, converted and doubled. *)
Definition to_double (n : N) : float :=
  if (n <? 2 ^ 63)%N then of_uint63 (Uint63.of_Z (Z.of_N n))
  else (of_uint63 (Uint63.of_Z (Z.of_N (N.lor (N.shiftr n 1) (N.land n 1)))) * 2)%float.
End SizeT.

Notation "a ⊕ b" := (SizeT.add a b) (at level 50, left associativity).
Notation "a ⊗ b" := (SizeT.mul a b) (at level 40, left associativity).

(** ** Loops *)

(** [for (i = start; ...; i++) s = body i s] run for [n] iterations, stopping
    at the first error. *)
Fixpoint for_loop {S : Type} (n : nat) (i : N) (body : N → S → result S) (s : S)
  : result S :=
  match n with
  | O => Ok s
  | Datatypes.S n' =>
      match body i s with
      | Ok s' => for_loop n' (N.succ i) body s'
      | Err e => Err e
      end
  end.

(** [for (size_t i = 0; i < bound; i++)]. *)
Definition for_size_t {S : Type} (bound : N) (body : N → S → result S) (s : S)
  : result S :=
  for_loop (N.to_nat bound) 0%N body s.

(** [for (int i = 0; i < bound; i++)] against a [size_t] bound: [i] is
    converted to [size_t] for the comparison, so the loop can only finish if
    [bound] is at most [INT_MAX]; otherwise [i++] overflows. *)
Definition for_int {S : Type} (bound : N) (body : N → S → result S) (s : S)
  : result S :=
  if (SizeT.INT_MAX <? bound)%N then Err SignedOverflow
  else for_loop (N.to_nat bound) 0%N body s.

(** [v[i]] for reading. *)
Definition vec_get {A : Type} (v : list A) (i : N) : result A :=
  match v !! N.to_nat i with
  | Some a => Ok a
  | None => Err OutOfBounds
  end.

(** [v[i] = x]. *)
Definition vec_set {A : Type} (v : list A) (i : N) (x : A) : result (list A) :=
  if (i <? N.of_nat (length v))%N then Ok (<[N.to_nat i := x]> v)
  else Err OutOfBounds.

(** [v.size()]. *)
Definition vec_size {A : Type} (v : list A) : N := N.of_nat (length v).

(** Apply [f] to every element in order, stopping at the first error. *)
Fixpoint for_each {A : Type} (f : A → result A) (v : list A) : result (list A) :=
  match v with
  | [] => Ok []
  | a :: v' =>
      a' ← f a;
      v'' ← for_each f v';
      Ok (a' :: v'')
  end.

(** ** fims_indexing.cpp *)

Module Indexing.

Local Open Scope N_scope.

(** Computations that construct model objects draw an identifier from the
    static counter [model_base::id_g]; the counter is the threaded state. *)
Definition M (A : Type) : Type := N → result (A * N).

(** [model_base::id_g++] *)
Definition next_id : M N := λ id_g, Ok (id_g, id_g ⊕ 1).

Record model_base : Type := {
  nyears_ : N;
  nseasons_ : option N;  (* [None]: not set by the variable-season constructor *)
  nages_ : N;
  season_offsets_ : list (list float);
  seasons_max_ : N;
  object_id : N
}.

(** The body of the loop that finds the longest season row:
    [seasons_max_ = std::max(seasons_max_, season_offsets_[i].size())]. *)
Definition max_season_step (season_offsets : list (list float)) (i : N) (m : N)
  : result N :=
  row ← vec_get season_offsets i;
  Ok (N.max m (vec_size row)).

(** Constructor for variable season data. *)
Definition model_base_variable (nyears : N) (season_offsets : list (list float))
    (nages : N) : M model_base := λ id_g,
  '(id, id_g') ← next_id id_g;
  smax ← for_size_t nyears (max_season_step season_offsets) 0;
  Ok ({| nyears_ := nyears; nseasons_ := None; nages_ := nages;
         season_offsets_ := season_offsets; seasons_max_ := smax;
         object_id := id |}, id_g').

(** One row of the fixed table: [(j + 1.0) / nseasons] for [j = 0, 1, ...]
    while [j < nseasons].  The counter [j] is a [double]; it holds every
    integer up to [2^53] exactly, so for [nseasons <= 2^53] the loop runs
    [nseasons] times with [j] equal to the iteration number. *)
Definition fixed_season_row (nseasons : N) : list float :=
  (λ j : nat, (SizeT.to_double (N.of_nat j) + 1.0) / SizeT.to_double nseasons)%float
    <$> seq 0 (N.to_nat nseasons).

(** Constructor for fixed season data: [season_offsets_.resize(nyears)],
    then every row is filled.  The year loop uses an [int] counter.  A row
    of more than [2^53] doubles, [2^56] bytes, cannot be allocated. *)
Definition model_base_fixed (nyears nseasons nages : N) : M model_base := λ id_g,
  '(id, id_g') ← next_id id_g;
  offsets ← for_int nyears
               (λ i offs,
                  if 2 ^ 53 <? nseasons then Err BadAlloc
                  else row ← vec_get offs i;
                       Ok (<[N.to_nat i := row ++ fixed_season_row nseasons]> offs))
               (replicate (N.to_nat nyears) []);
  Ok ({| nyears_ := nyears; nseasons_ := Some nseasons; nages_ := nages;
         season_offsets_ := offsets; seasons_max_ := nseasons;
         object_id := id |}, id_g').

(** Dimension folded index for time and age. *)
Definition get_index (b : model_base) (year season age : N) : N :=
  year ⊗ seasons_max_ b ⊗ nages_ b ⊕ season ⊗ nages_ b ⊕ age.

(** Dimension folded index for time only (the two-argument overload of
    [get_index]). *)
Definition get_index_time (b : model_base) (year season : N) : N :=
  year ⊗ seasons_max_ b ⊗ nages_ b ⊕ season.

(** Number of seasons of a year: [season_offsets_[year].size()]. *)
Definition get_seasons (b : model_base) (year : N) : result N :=
  row ← vec_get (season_offsets_ b) year;
  Ok (vec_size row).

(** [class area : public model_base] adds nothing. *)
Definition area : Type := model_base.
Definition area_fixed (nyears nseasons nages : N) : M area :=
  model_base_fixed nyears nseasons nages.

Record population_base : Type := {
  pb_base :> model_base;
  ages : list float
}.

Definition population_base_fixed (nyears nseasons nages : N) (ages0 : list float)
  : M population_base := λ id_g,
  '(b, id_g') ← model_base_fixed nyears nseasons nages id_g;
  Ok ({| pb_base := b; ages := ages0 |}, id_g').

(** The variable-season constructor leaves [ages] empty. *)
Definition population_base_variable (nyears : N) (season_offsets : list (list float))
    (nages : N) : M population_base := λ id_g,
  '(b, id_g') ← model_base_variable nyears season_offsets nages id_g;
  Ok ({| pb_base := b; ages := [] |}, id_g').

Record subpopulation : Type := {
  sp_base :> population_base;
  some_derived_quantities : list float;
  area_ : option area   (* [std::shared_ptr<area>], null until bound *)
}.

(** [some_derived_quantities.resize(nyears * this->seasons_max_ * nages)]:
    the size is computed in [size_t]; new cells are [0.0]. *)
Definition derived_size (b : model_base) : N :=
  nyears_ b ⊗ seasons_max_ b ⊗ nages_ b.

Definition subpopulation_fixed (nyears nseasons nages : N) (ages0 : list float)
  : M subpopulation := λ id_g,
  '(pb, id_g') ← population_base_fixed nyears nseasons nages ages0 id_g;
  Ok ({| sp_base := pb;
         some_derived_quantities := replicate (N.to_nat (derived_size pb)) 0%float;
         area_ := None |}, id_g').

Definition subpopulation_variable (nyears : N) (season_offsets : list (list float))
    (nages : N) : M subpopulation := λ id_g,
  '(pb, id_g') ← population_base_variable nyears season_offsets nages id_g;
  Ok ({| sp_base := pb;
         some_derived_quantities := replicate (N.to_nat (derived_size pb)) 0%float;
         area_ := None |}, id_g').

Definition set_area (a : area) (sp : subpopulation) : subpopulation :=
  {| sp_base := sp_base sp;
     some_derived_quantities := some_derived_quantities sp;
     area_ := Some a |}.

Definition set_derived (d : list float) (sp : subpopulation) : subpopulation :=
  {| sp_base := sp_base sp; some_derived_quantities := d; area_ := area_ sp |}.

(** [this->some_derived_quantities[index] = index] *)
Definition calculate_some_life_history_1 (index : N) (sp : subpopulation)
  : result subpopulation :=
  d ← vec_set (some_derived_quantities sp) index (SizeT.to_double index);
  Ok (set_derived d sp).

(** One insertion [std::cout << this->some_derived_quantities[index]] of
    [finalize]: the [double] that is handed to the stream, with the year,
    season and age of the loops at that moment.  The text that the stream
    makes of the number is not part of the record: [std::cout] renders a
    [double] with 6 significant digits by default, so 1000001 is written as
    [1e+06]. *)
Record cell : Type := {
  cell_year : N;
  cell_season : N;
  cell_age : N;
  cell_value : float
}.

(** The year/season/age loops of [subpopulation::finalize]; the state is the
    sequence of values handed to [std::cout] so far. *)
Definition finalize_ages (sp : subpopulation) (y s : N) (out : list cell)
  : result (list cell) :=
  for_size_t (nages_ sp)
    (λ a out, let index := get_index sp y s a in
              v ← vec_get (some_derived_quantities sp) index;
              Ok (out ++ [{| cell_year := y; cell_season := s; cell_age := a;
                             cell_value := v |}]))
    out.

Definition finalize_seasons (sp : subpopulation) (y : N) (out : list cell)
  : result (list cell) :=
  n ← get_seasons sp y;
  for_size_t n (finalize_ages sp y) out.

Definition finalize (sp : subpopulation) : result (list cell) :=
  for_size_t (nyears_ sp) (finalize_seasons sp) [].

Record population : Type := {
  pop_base :> population_base;
  areas_ : list area;   (* [std::vector<std::shared_ptr<area>>] *)
  subpopulation_ : gmap N (list subpopulation);  (* hashed by sex index *)
  nsexes_ : option N    (* [None]: not set by the constructors *)
}.

Definition population_fixed (nyears nseasons nages : N) (ages0 : list float)
  : M population := λ id_g,
  '(pb, id_g') ← population_base_fixed nyears nseasons nages ages0 id_g;
  Ok ({| pop_base := pb; areas_ := []; subpopulation_ := ∅; nsexes_ := None |}, id_g').

Definition population_variable (nyears : N) (season_offsets : list (list float))
    (nages : N) : M population := λ id_g,
  '(pb, id_g') ← population_base_variable nyears season_offsets nages id_g;
  Ok ({| pop_base := pb; areas_ := []; subpopulation_ := ∅; nsexes_ := None |}, id_g').

Definition set_subpopulations (m : gmap N (list subpopulation)) (p : population)
  : population :=
  {| pop_base := pop_base p; areas_ := areas_ p; subpopulation_ := m;
     nsexes_ := nsexes_ p |}.

(** [this->subpopulation_[i]]: a missing key reads as an empty vector. *)
Definition sub_pops_of (p : population) (i : N) : list subpopulation :=
  default [] (subpopulation_ p !! i).

(** The body of the two loops of [initialize_subpopulations], for sex [i]
    and area position [j]:
      [sub_pop = make_shared<subpopulation>(nyears_, season_offsets_, nages_);]
      [sub_pop->area_ = this->areas_[i];]
      [this->subpopulation_[i].push_back(sub_pop);] *)
Definition initialize_one (i j : N) (st : population * N) : result (population * N) :=
  let '(p, id_g) := st in
  '(sub_pop, id_g') ← subpopulation_variable (nyears_ p) (season_offsets_ p) (nages_ p) id_g;
  a ← vec_get (areas_ p) i;
  Ok (set_subpopulations
        (<[i := sub_pops_of p i ++ [set_area a sub_pop]]> (subpopulation_ p)) p,
      id_g').

(** Initialize subpopulations, partition by sex and area. *)
Definition initialize_subpopulations (nsexes : N) (areas : list area) (p : population)
  : M population := λ id_g,
  let p1 := {| pop_base := pop_base p; areas_ := areas;
               subpopulation_ := subpopulation_ p; nsexes_ := Some nsexes |} in
  for_int nsexes
    (λ i st, for_int (vec_size (areas_ (fst st))) (initialize_one i) st)
    (p1, id_g).

(** The year/season/age loops of [evaulate_subpopulations] for one
    subpopulation [sub_pops[j]]; indices and season counts are the
    population's own. *)
Definition evaluate_ages (p : population) (y s : N) (sp : subpopulation)
  : result subpopulation :=
  for_size_t (nages_ p)
    (λ a sp, calculate_some_life_history_1 (get_index p y s a) sp) sp.

Definition evaluate_seasons (p : population) (y : N) (sp : subpopulation)
  : result subpopulation :=
  n ← get_seasons p y;
  for_size_t n (evaluate_ages p y) sp.

Definition evaluate_years (p : population) (sp : subpopulation)
  : result subpopulation :=
  for_size_t (nyears_ p) (evaluate_seasons p) sp.

(** Loops through sex/area partitions and evaluates every cell.  For the sex
    [i], [sub_pops] is a reference to [this->subpopulation_[i]], and the loop
    [for (j = 0; j < sub_pops.size(); j++)] visits the elements of that
    vector in order. *)
Definition evaulate_subpopulations (p : population) : result population :=
  match nsexes_ p with
  | None => Err Uninitialized
  | Some nsexes =>
      for_size_t nsexes
        (λ i p, sub_pops ← for_each (evaluate_years p) (sub_pops_of p i);
                Ok (set_subpopulations (<[i := sub_pops]> (subpopulation_ p)) p))
        p
  end.

(** [population::finalize]: every subpopulation's identifier and the
    values it hands to [std::cout], with their cells; sexes ascending,
    subpopulations in vector order. *)
Fixpoint finalize_each (sps : list subpopulation) : result (list (N * list cell)) :=
  match sps with
  | [] => Ok []
  | sp :: sps' =>
      cells ← finalize sp;
      rest ← finalize_each sps';
      Ok ((object_id sp, cells) :: rest)
  end.

Definition population_finalize (p : population)
  : result (population * list (N * list cell)) :=
  match nsexes_ p with
  | None => Err Uninitialized
  | Some nsexes =>
      for_size_t nsexes
        (λ i st, let '(p, out) := st in
                 printed ← finalize_each (sub_pops_of p i);
                 Ok (set_subpopulations (<[i := sub_pops_of p i]> (subpopulation_ p)) p,
                     out ++ printed))
        (p, [])
  end.

(** The statements of the fixed-seasons example of [main] after the areas
    have been made:
    [population pop(years, seasons, ages.size(), ages);]
    [pop.initialize_subpopulations(nsexes, areas);]
    [pop.evaulate_subpopulations(); pop.finalize();]
    with what [finalize] hands to [std::cout] as result. *)
Definition fixed_example (nyears nseasons nages : N) (ages0 : list float)
    (nsexes : N) (areas : list area)
  : M (list (N * list cell)) := λ id_g,
  '(pop, id_g) ← population_fixed nyears nseasons nages ages0 id_g;
  '(pop, id_g) ← initialize_subpopulations nsexes areas pop id_g;
  pop ← evaulate_subpopulations pop;
  '(pop, out) ← population_finalize pop;
  Ok (out, id_g).

(** The same for the variable-seasons example:
    [population pop2(years, season_offsets, ages.size());] *)
Definition variable_example (nyears : N) (season_offsets : list (list float))
    (nages : N) (nsexes : N) (areas : list area)
  : M (list (N * list cell)) := λ id_g,
  '(pop, id_g) ← population_variable nyears season_offsets nages id_g;
  '(pop, id_g) ← initialize_subpopulations nsexes areas pop id_g;
  pop ← evaulate_subpopulations pop;
  '(pop, out) ← population_finalize pop;
  Ok (out, id_g).

End Indexing.

(** ** fims_indexing.cpp, the first revision: fixed seasons only *)

Module IndexingV1.

Local Open Scope N_scope.

Record model_base : Type := {
  nyears_ : N;
  nseasons_ : N;
  nages_ : N;
  object_id : N
}.

Definition model_base_new (nyears nseasons nages : N) : Indexing.M model_base :=
  λ id_g,
  '(id, id_g') ← Indexing.next_id id_g;
  Ok ({| nyears_ := nyears; nseasons_ := nseasons; nages_ := nages;
         object_id := id |}, id_g').

(** Dimension folded index for time and age. *)
Definition get_index (b : model_base) (year season age : N) : N :=
  year ⊗ nseasons_ b ⊗ nages_ b ⊕ season ⊗ nages_ b ⊕ age.

(** Dimension folded index for time only. *)
Definition get_index_time (b : model_base) (year season : N) : N :=
  year ⊗ nseasons_ b ⊗ nages_ b ⊕ season.

Definition area : Type := model_base.
Definition area_new (nyears nseasons nages : N) : Indexing.M area :=
  model_base_new nyears nseasons nages.

Record population_base : Type := {
  pb_base :> model_base;
  ages : list float
}.

Definition population_base_new (nyears nseasons nages : N) (ages0 : list float)
  : Indexing.M population_base := λ id_g,
  '(b, id_g') ← model_base_new nyears nseasons nages id_g;
  Ok ({| pb_base := b; ages := ages0 |}, id_g').

Record subpopulation : Type := {
  sp_base :> population_base;
  some_derived_quantities : list float;
  area_ : option area
}.

(** [some_derived_quantities.resize(nyears * nseasons * nages)] *)
Definition subpopulation_new (nyears nseasons nages : N) (ages0 : list float)
  : Indexing.M subpopulation := λ id_g,
  '(pb, id_g') ← population_base_new nyears nseasons nages ages0 id_g;
  Ok ({| sp_base := pb;
         some_derived_quantities :=
           replicate (N.to_nat (nyears ⊗ nseasons ⊗ nages)) 0%float;
         area_ := None |}, id_g').

Definition set_area (a : area) (sp : subpopulation) : subpopulation :=
  {| sp_base := sp_base sp;
     some_derived_quantities := some_derived_quantities sp;
     area_ := Some a |}.

Definition set_derived (d : list float) (sp : subpopulation) : subpopulation :=
  {| sp_base := sp_base sp; some_derived_quantities := d; area_ := area_ sp |}.

(** [this->some_derived_quantities[index] = index] *)
Definition calculate_some_life_history_1 (index : N) (sp : subpopulation)
  : result subpopulation :=
  d ← vec_set (some_derived_quantities sp) index (SizeT.to_double index);
  Ok (set_derived d sp).

(** [calculate_some_life_history(index_1, index_2)] has an empty body. *)
Definition calculate_some_life_history (index_1 index_2 : N) (sp : subpopulation)
  : result subpopulation :=
  Ok sp.

(** The loops of [subpopulation::finalize]; every year has [nseasons_]
    seasons. *)
Definition finalize_ages (sp : subpopulation) (y s : N) (out : list Indexing.cell)
  : result (list Indexing.cell) :=
  for_size_t (nages_ sp)
    (λ a out, let index := get_index sp y s a in
              v ← vec_get (some_derived_quantities sp) index;
              Ok (out ++ [{| Indexing.cell_year := y; Indexing.cell_season := s;
                             Indexing.cell_age := a; Indexing.cell_value := v |}]))
    out.

Definition finalize_seasons (sp : subpopulation) (y : N) (out : list Indexing.cell)
  : result (list Indexing.cell) :=
  for_size_t (nseasons_ sp) (finalize_ages sp y) out.

Definition finalize (sp : subpopulation) : result (list Indexing.cell) :=
  for_size_t (nyears_ sp) (finalize_seasons sp) [].

Record population : Type := {
  pop_base :> population_base;
  areas_ : list area;
  subpopulation_ : gmap N (list subpopulation);
  nsexes_ : option N
}.

Definition population_new (nyears nseasons nages : N) (ages0 : list float)
  : Indexing.M population := λ id_g,
  '(pb, id_g') ← population_base_new nyears nseasons nages ages0 id_g;
  Ok ({| pop_base := pb; areas_ := []; subpopulation_ := ∅; nsexes_ := None |}, id_g').

Definition set_subpopulations (m : gmap N (list subpopulation)) (p : population)
  : population :=
  {| pop_base := pop_base p; areas_ := areas_ p; subpopulation_ := m;
     nsexes_ := nsexes_ p |}.

Definition sub_pops_of (p : population) (i : N) : list subpopulation :=
  default [] (subpopulation_ p !! i).

(** The body of the loops of [initialize_subpopulations]:
      [sub_pop = make_shared<subpopulation>(nyears_, nseasons_, nages_, ages);]
      [sub_pop->area_ = this->areas_[i];]
      [this->subpopulation_[i].push_back(sub_pop);] *)
Definition initialize_one (i j : N) (st : population * N) : result (population * N) :=
  let '(p, id_g) := st in
  '(sub_pop, id_g') ← subpopulation_new (nyears_ p) (nseasons_ p) (nages_ p) (ages p) id_g;
  a ← vec_get (areas_ p) i;
  Ok (set_subpopulations
        (<[i := sub_pops_of p i ++ [set_area a sub_pop]]> (subpopulation_ p)) p,
      id_g').

Definition initialize_subpopulations (nsexes : N) (areas : list area) (p : population)
  : Indexing.M population := λ id_g,
  let p1 := {| pop_base := pop_base p; areas_ := areas;
               subpopulation_ := subpopulation_ p; nsexes_ := Some nsexes |} in
  for_int nsexes
    (λ i st, for_int (vec_size (areas_ (fst st))) (initialize_one i) st)
    (p1, id_g).

Definition evaluate_ages (p : population) (y s : N) (sp : subpopulation)
  : result subpopulation :=
  for_size_t (nages_ p)
    (λ a sp, calculate_some_life_history_1 (get_index p y s a) sp) sp.

Definition evaluate_seasons (p : population) (y : N) (sp : subpopulation)
  : result subpopulation :=
  for_size_t (nseasons_ p) (evaluate_ages p y) sp.

Definition evaluate_years (p : population) (sp : subpopulation)
  : result subpopulation :=
  for_size_t (nyears_ p) (evaluate_seasons p) sp.

Definition evaulate_subpopulations (p : population) : result population :=
  match nsexes_ p with
  | None => Err Uninitialized
  | Some nsexes =>
      for_size_t nsexes
        (λ i p, sub_pops ← for_each (evaluate_years p) (sub_pops_of p i);
                Ok (set_subpopulations (<[i := sub_pops]> (subpopulation_ p)) p))
        p
  end.

Fixpoint finalize_each (sps : list subpopulation)
  : result (list (N * list Indexing.cell)) :=
  match sps with
  | [] => Ok []
  | sp :: sps' =>
      cells ← finalize sp;
      rest ← finalize_each sps';
      Ok ((object_id sp, cells) :: rest)
  end.

Definition population_finalize (p : population)
  : result (population * list (N * list Indexing.cell)) :=
  match nsexes_ p with
  | None => Err Uninitialized
  | Some nsexes =>
      for_size_t nsexes
        (λ i st, let '(p, out) := st in
                 printed ← finalize_each (sub_pops_of p i);
                 Ok (set_subpopulations (<[i := sub_pops_of p i]> (subpopulation_ p)) p,
                     out ++ printed))
        (p, [])
  end.

(** The statements of [main] after the areas have been made:
    [population pop(years, seasons, ages.size(), ages);]
    [pop.initialize_subpopulations(nsexes, areas);]
    [pop.evaulate_subpopulations(); pop.finalize();]
    with what [finalize] hands to [std::cout] as result. *)
Definition fixed_example (nyears nseasons nages : N) (ages0 : list float)
    (nsexes : N) (areas : list area)
  : Indexing.M (list (N * list Indexing.cell)) := λ id_g,
  '(pop, id_g) ← population_new nyears nseasons nages ages0 id_g;
  '(pop, id_g) ← initialize_subpopulations nsexes areas pop id_g;
  pop ← evaulate_subpopulations pop;
  '(pop, out) ← population_finalize pop;
  Ok (out, id_g).

End IndexingV1.

(** ** fims_math.hpp *)

Module fims.

Local Open Scope float_scope.

Section Libm.

(** The functions of [<cmath>] that the primitive floats do not provide
    are parameters. *)
Variables exp log floor : float → float.
Variable pow : float → float → float.
(** [static_cast<int>] applied to a [double]. *)
Variable int_of_double : float → Z.
(** The [lgamma] of the C library.  The call [lgamma(x)] in the body of
    [gamma] is written before [fims::lgamma] is declared, and its argument
    is a [double], for which argument-dependent lookup adds nothing: the
    call is bound to [::lgamma] of [<cmath>], not to [fims::lgamma]. *)
Variable libm_lgamma : float → float.

Definition M_PI : float := 3.14159265358979323846.

(** Conversion [int -> double]; exact. *)
Definition double_of_int (n : Z) : float :=
  if (0 <=? n)%Z then of_uint63 (Uint63.of_Z n)
  else - of_uint63 (Uint63.of_Z (- n)).

(** Probability density of the log-normal distribution. *)
Definition dlnorm (x meanLog sdLog : float) (ret_log : bool) : float :=
  if 0 <? x then
    let ret := (1 / (x * sdLog * pow (2 * M_PI) 0.5)) *
               exp (-1 * ((log x - meanLog) * (log x - meanLog)) / (2 * sdLog)) in
    if negb ret_log then ret else log ret
  else 0.

(** Euler's gamma constant, the local [gamma] of the function [gamma]. *)
Definition euler_gamma : float := 0.577215664901532860606512090.

(** Numerator and denominator coefficients for the approximation over
    the interval (1,2). *)
Definition p : list float :=
  [ -1.71618513886549492533811E+0;
    2.47656508055759199108314E+1;
    -3.79804256470945635097577E+2;
    6.29331155312818442661052E+2;
    8.66966202790413211295064E+2;
    -3.14512729688483675254357E+4;
    -3.61444134186911729807069E+4;
    6.64561438202405440627855E+4 ].

Definition q : list float :=
  [ -3.08402300119738975254353E+1;
    3.15350626979604161529144E+2;
    -1.01515636749021914166146E+3;
    -3.10777167157231109440444E+3;
    2.25381184209801510330112E+4;
    4.75584627752788110767815E+3;
    -1.34659959864969306392456E+5;
    -1.15132259675553483497211E+5 ].

(** [for (i = 0; i < 8; i++) { num = (num + p[i]) * z; den = den * z + q[i]; }] *)
Definition rational_step (z : float) (nd : float * float) (pq : float * float)
  : float * float :=
  ((fst nd + fst pq) * z, snd nd * z + snd pq).

(** [for (i = 0; i < n; i++) result *= y++;] *)
Definition shift_up (n : Z) (result y : float) : float :=
  fst (Nat.iter (Z.to_nat n) (λ ry : float * float, (fst ry * snd ry, snd ry + 1))
         (result, y)).

(** The case [0.001 <= x < 12] of [gamma]. *)
Definition gamma_middle (x : float) : float :=
  let arg_was_less_than_one := x <? 1 in
  let n := if arg_was_less_than_one then 0%Z
           else (int_of_double (floor x) - 1)%Z in
  let y := if arg_was_less_than_one then x + 1 else x - double_of_int n in
  let z := y - 1 in
  let nd := fold_left (rational_step z) (zip p q) (0, 1) in
  let result := fst nd / snd nd + 1 in
  if arg_was_less_than_one then result / (y - 1)
  else shift_up n result y.

(** [std::numeric_limits<double>::max()] *)
Definition DBL_MAX : float := 0x1.fffffffffffffp+1023.

(** Coefficients of the asymptotic series of [lgamma]. *)
Definition c : list float :=
  [ 1 / 12; -1 / 360; 1 / 1260; -1 / 1680; 1 / 1188; -691 / 360360;
    1 / 156; -3617 / 122400 ].

Definition halfLogTwoPi : float := 0.91893853320467274178032973640562.

(** The case [12 <= x] of [lgamma]: [sum = c[7]], then for [i = 6 .. 0]
    [sum *= z; sum += c[i]]. *)
Definition lgamma_series (x : float) : float :=
  let z := 1 / (x * x) in
  let sum := fold_left (λ sum ci, sum * z + ci) (tail (rev c)) (default 0 (last c)) in
  let series := sum / x in
  (x - 0.5) * log x - x + halfLogTwoPi + series.

(** [gamma]: the last interval ends in [exp(lgamma(x))], with the C
    library's [lgamma]. *)
Definition gamma (x : float) : result float :=
  if x <=? 0 then Err InvalidArgument
  else if x <? 0.001 then Ok (1 / (x * (1 + euler_gamma * x)))
  else if x <? 12 then Ok (gamma_middle x)
  else if 171.624 <? x then Ok (DBL_MAX * 2)
  else Ok (exp (libm_lgamma x)).

(** [lgamma], declared after [gamma]; its call [gamma(x)] is [fims::gamma]. *)
Definition lgamma (x : float) : result float :=
  if x <=? 0 then Err InvalidArgument
  else if x <? 12 then g ← gamma x; Ok (log (abs g))
  else Ok (lgamma_series x).

(** [lgamma] of every element of a vector:
    [ret(v.size())], then [ret[i] = lgamma(v[i])] for every [i]. *)
Definition lgamma_vector (v : list float) : result (list float) :=
  for_int (vec_size v)
    (λ i ret, x ← vec_get v i; y ← lgamma x; vec_set ret i y)
    (replicate (length v) 0).

(** [ret = 0.0], then [ret += v[i]] for every [i]. *)
Definition sum (v : list float) : result float :=
  for_int (vec_size v) (λ i ret, x ← vec_get v i; Ok (ret + x)) 0.

(** The body of the second loop of [dmultinom]:
    [p[i] /= sum_p; xp1[i] = x[i] + 1.0; ret2[i] = x[i] * std::log(p[i]);] *)
Definition dmultinom_step (x : list float) (sum_p : float) (i : N)
    (st : list float * list float * list float)
  : result (list float * list float * list float) :=
  let '(p, xp1, ret2) := st in
  pi ← vec_get p i;
  p ← vec_set p i (pi / sum_p);
  xi ← vec_get x i;
  xp1 ← vec_set xp1 i (xi + 1);
  xi ← vec_get x i;
  pi ← vec_get p i;
  ret2 ← vec_set ret2 i (xi * log pi);
  Ok (p, xp1, ret2).

(** Multinomial probability density function; [p] is normalised over the
    first [x.size()] entries.  The three terms of [ret] are evaluated from
    left to right; each of them can only fail with [std::invalid_argument]. *)
Definition dmultinom (x p : list float) (ret_log : bool)
  : result float :=
  let ret2 := replicate (length x) 0 in
  let xp1 := replicate (length x) 0 in
  sum_p ← for_int (vec_size x) (λ i sum_p, pi ← vec_get p i; Ok (sum_p + pi)) 0;
  st ← for_int (vec_size x) (dmultinom_step x sum_p) (p, xp1, ret2);
  sx ← sum x;
  a ← lgamma (sx + 1);
  l ← lgamma_vector st.1.2;
  b ← sum l;
  c ← sum st.2;
  let ret := a - b + c in
  Ok (if ret_log then ret else exp ret).

End Libm.

End fims.

(** * Specification vocabulary *)

Import Indexing.
Import (coercions) IndexingV1.
Local Open Scope N_scope.

(** [m] is the largest number of seasons over the years [0 .. nyears_ b - 1]
    of the grid [b], and 0 when the grid has no year. *)
Definition is_max_seasons (b : model_base) (m : N) : Prop :=
  (∀ y, y < nyears_ b → ∃ k, get_seasons b y = Ok k ∧ k ≤ m) ∧
  (0 < nyears_ b → ∃ y, y < nyears_ b ∧ get_seasons b y = Ok m) ∧
  (nyears_ b = 0 → m = 0).

(** Grids that one of the two constructors of [model_base] returns. *)
Definition variable_grid (g : model_base) : Prop :=
  ∃ nyears season_offsets nages id_g id_g',
    model_base_variable nyears season_offsets nages id_g = Ok (g, id_g').

Definition fixed_grid (g : model_base) : Prop :=
  ∃ nyears nseasons nages id_g id_g',
    model_base_fixed nyears nseasons nages id_g = Ok (g, id_g').

(** Populations that one of the two constructors of [population] returns. *)
Definition new_population (p : population) : Prop :=
  (∃ nyears season_offsets nages id_g id_g',
     population_variable nyears season_offsets nages id_g = Ok (p, id_g')) ∨
  (∃ nyears nseasons nages ages0 id_g id_g',
     population_fixed nyears nseasons nages ages0 id_g = Ok (p, id_g')).

(** The cell (year, season, age) is visited by the loops of the population:
    the year exists, the season is one of the seasons of that year and the
    age exists. *)
Definition visited (p : population) (y s a : N) : Prop :=
  y < nyears_ p ∧ (∃ k, get_seasons p y = Ok k ∧ s < k) ∧ a < nages_ p.

(** A jagged grid: year 0 has one season, year 1 has three; one age. *)
Definition jagged_table : list (list float) :=
  [[1%float]; [0.25%float; 0.5%float; 1%float]].

Definition jagged_grid : model_base :=
  {| nyears_ := 2; nseasons_ := None; nages_ := 1;
     season_offsets_ := jagged_table; seasons_max_ := 3; object_id := 0 |}.

(** The part of a subpopulation that evaluation never touches, together with
    the size of its array. *)
Definition same_shape (sp sp' : subpopulation) : Prop :=
  sp_base sp' = sp_base sp ∧ area_ sp' = area_ sp ∧
  vec_size (some_derived_quantities sp') = vec_size (some_derived_quantities sp).

(** The members of a population that only its constructor and
    [initialize_subpopulations] set. *)
Definition same_frame (p p' : population) : Prop :=
  pop_base p' = pop_base p ∧ areas_ p' = areas_ p ∧ nsexes_ p' = nsexes_ p.

(** A reported cell is a real cell of the subpopulation: its year exists,
    its season is one of the seasons of that year, its age exists, and its
    value is the array entry at the folded index. *)
Definition real_cell (sp : subpopulation) (c : cell) : Prop :=
  cell_year c < nyears_ sp ∧
  (∃ k, get_seasons sp (cell_year c) = Ok k ∧ cell_season c < k) ∧
  cell_age c < nages_ sp ∧
  vec_get (some_derived_quantities sp)
    (get_index sp (cell_year c) (cell_season c) (cell_age c)) = Ok (cell_value c).

(** The subpopulation that [subpopulation(2, jagged_table, 1)] constructs
    when the identifier counter is 0. *)
Definition jagged_subpopulation : subpopulation :=
  {| sp_base := {| pb_base := jagged_grid; ages := [] |};
     some_derived_quantities := replicate 6 0%float;
     area_ := None |}.

(** [sp] was made by the body of the loops of [initialize_subpopulations]
    run on the population [p]: constructed from the dimensions and the
    season table of [p], then bound to [a]. *)
Definition made_for (p : population) (a : area) (sp : subpopulation) : Prop :=
  ∃ sub_pop id_g id_g',
    subpopulation_variable (nyears_ p) (season_offsets_ p) (nages_ p) id_g
      = Ok (sub_pop, id_g') ∧
    sp = set_area a sub_pop.

(** Every index that the loops of the population [p] compute is a position
    of the array of [sp]. *)
Definition in_bounds (p : population) (sp : subpopulation) : Prop :=
  ∀ y s a, visited p y s a →
    get_index p y s a < vec_size (some_derived_quantities sp).

(** The area that [area(1, 1, 1)] constructs when the identifier counter is
    0. *)
Definition unit_area : area :=
  {| nyears_ := 1; nseasons_ := Some 1; nages_ := 1;
     season_offsets_ := [[1%float]]; seasons_max_ := 1; object_id := 0 |}.

(** The numbers [0, 1, ..., n - 1] in increasing order. *)
Definition range (n : N) : list N := N.of_nat <$> seq 0 (N.to_nat n).

(** The number of seasons of year [y] read off the season table, 0 for a
    year without a row. *)
Definition row_size (b : model_base) (y : N) : N :=
  default 0 (vec_size <$> season_offsets_ b !! N.to_nat y).

(** The cells of a grid in lexicographic (year, season, age) order, every
    year with its own number of seasons. *)
Definition report_cells (b : model_base) : list (N * N * N) :=
  y ← range (nyears_ b);
  s ← range (row_size b y);
  a ← range (nages_ b);
  [(y, s, a)].

(** The array of [sp] holds at position [k] the number [k] itself, as a
    [double]. *)
Definition holds_offset (sp : subpopulation) (k : N) : Prop :=
  some_derived_quantities sp !! N.to_nat k = Some (SizeT.to_double k).

(** Position [k] is the folded index of no cell that the loops of [p]
    visit. *)
Definition unvisited (p : population) (k : nat) : Prop :=
  ∀ y s a, visited p y s a → N.to_nat (get_index p y s a) ≠ k.

(** The effect of part of the evaluation on one subpopulation: the cells
    in [C] now hold their offsets, cells that held their offset still do,
    and positions that are the index of no visited cell are untouched. *)
Definition wrote (p : population) (C : N → N → N → Prop) (t t' : subpopulation)
  : Prop :=
  (∀ y s a, C y s a → holds_offset t' (get_index p y s a)) ∧
  (∀ k, holds_offset t k → holds_offset t' k) ∧
  (∀ k, unvisited p k →
     some_derived_quantities t' !! k = some_derived_quantities t !! k).

(** The (year, season, age) of a reported cell. *)
Definition cell_coords (c : cell) : N * N * N :=
  (cell_year c, cell_season c, cell_age c).

(** Two computations agree: both fail with the same error, or both return
    and the values are related. *)
Definition rel_result {A B : Type} (R : A → B → Prop) (r1 : result A) (r2 : result B)
  : Prop :=
  match r1, r2 with
  | Ok a, Ok b => R a b
  | Err e1, Err e2 => e1 = e2
  | _, _ => False
  end.

(** A grid of the first revision and a grid of the second describe the same
    regular grid: same years and ages, the season table of the second has
    one regular row of [nseasons_] seasons per year, and its longest year is
    [nseasons_] unless there is no year at all. *)
Definition same_grid_v1 (b1 : IndexingV1.model_base) (b2 : model_base) : Prop :=
  IndexingV1.nyears_ b1 = nyears_ b2 ∧
  IndexingV1.nages_ b1 = nages_ b2 ∧
  season_offsets_ b2 =
    replicate (N.to_nat (nyears_ b2)) (fixed_season_row (IndexingV1.nseasons_ b1)) ∧
  (nyears_ b2 = 0 ∨ seasons_max_ b2 = IndexingV1.nseasons_ b1).

(** Subpopulations of the two revisions with the same grid, identifier and
    array. *)
Definition same_subpopulation_v1 (sp1 : IndexingV1.subpopulation) (sp2 : subpopulation)
  : Prop :=
  same_grid_v1 sp1 sp2 ∧
  IndexingV1.object_id sp1 = object_id sp2 ∧
  IndexingV1.some_derived_quantities sp1 = some_derived_quantities sp2.

(** Populations of the two revisions with the same grid, sexes, number of
    areas and, sex by sex, the same subpopulations. *)
Definition same_population_v1 (q : IndexingV1.population) (p : population) : Prop :=
  same_grid_v1 q p ∧
  IndexingV1.nsexes_ q = nsexes_ p ∧
  length (IndexingV1.areas_ q) = length (areas_ p) ∧
  ∀ i, Forall2 same_subpopulation_v1 (IndexingV1.sub_pops_of q i) (sub_pops_of p i).

(** States of the partition and report loops: a population with the
    identifier counter or with the output so far. *)
Definition same_state_v1 {A : Type} (st1 : IndexingV1.population * A)
    (st2 : population * A) : Prop :=
  same_population_v1 st1.1 st2.1 ∧ st1.2 = st2.2.

(** The area that the first revision's [area(1, 1, 1)] constructs when the
    identifier counter is 0. *)
Definition unit_area_v1 : IndexingV1.area :=
  {| IndexingV1.nyears_ := 1; IndexingV1.nseasons_ := 1; IndexingV1.nages_ := 1;
     IndexingV1.object_id := 0 |}.

(** * Properties *)

(** ** Loop rules *)

Section LoopRules.

Context {S : Type}.
Implicit Types (body : N → S → result S) (P : N → S → Prop).

(** Partial correctness: an invariant kept by every successful iteration
    holds when the loop finishes. *)
Lemma for_loop_inv P body n i s s' :
  for_loop n i body s = Ok s' →
  P i s →
  (∀ k t t', i ≤ k < i + N.of_nat n → P k t → body k t = Ok t' → P (N.succ k) t') →
  P (i + N.of_nat n) s'.
Proof.
  revert i s. induction n as [|n IH]; intros i s Hrun Hi Hstep; simpl in Hrun.
  - inversion Hrun; subst. by replace (i + N.of_nat 0) with i by lia.
  - destruct (body i s) as [t|e] eqn:Hb; [|done].
    replace (i + N.of_nat (Datatypes.S n)) with (N.succ i + N.of_nat n) by lia.
    apply (IH (N.succ i) t Hrun).
    + apply (Hstep i s t); [lia|done..].
    + intros k u u' Hk. apply Hstep. lia.
Qed.

(** Total correctness: if every iteration succeeds under the invariant, the
    loop finishes and the invariant holds. *)
Lemma for_loop_total P body n i s :
  P i s →
  (∀ k t, i ≤ k < i + N.of_nat n → P k t → ∃ t', body k t = Ok t' ∧ P (N.succ k) t') →
  ∃ s', for_loop n i body s = Ok s' ∧ P (i + N.of_nat n) s'.
Proof.
  revert i s. induction n as [|n IH]; intros i s Hi Hstep; simpl.
  - exists s. split; [done|]. by replace (i + N.of_nat 0) with i by lia.
  - destruct (Hstep i s) as (t & Hb & Ht); [lia|done|]. rewrite Hb.
    replace (i + N.of_nat (Datatypes.S n)) with (N.succ i + N.of_nat n) by lia.
    apply IH; [done|]. intros k u Hk. apply Hstep. lia.
Qed.

Lemma for_size_t_inv P body bound s s' :
  for_size_t bound body s = Ok s' →
  P 0 s →
  (∀ k t t', k < bound → P k t → body k t = Ok t' → P (N.succ k) t') →
  P bound s'.
Proof.
  unfold for_size_t. intros Hrun H0 Hstep.
  replace bound with (0 + N.of_nat (N.to_nat bound)) by lia.
  eapply for_loop_inv; [done..|]. intros k t t' Hk. apply Hstep. lia.
Qed.

Lemma for_size_t_total P body bound s :
  P 0 s →
  (∀ k t, k < bound → P k t → ∃ t', body k t = Ok t' ∧ P (N.succ k) t') →
  ∃ s', for_size_t bound body s = Ok s' ∧ P bound s'.
Proof.
  unfold for_size_t. intros H0 Hstep.
  destruct (for_loop_total P body (N.to_nat bound) 0 s) as (s' & Hrun & Hs');
    [done| |].
  - intros k t Hk. apply Hstep. lia.
  - exists s'. split; [done|].
    by replace bound with (0 + N.of_nat (N.to_nat bound)) by lia.
Qed.

Lemma for_int_inv P body bound s s' :
  for_int bound body s = Ok s' →
  P 0 s →
  (∀ k t t', k < bound → P k t → body k t = Ok t' → P (N.succ k) t') →
  bound ≤ SizeT.INT_MAX ∧ P bound s'.
Proof.
  unfold for_int. destruct (SizeT.INT_MAX <? bound) eqn:Hb; [done|].
  apply N.ltb_ge in Hb. intros Hrun H0 Hstep. split; [done|].
  by apply (for_size_t_inv P body bound s s').
Qed.

Lemma for_int_total P body bound s :
  bound ≤ SizeT.INT_MAX →
  P 0 s →
  (∀ k t, k < bound → P k t → ∃ t', body k t = Ok t' ∧ P (N.succ k) t') →
  ∃ s', for_int bound body s = Ok s' ∧ P bound s'.
Proof.
  unfold for_int. intros Hb. apply N.ltb_ge in Hb. rewrite Hb.
  apply for_size_t_total.
Qed.

End LoopRules.

(** ** Vectors *)

Lemma vec_get_ok {A} (v : list A) i a :
  vec_get v i = Ok a ↔ v !! N.to_nat i = Some a.
Proof. unfold vec_get. destruct (v !! N.to_nat i); naive_solver. Qed.

Lemma vec_get_lt {A} (v : list A) i :
  i < vec_size v → ∃ a, vec_get v i = Ok a ∧ v !! N.to_nat i = Some a.
Proof.
  unfold vec_size. intros Hi.
  destruct (lookup_lt_is_Some_2 v (N.to_nat i)) as [a Ha]; [lia|].
  exists a. split; [|done]. by apply vec_get_ok.
Qed.

Lemma vec_get_ge {A} (v : list A) i :
  vec_size v ≤ i ↔ vec_get v i = Err OutOfBounds.
Proof.
  unfold vec_get, vec_size. split.
  - intros Hi. rewrite lookup_ge_None_2; [done|lia].
  - destruct (v !! N.to_nat i) eqn:Hl; [done|]. intros _.
    apply lookup_ge_None_1 in Hl. lia.
Qed.

Lemma vec_set_ok {A} (v v' : list A) i x :
  vec_set v i x = Ok v' ↔ i < vec_size v ∧ v' = <[N.to_nat i := x]> v.
Proof.
  unfold vec_set, vec_size. destruct (i <? N.of_nat (length v)) eqn:Hi.
  - apply N.ltb_lt in Hi. split; [by intros [= <-]|by intros [_ ->]].
  - apply N.ltb_ge in Hi. split; [done|]. intros [Hlt _]. lia.
Qed.

(** ** [size_t] arithmetic *)

Lemma wrap_small n : n < SizeT.modulus → SizeT.wrap n = n.
Proof. apply N.mod_small. Qed.

Lemma modulus_pos : SizeT.modulus ≠ 0.
Proof. by vm_compute. Qed.

Lemma wrap_add_l a b : SizeT.wrap (SizeT.wrap a + b) = SizeT.wrap (a + b).
Proof. apply N.Div0.add_mod_idemp_l. Qed.

Lemma wrap_add_r a b : SizeT.wrap (a + SizeT.wrap b) = SizeT.wrap (a + b).
Proof. apply N.Div0.add_mod_idemp_r. Qed.

Lemma wrap_mul_l a b : SizeT.wrap (SizeT.wrap a * b) = SizeT.wrap (a * b).
Proof. apply N.Div0.mul_mod_idemp_l. Qed.

(** The folded index is the textbook expression reduced modulo [2^64]. *)
Lemma get_index_wrap b y s a :
  get_index b y s a =
  SizeT.wrap (y * seasons_max_ b * nages_ b + s * nages_ b + a).
Proof.
  unfold get_index, SizeT.add, SizeT.mul.
  rewrite wrap_add_l, <- N.add_assoc, wrap_add_l.
  rewrite <- (wrap_add_l (_ * _)), wrap_mul_l, wrap_add_l.
  rewrite N.add_assoc, <- (wrap_add_l (_ + _)), wrap_add_r, wrap_add_l.
  done.
Qed.

Lemma get_index_time_wrap b y s :
  get_index_time b y s = SizeT.wrap (y * seasons_max_ b * nages_ b + s).
Proof.
  unfold get_index_time, SizeT.add, SizeT.mul.
  by rewrite wrap_add_l, <- (wrap_add_l (_ * _)), wrap_mul_l, wrap_add_l.
Qed.

(** Inside the rectangle the textbook expression stays below the product of
    the three dimensions. *)
Lemma folded_lt_product Y M A y s a :
  y < Y → s < M → a < A → y * M * A + s * A + a < Y * M * A.
Proof.
  intros Hy Hs Ha.
  assert (s * A + a < M * A) as Hsa.
  { apply N.lt_le_trans with ((s + 1) * A); [lia|].
    apply N.mul_le_mono_r. lia. }
  apply N.lt_le_trans with ((y + 1) * (M * A)); [lia|].
  rewrite <- N.mul_assoc. apply N.mul_le_mono_r. lia.
Qed.

(** ** The folded index (claims C2 and C3) *)

(** Without wrap-around the folded index is the textbook expression. *)
Lemma get_index_exact (b : model_base) (y s a : N) :
  nyears_ b * seasons_max_ b * nages_ b ≤ SizeT.modulus →
  y < nyears_ b → s < seasons_max_ b → a < nages_ b →
  get_index b y s a = y * seasons_max_ b * nages_ b + s * nages_ b + a.
Proof.
  intros Hfit Hy Hs Ha. rewrite get_index_wrap. apply wrap_small.
  pose proof (folded_lt_product _ _ _ _ _ _ Hy Hs Ha). lia.
Qed.

(** C2, counterexample.  The grid built by [model_base(2, 2, 2^63)] has
    the cell (year 1, season 1, age 0) inside its rectangle, and the code
    returns [2^63] for it, not [1*2*2^63 + 1*2^63 + 0]: the sum does not fit
    [size_t] and wraps around. *)
Lemma get_index_wraps_around :
  ∃ g id_g',
    model_base_fixed 2 2 (2 ^ 63) 0 = Ok (g, id_g') ∧
    1 < nyears_ g ∧ 1 < seasons_max_ g ∧ 0 < nages_ g ∧
    get_index g 1 1 0 = 2 ^ 63 ∧
    get_index g 1 1 0 ≠ 1 * seasons_max_ g * nages_ g + 1 * nages_ g + 0.
Proof.
  eexists _, _. split; [vm_compute; reflexivity|]. by vm_compute.
Qed.

(** C2, amended.  For every grid whose rectangle
    [yearCount * maxSeasonCount * ageCount] is at most [2^64], and every
    year in [0, yearCount), season in [0, maxSeasonCount) and age in
    [0, ageCount), the three-argument folded index is
    [year*maxSeasonCount*ageCount + season*ageCount + age]. *)
Theorem get_index_formula (b : model_base) (y s a : N) :
  nyears_ b * seasons_max_ b * nages_ b ≤ SizeT.modulus →
  y < nyears_ b → s < seasons_max_ b → a < nages_ b →
  get_index b y s a = y * seasons_max_ b * nages_ b + s * nages_ b + a.
Proof. apply get_index_exact. Qed.

Lemma get_index_formula_witness :
  ∃ g id_g',
    model_base_fixed 2 2 2 0 = Ok (g, id_g') ∧
    nyears_ g * seasons_max_ g * nages_ g ≤ SizeT.modulus ∧
    1 < nyears_ g ∧ 0 < seasons_max_ g ∧ 1 < nages_ g ∧
    get_index g 1 0 1 = 1 * seasons_max_ g * nages_ g + 0 * nages_ g + 1.
Proof.
  eexists _, _. split; [vm_compute; reflexivity|].
  do 4 (split; [by vm_compute|]).
  apply get_index_formula; by vm_compute.
Defined.

(** C3, counterexample.  On the fixed 2 x 2 x 2 grid the cell (year 0,
    season 1, age 0) has three-argument index 2 while the two-argument index
    of (year 0, season 1) is 1: the two-argument overload adds the season
    itself, not the season times the number of ages. *)
Lemma index_decomposition_fails :
  ∃ g id_g',
    model_base_fixed 2 2 2 0 = Ok (g, id_g') ∧
    0 < nyears_ g ∧ 1 < seasons_max_ g ∧ 0 < nages_ g ∧
    get_index g 0 1 0 = 2 ∧ get_index_time g 0 1 = 1 ∧
    get_index g 0 1 0 ≠ get_index_time g 0 1 + 0.
Proof.
  eexists _, _. split; [vm_compute; reflexivity|]. by vm_compute.
Qed.

(** C3, amended.  For every grid whose rectangle is at most [2^64] and all
    valid y, s, a, the three-argument index exceeds the two-argument one by
    [s * (ageCount - 1) + a]; the decomposition
    [index3(y, s, a) = index2(y, s) + a] holds exactly when [s = 0] or
    [ageCount = 1]. *)
Theorem index_decomposition (b : model_base) (y s a : N) :
  nyears_ b * seasons_max_ b * nages_ b ≤ SizeT.modulus →
  y < nyears_ b → s < seasons_max_ b → a < nages_ b →
  get_index b y s a = get_index_time b y s + s * (nages_ b - 1) + a ∧
  (get_index b y s a = get_index_time b y s + a ↔ s = 0 ∨ nages_ b = 1).
Proof.
  intros Hfit Hy Hs Ha.
  rewrite (get_index_exact b y s a) by done.
  rewrite get_index_time_wrap, wrap_small.
  - split; [nia|]. split; [|intros [->| ->]; lia].
    intros Heq. destruct (decide (s = 0)) as [|Hs0]; [by left|right].
    assert (s * nages_ b = s) as Hmul by lia.
    assert (s * (nages_ b - 1) = 0) as Hz by nia.
    apply N.eq_mul_0 in Hz as [?|?]; [done|lia].
  - pose proof (folded_lt_product _ _ _ _ _ _ Hy Hs Ha).
    assert (s ≤ s * nages_ b) by nia. lia.
Qed.

Lemma index_decomposition_witness :
  ∃ g id_g',
    model_base_fixed 2 2 2 0 = Ok (g, id_g') ∧
    nyears_ g * seasons_max_ g * nages_ g ≤ SizeT.modulus ∧
    1 < nyears_ g ∧ 1 < seasons_max_ g ∧ 1 < nages_ g ∧
    get_index g 1 1 1 = get_index_time g 1 1 + 1 * (nages_ g - 1) + 1 ∧
    (get_index g 1 1 1 = get_index_time g 1 1 + 1 ↔ 1 = 0 ∨ nages_ g = 1).
Proof.
  eexists _, _. split; [vm_compute; reflexivity|].
  do 4 (split; [by vm_compute|]).
  apply index_decomposition; by vm_compute.
Defined.

(** ** The constructors of [model_base] *)

Lemma bind_ok {A B} (r : result A) (f : A → result B) b :
  r ≫= f = Ok b ↔ ∃ a, r = Ok a ∧ f a = Ok b.
Proof.
  destruct r as [a|e]; simpl; split; try done.
  - intros Hf. by exists a.
  - by intros (a' & [= <-] & Hf).
  - by intros (a' & [=] & _).
Qed.

Lemma get_seasons_ok b y k :
  get_seasons b y = Ok k ↔
  ∃ row, season_offsets_ b !! N.to_nat y = Some row ∧ k = vec_size row.
Proof.
  unfold get_seasons. rewrite bind_ok. split.
  - intros (row & Hrow & [= <-]). exists row. by rewrite <- vec_get_ok.
  - intros (row & Hrow & ->). exists row. by rewrite vec_get_ok.
Qed.

Lemma get_seasons_err b y e :
  get_seasons b y = Err e ↔ vec_size (season_offsets_ b) ≤ y ∧ e = OutOfBounds.
Proof.
  unfold get_seasons. rewrite vec_get_ge. unfold vec_get.
  destruct (season_offsets_ b !! N.to_nat y); simpl; split; try done.
  - by intros [[=] _].
  - by intros [= <-].
  - by intros [_ ->].
Qed.

(** What the loop of the variable-season constructor computes. *)
Lemma max_season_loop offsets nyears m :
  for_size_t nyears (max_season_step offsets) 0 = Ok m ↔
  nyears ≤ vec_size offsets ∧
  (∀ y, y < nyears → ∃ row, offsets !! N.to_nat y = Some row ∧ vec_size row ≤ m) ∧
  (0 < nyears → ∃ y row, y < nyears ∧ offsets !! N.to_nat y = Some row ∧ vec_size row = m) ∧
  (nyears = 0 → m = 0).
Proof.
  set (P := λ (i m : N),
    i ≤ vec_size offsets ∧
    (∀ y, y < i → ∃ row, offsets !! N.to_nat y = Some row ∧ vec_size row ≤ m) ∧
    (0 < i → ∃ y row, y < i ∧ offsets !! N.to_nat y = Some row ∧ vec_size row = m) ∧
    (i = 0 → m = 0)).
  assert (∀ k t t', P k t → max_season_step offsets k t = Ok t' → P (N.succ k) t')
    as Hstep.
  { intros k t t' (Hk & Hle & Hex & Hz) Hb. unfold max_season_step in Hb.
    apply bind_ok in Hb as (row & Hrow & [= <-]). apply vec_get_ok in Hrow.
    pose proof (lookup_lt_Some _ _ _ Hrow) as Hlen. unfold P, vec_size in *.
    split; [lia|]. split; [|split; [|lia]].
    - intros y Hy. destruct (decide (y = k)) as [->|Hne].
      + exists row. split; [done|lia].
      + destruct (Hle y) as (r & Hr & Hrm); [lia|]. exists r. split; [done|lia].
    - intros _. destruct (N.max_spec t (N.of_nat (length row))) as [[Hlt ->]|[Hge ->]].
      + exists k, row. split; [lia|done].
      + destruct (decide (k = 0)) as [->|Hk0].
        * exists 0, row. rewrite (Hz eq_refl) in Hge. split; [lia|]. split; [done|lia].
        * destruct Hex as (y & r & Hy & Hr & Hrm); [lia|].
          exists y, r. split; [lia|done]. }
  split.
  - intros Hrun. apply (for_size_t_inv P _ _ _ _ Hrun).
    + unfold P. split; [lia|]. split; [intros; lia|]. split; [intros; lia|done].
    + intros k t t' _. apply Hstep.
  - intros HP.
    destruct (for_size_t_total P (max_season_step offsets) nyears 0)
      as (m' & Hrun & Hm').
    + unfold P. split; [lia|]. split; [intros; lia|]. split; [intros; lia|done].
    + intros k t Hk Ht. destruct HP as (Hsz & _).
      destruct (vec_get_lt offsets k) as (row & Hrow & _); [lia|].
      exists (N.max t (vec_size row)). split.
      * unfold max_season_step. by rewrite Hrow.
      * apply (Hstep k t); [done|]. unfold max_season_step. by rewrite Hrow.
    + rewrite Hrun. f_equal.
      destruct HP as (_ & Hle & Hex & Hz), Hm' as (_ & Hle' & Hex' & Hz').
      destruct (decide (nyears = 0)) as [H0|H0]; [by rewrite Hz, Hz'|].
      destruct Hex as (y & r & Hy & Hr & Hrm); [lia|].
      destruct Hex' as (y' & r' & Hy' & Hr' & Hrm'); [lia|].
      destruct (Hle y' Hy') as (r1 & Hr1 & Hle1).
      destruct (Hle' y Hy) as (r2 & Hr2 & Hle2).
      simplify_eq. lia.
Qed.

(** The variable-season constructor returns exactly when the table covers
    the years, and then stores its arguments and the computed maximum. *)
Lemma model_base_variable_ok nyears offsets nages id_g g id_g' :
  model_base_variable nyears offsets nages id_g = Ok (g, id_g') ↔
  for_size_t nyears (max_season_step offsets) 0 = Ok (seasons_max_ g) ∧
  nyears_ g = nyears ∧ nseasons_ g = None ∧ nages_ g = nages ∧
  season_offsets_ g = offsets ∧ object_id g = id_g ∧ id_g' = id_g ⊕ 1.
Proof.
  unfold model_base_variable. simpl. rewrite bind_ok. split.
  - intros (m & Hm & [= <- <-]). by simpl.
  - intros (Hm & <- & Hs & <- & <- & <- & ->). exists (seasons_max_ g).
    split; [done|]. destruct g; simpl in *. by subst.
Qed.

Lemma variable_grid_max g :
  variable_grid g → is_max_seasons g (seasons_max_ g).
Proof.
  intros (nyears & offsets & nages & id_g & id_g' & Hg).
  apply model_base_variable_ok in Hg as (Hloop & <- & _ & _ & <- & _).
  apply max_season_loop in Hloop as (_ & Hle & Hex & Hz).
  split; [|split; [|done]].
  - intros y Hy. destruct (Hle y Hy) as (row & Hrow & Hm).
    exists (vec_size row). split; [|done]. apply get_seasons_ok. by exists row.
  - intros Hpos. destruct (Hex Hpos) as (y & row & Hy & Hrow & <-).
    exists y. split; [done|]. apply get_seasons_ok. by exists row.
Qed.

Lemma fixed_season_row_size nseasons : vec_size (fixed_season_row nseasons) = nseasons.
Proof.
  unfold vec_size, fixed_season_row. rewrite length_fmap, length_seq. lia.
Qed.

(** What the row-filling loop of the fixed-season constructor computes. *)
Lemma fixed_rows_loop nyears nseasons offs :
  for_int nyears
    (λ i offs,
       if 2 ^ 53 <? nseasons then Err BadAlloc
       else row ← vec_get offs i;
            Ok (<[N.to_nat i := row ++ fixed_season_row nseasons]> offs))
    (replicate (N.to_nat nyears) []) = Ok offs →
  nyears ≤ SizeT.INT_MAX ∧
  offs = replicate (N.to_nat nyears) (fixed_season_row nseasons).
Proof.
  set (row := fixed_season_row nseasons).
  set (P := λ (i : N) (o : list (list float)),
    length o = N.to_nat nyears ∧
    (∀ y : nat, (y < N.to_nat i)%nat → (y < N.to_nat nyears)%nat → o !! y = Some row) ∧
    (∀ y : nat, (N.to_nat i ≤ y)%nat → (y < N.to_nat nyears)%nat → o !! y = Some [])).
  intros Hrun. apply (for_int_inv P) in Hrun as (Hmax & Hlen & Hrows & _).
  - split; [done|]. apply list_eq. intros y.
    destruct (decide (y < N.to_nat nyears)%nat) as [Hy|Hy].
    + rewrite Hrows by done. symmetry. by apply lookup_replicate_2.
    + rewrite !lookup_ge_None_2; [done|rewrite length_replicate; lia|lia].
  - unfold P. rewrite length_replicate. split; [done|]. split; [intros; lia|].
    intros y _ Hy. by apply lookup_replicate_2.
  - intros k t t' Hk (Hlen & Hrows & Hempty) Hb.
    destruct (2 ^ 53 <? nseasons); [done|].
    apply bind_ok in Hb as (r & Hr & [= <-]). apply vec_get_ok in Hr.
    rewrite Hempty in Hr by lia. injection Hr as <-. simpl.
    unfold P. rewrite length_insert. split; [done|]. split.
    + intros y Hy Hyn. destruct (decide (y = N.to_nat k)) as [->|Hne].
      * apply list_lookup_insert_eq. lia.
      * rewrite list_lookup_insert_ne by done. apply Hrows; lia.
    + intros y Hy Hyn. rewrite list_lookup_insert_ne by lia. apply Hempty; lia.
Qed.

Lemma model_base_fixed_ok nyears nseasons nages id_g g id_g' :
  model_base_fixed nyears nseasons nages id_g = Ok (g, id_g') →
  nyears ≤ SizeT.INT_MAX ∧
  nyears_ g = nyears ∧ nseasons_ g = Some nseasons ∧ nages_ g = nages ∧
  seasons_max_ g = nseasons ∧
  season_offsets_ g = replicate (N.to_nat nyears) (fixed_season_row nseasons) ∧
  object_id g = id_g ∧ id_g' = id_g ⊕ 1.
Proof.
  unfold model_base_fixed. simpl. rewrite bind_ok.
  intros (offs & Hloop & [= <- <-]). simpl.
  apply fixed_rows_loop in Hloop as (Hmax & ->). done.
Qed.

Lemma fixed_grid_rows g :
  fixed_grid g →
  vec_size (season_offsets_ g) = nyears_ g ∧
  ∀ y, y < nyears_ g → get_seasons g y = Ok (seasons_max_ g).
Proof.
  intros (nyears & nseasons & nages & id_g & id_g' & Hg).
  apply model_base_fixed_ok in Hg as (_ & Hny & _ & _ & Hmax & Hoff & _).
  split.
  - unfold vec_size. rewrite Hoff, length_replicate. lia.
  - intros y Hy. apply get_seasons_ok. exists (fixed_season_row nseasons).
    rewrite Hoff, Hmax. split; [|by rewrite fixed_season_row_size].
    apply lookup_replicate_2. lia.
Qed.

Lemma variable_grid_rows g :
  variable_grid g → nyears_ g ≤ vec_size (season_offsets_ g).
Proof.
  intros (nyears & offsets & nages & id_g & id_g' & Hg).
  apply model_base_variable_ok in Hg as (Hloop & <- & _ & _ & <- & _).
  by apply max_season_loop in Hloop as (? & _).
Qed.

(** ** Seasons of a year (claim C7) *)

(** C7, counterexample.  A variable grid of one year is built from a table
    of two rows; asked for year 1, which is not below [yearCount = 1],
    [get_seasons] returns 2 and reports no error: the year is never compared
    with [nyears_]. *)
Lemma get_seasons_beyond_last_year :
  ∃ g id_g',
    model_base_variable 1 [[1%float]; [0.5%float; 1%float]] 1 0 = Ok (g, id_g') ∧
    nyears_ g = 1 ∧ nyears_ g ≤ 1 ∧ get_seasons g 1 = Ok 2.
Proof.
  eexists _, _. split; [vm_compute; reflexivity|]. by vm_compute.
Qed.

(** C7, amended.  On every grid returned by a constructor,
    [get_seasons year] returns the length of the year's row of season
    offsets for every year below [yearCount].  The year is not compared with
    [yearCount]: the call returns a row length for every year below the
    number of rows of the table, which is [yearCount] on a fixed grid and at
    least [yearCount] on a variable one; at or beyond the number of rows the
    vector is read past its end, which is an unchecked access and not a
    reported out-of-range error. *)
Theorem get_seasons_unchecked (g : model_base) (year : N) :
  variable_grid g ∨ fixed_grid g →
  (year < nyears_ g →
     ∃ row, season_offsets_ g !! N.to_nat year = Some row ∧
            get_seasons g year = Ok (vec_size row)) ∧
  nyears_ g ≤ vec_size (season_offsets_ g) ∧
  (fixed_grid g → vec_size (season_offsets_ g) = nyears_ g) ∧
  (year < vec_size (season_offsets_ g) →
     ∃ row, season_offsets_ g !! N.to_nat year = Some row ∧
            get_seasons g year = Ok (vec_size row)) ∧
  (vec_size (season_offsets_ g) ≤ year → get_seasons g year = Err OutOfBounds).
Proof.
  intros Hg.
  assert (nyears_ g ≤ vec_size (season_offsets_ g)) as Hrows.
  { destruct Hg as [Hv|Hf]; [by apply variable_grid_rows|].
    apply fixed_grid_rows in Hf as [-> _]. lia. }
  assert (year < vec_size (season_offsets_ g) →
          ∃ row, season_offsets_ g !! N.to_nat year = Some row ∧
                 get_seasons g year = Ok (vec_size row)) as Hin.
  { intros Hy. destruct (vec_get_lt _ _ Hy) as (row & _ & Hrow).
    exists row. split; [done|]. apply get_seasons_ok. by exists row. }
  split; [intros Hy; apply Hin; lia|]. split; [done|].
  split; [intros Hf; by apply fixed_grid_rows in Hf as [? _]|]. split.
  - exact Hin.
  - intros Hy. by apply get_seasons_err.
Qed.

Lemma get_seasons_unchecked_witness :
  (variable_grid jagged_grid ∨ fixed_grid jagged_grid) ∧
  (1 < nyears_ jagged_grid →
     ∃ row, season_offsets_ jagged_grid !! N.to_nat 1 = Some row ∧
            get_seasons jagged_grid 1 = Ok (vec_size row)) ∧
  nyears_ jagged_grid ≤ vec_size (season_offsets_ jagged_grid) ∧
  (fixed_grid jagged_grid →
     vec_size (season_offsets_ jagged_grid) = nyears_ jagged_grid) ∧
  (1 < vec_size (season_offsets_ jagged_grid) →
     ∃ row, season_offsets_ jagged_grid !! N.to_nat 1 = Some row ∧
            get_seasons jagged_grid 1 = Ok (vec_size row)) ∧
  (vec_size (season_offsets_ jagged_grid) ≤ 1 →
     get_seasons jagged_grid 1 = Err OutOfBounds).
Proof.
  assert (variable_grid jagged_grid ∨ fixed_grid jagged_grid) as Hg.
  { left. exists 2, jagged_table, 1, 0, 1. reflexivity. }
  split; [exact Hg|]. exact (get_seasons_unchecked jagged_grid 1 Hg).
Defined.

(** ** What the operations leave unchanged *)

Lemma calculate_ok index sp sp' :
  calculate_some_life_history_1 index sp = Ok sp' ↔
  index < vec_size (some_derived_quantities sp) ∧
  sp' = set_derived (<[N.to_nat index := SizeT.to_double index]>
                       (some_derived_quantities sp)) sp.
Proof.
  unfold calculate_some_life_history_1. rewrite bind_ok. split.
  - intros (d & Hd & [= <-]). apply vec_set_ok in Hd as [Hlt ->]. done.
  - intros [Hlt ->]. eexists. split; [|done]. by apply vec_set_ok.
Qed.

Lemma same_shape_trans sp1 sp2 sp3 :
  same_shape sp1 sp2 → same_shape sp2 sp3 → same_shape sp1 sp3.
Proof. intros (? & ? & ?) (? & ? & ?). repeat split; congruence. Qed.

Lemma calculate_shape index sp sp' :
  calculate_some_life_history_1 index sp = Ok sp' → same_shape sp sp'.
Proof.
  intros [_ ->]%calculate_ok. repeat split. simpl. unfold vec_size.
  by rewrite length_insert.
Qed.

Lemma evaluate_ages_shape p y s sp sp' :
  evaluate_ages p y s sp = Ok sp' → same_shape sp sp'.
Proof.
  intros Hrun. apply (for_size_t_inv (λ _ t, same_shape sp t)) in Hrun; [done..|].
  intros k t t' _ Ht Hb. eapply same_shape_trans; [done|]. by eapply calculate_shape.
Qed.

Lemma evaluate_seasons_shape p y sp sp' :
  evaluate_seasons p y sp = Ok sp' → same_shape sp sp'.
Proof.
  unfold evaluate_seasons. rewrite bind_ok. intros (n & _ & Hrun).
  apply (for_size_t_inv (λ _ t, same_shape sp t)) in Hrun; [done..|].
  intros k t t' _ Ht Hb. eapply same_shape_trans; [done|].
  by eapply evaluate_ages_shape.
Qed.

Lemma evaluate_years_shape p sp sp' :
  evaluate_years p sp = Ok sp' → same_shape sp sp'.
Proof.
  intros Hrun. apply (for_size_t_inv (λ _ t, same_shape sp t)) in Hrun; [done..|].
  intros k t t' _ Ht Hb. eapply same_shape_trans; [done|].
  by eapply evaluate_seasons_shape.
Qed.

Lemma evaulate_subpopulations_frame p p' :
  evaulate_subpopulations p = Ok p' → same_frame p p'.
Proof.
  unfold evaulate_subpopulations. destruct (nsexes_ p) as [n|]; [|done].
  intros Hrun. apply (for_size_t_inv (λ _ t, same_frame p t)) in Hrun; [done..|].
  intros k t t' _ Ht (sps & _ & [= <-])%bind_ok. done.
Qed.

Lemma population_finalize_frame p p' out :
  population_finalize p = Ok (p', out) → same_frame p p'.
Proof.
  unfold population_finalize. destruct (nsexes_ p) as [n|]; [|done].
  intros Hrun.
  apply (for_size_t_inv (λ _ t, same_frame p (fst t))) in Hrun; [done..|].
  intros k [t o] [t' o'] _ Ht (pr & _ & [= <- <-])%bind_ok. done.
Qed.

Lemma initialize_one_ok i j p id_g p' id_g' :
  initialize_one i j (p, id_g) = Ok (p', id_g') ↔
  ∃ sub_pop a,
    subpopulation_variable (nyears_ p) (season_offsets_ p) (nages_ p) id_g
      = Ok (sub_pop, id_g') ∧
    vec_get (areas_ p) i = Ok a ∧
    p' = set_subpopulations
           (<[i := sub_pops_of p i ++ [set_area a sub_pop]]> (subpopulation_ p)) p.
Proof.
  unfold initialize_one. rewrite bind_ok. split.
  - intros ([sp g] & Hsp & (a & Ha & [= <- <-])%bind_ok). by exists sp, a.
  - intros (sp & a & Hsp & Ha & ->). exists (sp, id_g'). split; [done|].
    apply bind_ok. by exists a.
Qed.

Lemma initialize_subpopulations_frame nsexes areas p id_g p' id_g' :
  initialize_subpopulations nsexes areas p id_g = Ok (p', id_g') →
  pop_base p' = pop_base p ∧ areas_ p' = areas ∧ nsexes_ p' = Some nsexes.
Proof.
  unfold initialize_subpopulations.
  set (Q := λ st : population * N,
    pop_base st.1 = pop_base p ∧ areas_ st.1 = areas ∧ nsexes_ st.1 = Some nsexes).
  intros Hrun.
  apply (for_int_inv (λ _, Q)) in Hrun as [_ HQ]; [done|done|].
  intros i st st' _ Hst Hin.
  apply (for_int_inv (λ _, Q)) in Hin as [_ HQ']; [done|done|].
  intros j [t g] [t' g'] _ Ht (sp & a & _ & _ & ->)%initialize_one_ok. done.
Qed.

(** ** The longest year (claim C4) *)

Lemma max_season_loop_total offsets nyears :
  nyears ≤ vec_size offsets →
  is_ok (for_size_t nyears (max_season_step offsets) 0).
Proof.
  intros Hrows.
  destruct (for_size_t_total (λ _ _, True) (max_season_step offsets) nyears 0)
    as (m & Hm & _); [done| |by exists m].
  intros k t Hk _. destruct (vec_get_lt offsets k) as (row & Hrow & _); [lia|].
  exists (N.max t (vec_size row)). unfold max_season_step. by rewrite Hrow.
Qed.

(** C4.  A grid constructed from a variable season-offset table that covers
    its [yearCount] years keeps the caller's table as its season table, and
    has [maxSeasonCount] equal to the maximum over the years
    [y < yearCount] of the length of the caller's row [y], which is
    [seasonsInYear(y)], and 0 when there is no year: no row of these years
    is longer, and one of them is that long.  Every later operation leaves
    the grid as constructed:
    partitioning, evaluation and finalisation of a population with this
    grid, and a cell update of a subpopulation with this grid, return an
    object with the same grid; the index and season queries return numbers
    only. *)
Theorem seasons_max_is_maximum nyears offsets nages id_g :
  nyears ≤ vec_size offsets →
  ∃ g : model_base,
    model_base_variable nyears offsets nages id_g = Ok (g, id_g ⊕ 1) ∧
    nyears_ g = nyears ∧
    nages_ g = nages ∧
    season_offsets_ g = offsets ∧
    (∀ y, y < nyears →
       ∃ row, offsets !! N.to_nat y = Some row ∧ get_seasons g y = Ok (vec_size row) ∧
              vec_size row ≤ seasons_max_ g) ∧
    (0 < nyears →
       ∃ y row, y < nyears ∧ offsets !! N.to_nat y = Some row ∧
                vec_size row = seasons_max_ g) ∧
    (nyears = 0 → seasons_max_ g = 0) ∧
    is_max_seasons g (seasons_max_ g) ∧
    (∀ p : population, pb_base p = g →
       (∀ nsexes areas id p' id',
          initialize_subpopulations nsexes areas p id = Ok (p', id') → pb_base p' = g) ∧
       (∀ p', evaulate_subpopulations p = Ok p' → pb_base p' = g) ∧
       (∀ p' out, population_finalize p = Ok (p', out) → pb_base p' = g)) ∧
    (∀ sp : subpopulation, pb_base sp = g →
       (∀ index sp', calculate_some_life_history_1 index sp = Ok sp' → pb_base sp' = g) ∧
       (∀ (p : population) sp', evaluate_years p sp = Ok sp' → pb_base sp' = g)).
Proof.
  intros Hrows. destruct (max_season_loop_total offsets nyears Hrows) as [m Hm].
  set (g := {| nyears_ := nyears; nseasons_ := None; nages_ := nages;
               season_offsets_ := offsets; seasons_max_ := m; object_id := id_g |}).
  assert (model_base_variable nyears offsets nages id_g = Ok (g, id_g ⊕ 1)) as Hg.
  { by apply model_base_variable_ok. }
  pose proof (proj1 (max_season_loop offsets nyears m) Hm) as (_ & Hle & Hex & Hz).
  exists g. do 4 (split; [done|]). split.
  { intros y Hy. destruct (Hle y Hy) as (row & Hrow & Hlen). exists row.
    split; [done|]. split; [|done]. apply get_seasons_ok. by exists row. }
  split; [exact Hex|]. split; [exact Hz|]. split.
  { apply variable_grid_max. by exists nyears, offsets, nages, id_g, (id_g ⊕ 1). }
  split.
  - intros p Hp. split; [|split].
    + intros nsexes areas id p' id' (Hb & _)%initialize_subpopulations_frame.
      by rewrite Hb.
    + intros p' (Hb & _)%evaulate_subpopulations_frame. by rewrite Hb.
    + intros p' out (Hb & _)%population_finalize_frame. by rewrite Hb.
  - intros sp Hsp. split.
    + intros index sp' (Hb & _)%calculate_shape. by rewrite Hb.
    + intros p sp' (Hb & _)%evaluate_years_shape. by rewrite Hb.
Qed.

Lemma seasons_max_is_maximum_witness :
  2 ≤ vec_size jagged_table ∧
  ∃ g : model_base,
    model_base_variable 2 jagged_table 1 0 = Ok (g, 0 ⊕ 1) ∧
    nyears_ g = 2 ∧
    nages_ g = 1 ∧
    season_offsets_ g = jagged_table ∧
    (∀ y, y < 2 →
       ∃ row, jagged_table !! N.to_nat y = Some row ∧ get_seasons g y = Ok (vec_size row) ∧
              vec_size row ≤ seasons_max_ g) ∧
    (0 < 2 →
       ∃ y row, y < 2 ∧ jagged_table !! N.to_nat y = Some row ∧
                vec_size row = seasons_max_ g) ∧
    (2 = 0 → seasons_max_ g = 0) ∧
    is_max_seasons g (seasons_max_ g) ∧
    (∀ p : population, pb_base p = g →
       (∀ nsexes areas id p' id',
          initialize_subpopulations nsexes areas p id = Ok (p', id') → pb_base p' = g) ∧
       (∀ p', evaulate_subpopulations p = Ok p' → pb_base p' = g) ∧
       (∀ p' out, population_finalize p = Ok (p', out) → pb_base p' = g)) ∧
    (∀ sp : subpopulation, pb_base sp = g →
       (∀ index sp', calculate_some_life_history_1 index sp = Ok sp' → pb_base sp' = g) ∧
       (∀ (p : population) sp', evaluate_years p sp = Ok sp' → pb_base sp' = g)).
Proof.
  assert (2 ≤ vec_size jagged_table) as Hrows by (by vm_compute).
  split; [exact Hrows|]. exact (seasons_max_is_maximum 2 jagged_table 1 0 Hrows).
Defined.

(** ** The report of a subpopulation (claim C5) *)

Lemma jagged_subpopulation_constructed :
  subpopulation_variable 2 jagged_table 1 0 = Ok (jagged_subpopulation, 1).
Proof. reflexivity. Qed.

Lemma finalize_ages_real (sp : subpopulation) y s k out out' :
  y < nyears_ sp → get_seasons sp y = Ok k → s < k →
  finalize_ages sp y s out = Ok out' →
  Forall (real_cell sp) out → Forall (real_cell sp) out'.
Proof.
  intros Hy Hk Hs Hrun Hout.
  apply (for_size_t_inv (λ _, Forall (real_cell sp))) in Hrun; [done..|].
  intros a t t' Ha Ht (v & Hv & [= <-])%bind_ok.
  apply Forall_app. split; [done|]. apply Forall_singleton.
  split; [done|]. split; [by exists k|]. done.
Qed.

Lemma finalize_seasons_real (sp : subpopulation) y out out' :
  y < nyears_ sp →
  finalize_seasons sp y out = Ok out' →
  Forall (real_cell sp) out → Forall (real_cell sp) out'.
Proof.
  unfold finalize_seasons. intros Hy (k & Hk & Hrun)%bind_ok Hout.
  apply (for_size_t_inv (λ _, Forall (real_cell sp))) in Hrun; [done..|].
  intros s t t' Hs Ht Hb. by eapply finalize_ages_real.
Qed.

Lemma finalize_real (sp : subpopulation) out :
  finalize sp = Ok out → Forall (real_cell sp) out.
Proof.
  intros Hrun.
  apply (for_size_t_inv (λ _, Forall (real_cell sp))) in Hrun; [done..|].
  intros y t t' Hy Ht Hb. by eapply finalize_seasons_real.
Qed.

(** C5.  Every record (year, season, age, value) that [finalize] yields for
    a subpopulation, on a fixed or a variable grid, has
    [season < seasonsInYear(year)]: no record lies in the padding range
    between the seasons of its year and [maxSeasonCount]. *)
Theorem finalize_skips_padding (sp : subpopulation) (out : list cell) (c : cell) :
  finalize sp = Ok out → c ∈ out →
  ∃ k, get_seasons sp (cell_year c) = Ok k ∧ cell_season c < k ∧
       ¬ (k ≤ cell_season c < seasons_max_ sp).
Proof.
  intros Hrun Hc. apply finalize_real in Hrun.
  rewrite Forall_forall in Hrun. destruct (Hrun c Hc) as (_ & (k & Hk & Hlt) & _).
  exists k. split; [done|]. split; [done|]. lia.
Qed.

Lemma finalize_skips_padding_witness :
  finalize jagged_subpopulation =
    Ok [ {| cell_year := 0; cell_season := 0; cell_age := 0; cell_value := 0 |};
         {| cell_year := 1; cell_season := 0; cell_age := 0; cell_value := 0 |};
         {| cell_year := 1; cell_season := 1; cell_age := 0; cell_value := 0 |};
         {| cell_year := 1; cell_season := 2; cell_age := 0; cell_value := 0 |} ] ∧
  ∃ k, get_seasons jagged_subpopulation 0 = Ok k ∧ 0 < k ∧
       ¬ (k ≤ 0 < seasons_max_ jagged_subpopulation).
Proof.
  split; [reflexivity|].
  exact (finalize_skips_padding jagged_subpopulation _
           {| cell_year := 0; cell_season := 0; cell_age := 0; cell_value := 0 |}
           eq_refl (list_elem_of_here _ _)).
Defined.

(** ** Scenario A (claim C6) *)

(** C6.  A population on the fixed grid with 2 years, 2 seasons and 2 ages,
    partitioned with one sex and one area and then evaluated, has a single
    subpopulation, and the report of that subpopulation is exactly the
    records (0,0,0,0), (0,0,1,1), (0,1,0,2), (0,1,1,3), (1,0,0,4),
    (1,0,1,5), (1,1,0,6), (1,1,1,7), in this order: the cells in
    lexicographic (year, season, age) order, each with its folded offset as
    value.  This holds for every age-class list, every area and every value
    of the identifier counter. *)
Theorem scenario_A_report (ages0 : list float) (a : area) (id_g : N) :
  ∃ p0 id1 p1 id2 p2 sp,
    population_fixed 2 2 2 ages0 id_g = Ok (p0, id1) ∧
    initialize_subpopulations 1 [a] p0 id1 = Ok (p1, id2) ∧
    evaulate_subpopulations p1 = Ok p2 ∧
    subpopulation_ p2 = {[ 0 := [sp] ]} ∧
    area_ sp = Some a ∧
    finalize sp =
      Ok [ {| cell_year := 0; cell_season := 0; cell_age := 0; cell_value := 0 |};
           {| cell_year := 0; cell_season := 0; cell_age := 1; cell_value := 1 |};
           {| cell_year := 0; cell_season := 1; cell_age := 0; cell_value := 2 |};
           {| cell_year := 0; cell_season := 1; cell_age := 1; cell_value := 3 |};
           {| cell_year := 1; cell_season := 0; cell_age := 0; cell_value := 4 |};
           {| cell_year := 1; cell_season := 0; cell_age := 1; cell_value := 5 |};
           {| cell_year := 1; cell_season := 1; cell_age := 0; cell_value := 6 |};
           {| cell_year := 1; cell_season := 1; cell_age := 1; cell_value := 7 |} ].
Proof.
  eexists _, _, _, _, _, _.
  do 5 (split; [vm_compute; reflexivity|]). vm_compute. reflexivity.
Qed.

(** ** Partitioning (claim C1) *)

Lemma sub_pops_of_insert p m i l i' :
  sub_pops_of (set_subpopulations (<[i := l]> m) p) i' =
  if decide (i = i') then l else default [] (m !! i').
Proof.
  unfold sub_pops_of. simpl. rewrite lookup_insert. by destruct (decide (i = i')).
Qed.

Lemma new_population_empty p i : new_population p → sub_pops_of p i = [].
Proof.
  unfold population_variable, population_fixed.
  intros [(ny & off & na & g & g' & Hp)|(ny & ns & na & ag & g & g' & Hp)];
    apply bind_ok in Hp as ([pb g1] & _ & [= <- _]); done.
Qed.

(** The inner loop of [initialize_subpopulations], over the area positions,
    for the sex [i]: it appends one subpopulation per area to the vector of
    sex [i], each bound to [areas_[i]]. *)
Lemma initialize_areas_loop i (q : population) id_g q' id_g' :
  for_int (vec_size (areas_ q)) (initialize_one i) (q, id_g) = Ok (q', id_g') →
  same_frame q q' ∧
  (∀ i', i' ≠ i → sub_pops_of q' i' = sub_pops_of q i') ∧
  ∃ sps, sub_pops_of q' i = sub_pops_of q i ++ sps ∧
         vec_size sps = vec_size (areas_ q) ∧
         Forall (λ sp, ∃ a, vec_get (areas_ q) i = Ok a ∧ made_for q a sp) sps.
Proof.
  set (P := λ (j : N) (st : population * N),
    same_frame q st.1 ∧
    (∀ i', i' ≠ i → sub_pops_of st.1 i' = sub_pops_of q i') ∧
    ∃ sps, sub_pops_of st.1 i = sub_pops_of q i ++ sps ∧
           vec_size sps = j ∧
           Forall (λ sp, ∃ a, vec_get (areas_ q) i = Ok a ∧ made_for q a sp) sps).
  intros Hrun. apply (for_int_inv P) in Hrun as [_ HP]; [done| |].
  - split; [done|]. split; [done|]. exists []. by rewrite app_nil_r.
  - intros j [t g] [t' g'] _ ((Hb & Ha & Hn) & Hother & sps & Hi & Hlen & Hall).
    intros (sp & a & Hsp & Hget & ->)%initialize_one_ok.
    unfold P. cbn [fst] in *.
    split; [done|]. split.
    + intros i' Hi'. rewrite sub_pops_of_insert.
      destruct (decide (i = i')) as [->|_]; [done|]. by apply Hother.
    + exists (sps ++ [set_area a sp]). rewrite sub_pops_of_insert.
      destruct (decide (i = i)) as [_|]; [|done]. rewrite Hi, <- app_assoc.
      split; [done|]. split.
      * unfold vec_size in *. rewrite length_app. simpl. lia.
      * apply Forall_app. split; [done|]. apply Forall_singleton.
        exists a. rewrite <- Ha. split; [done|].
        exists sp, g, g'. by rewrite <- Hb.
Qed.

(** The whole of [initialize_subpopulations]: for every sex below [nsexes]
    the vector of that sex grows by one subpopulation per area, all of them
    bound to the area at the position of the sex, [areas[i]]; other keys of
    the map are untouched. *)
Lemma initialize_subpopulations_result nsexes areas (p : population) id_g p' id_g' :
  initialize_subpopulations nsexes areas p id_g = Ok (p', id_g') →
  ∀ i,
    (nsexes ≤ i → sub_pops_of p' i = sub_pops_of p i) ∧
    (i < nsexes →
       ∃ sps, sub_pops_of p' i = sub_pops_of p i ++ sps ∧
              vec_size sps = vec_size areas ∧
              Forall (λ sp, ∃ a, vec_get areas i = Ok a ∧ made_for p a sp) sps).
Proof.
  unfold initialize_subpopulations.
  set (p1 := {| pop_base := pop_base p; areas_ := areas;
                subpopulation_ := subpopulation_ p; nsexes_ := Some nsexes |}).
  set (P := λ (n : N) (st : population * N),
    same_frame p1 st.1 ∧
    ∀ i, (n ≤ i → sub_pops_of st.1 i = sub_pops_of p i) ∧
         (i < n →
            ∃ sps, sub_pops_of st.1 i = sub_pops_of p i ++ sps ∧
                   vec_size sps = vec_size areas ∧
                   Forall (λ sp, ∃ a, vec_get areas i = Ok a ∧ made_for p a sp) sps)).
  intros Hrun. apply (for_int_inv P) in Hrun as [_ [_ HP]]; [done| |].
  - split; [done|]. intros i. split; [done|lia].
  - intros n [t g] [t' g'] _ [Hframe Hsex] Hin. simpl in Hin.
    apply initialize_areas_loop in Hin as (Hframe' & Hother & sps & Hn & Hlen & Hall).
    destruct Hframe as (Hb & Ha & Hs), Hframe' as (Hb' & Ha' & Hs').
    unfold P. cbn [fst] in *. change (areas_ p1) with areas in Ha.
    change (pop_base p1) with (pop_base p) in Hb.
    split.
    { unfold same_frame. rewrite Hb', Ha', Hs', Hb, Ha, Hs. done. }
    intros i. destruct (decide (i = n)) as [->|Hne].
    + split; [intros; lia|]. intros _. exists sps.
      destruct (Hsex n) as [Hsame _]. rewrite Hn, Hsame by lia.
      split; [done|]. split; [by rewrite Hlen, Ha|].
      eapply Forall_impl; [done|]. intros sp (a & Hget & sp0 & g0 & g0' & Hsp & ->).
      exists a. rewrite <- Ha. split; [done|]. exists sp0, g0, g0'.
      by rewrite Hb in Hsp.
    + rewrite Hother by done. destruct (Hsex i) as [Hge Hlt].
      split; [intros; apply Hge; lia|intros; apply Hlt; lia].
Qed.

(** After partitioning a new population, the vector of every sex [i] below
    [nsexes] has one subpopulation per area, and the subpopulation at every
    position [j] is bound to [areas[i]], the area at the position of the
    sex. *)
Lemma partition_binds_by_sex nsexes areas (p : population) id_g p' id_g' :
  new_population p →
  initialize_subpopulations nsexes areas p id_g = Ok (p', id_g') →
  ∀ i, i < nsexes →
    vec_size (sub_pops_of p' i) = vec_size areas ∧
    ∀ j sp, sub_pops_of p' i !! j = Some sp →
      ∃ a, areas !! N.to_nat i = Some a ∧ area_ sp = Some a.
Proof.
  intros Hnew Hrun i Hi.
  destruct (initialize_subpopulations_result _ _ _ _ _ _ Hrun i) as [_ Hlt].
  destruct (Hlt Hi) as (sps & Hsps & Hlen & Hall).
  rewrite (new_population_empty p i Hnew) in Hsps. simpl in Hsps. rewrite Hsps.
  split; [done|]. intros j sp Hj.
  rewrite Forall_forall in Hall.
  destruct (Hall sp) as (a & Ha & sp0 & g & g' & _ & ->).
  { apply list_elem_of_lookup. by exists j. }
  exists a. split; [by apply vec_get_ok|done].
Qed.

(** C1, the code at a failing input.  Three areas are constructed, then a
    population with one year, one season and one age class, which is
    partitioned with two sexes and the three areas.  Each sex gets three
    subpopulations, six in total, but the three of sex 0 are all bound to
    the first area and the three of sex 1 all to the second; the
    subpopulation at area position 1 of sex 0 is not bound to the second
    area, and no subpopulation is bound to the third. *)
Theorem partition_binds_wrong_area :
  ∃ a0 a1 a2 id1 id2 id3 p0 id4 p id5,
    area_fixed 1 1 1 0 = Ok (a0, id1) ∧
    area_fixed 1 1 1 id1 = Ok (a1, id2) ∧
    area_fixed 1 1 1 id2 = Ok (a2, id3) ∧
    population_fixed 1 1 1 [1%float] id3 = Ok (p0, id4) ∧
    initialize_subpopulations 2 [a0; a1; a2] p0 id4 = Ok (p, id5) ∧
    a0 ≠ a1 ∧ a0 ≠ a2 ∧ a1 ≠ a2 ∧
    area_ <$> sub_pops_of p 0 = [Some a0; Some a0; Some a0] ∧
    area_ <$> sub_pops_of p 1 = [Some a1; Some a1; Some a1] ∧
    (area_ <$> sub_pops_of p 0) !! 1%nat ≠ Some ([a0; a1; a2] !! 1%nat).
Proof.
  eexists _, _, _, _, _, _, _, _, _, _.
  do 5 (split; [vm_compute; reflexivity|]).
  do 3 (split; [by intros [=]|]).
  split; [vm_compute; reflexivity|]. split; [vm_compute; reflexivity|].
  by intros [=].
Qed.

(** ** Evaluation stays inside the arrays (claim C9) *)

Lemma new_population_grid (p : population) :
  new_population p → variable_grid p ∨ fixed_grid p.
Proof.
  unfold population_variable, population_fixed, population_base_variable,
    population_base_fixed.
  intros [(ny & off & na & g & g' & Hp)|(ny & ns & na & ag & g & g' & Hp)];
    apply bind_ok in Hp as ([pb g1] & ([b g2] & Hb & [= <- <-])%bind_ok & [= <- <-]).
  - left. by exists ny, off, na, g, g2.
  - right. by exists ny, ns, na, g, g2.
Qed.

Lemma grid_seasons_le_max g y k :
  variable_grid g ∨ fixed_grid g →
  y < nyears_ g → get_seasons g y = Ok k → k ≤ seasons_max_ g.
Proof.
  intros [Hv|Hf] Hy Hk.
  - destruct (variable_grid_max g Hv) as (Hle & _).
    destruct (Hle y Hy) as (k' & Hk' & Hmax). rewrite Hk in Hk'.
    by injection Hk' as <-.
  - destruct (fixed_grid_rows g Hf) as (_ & Hrows).
    rewrite (Hrows y Hy) in Hk. injection Hk as <-. lia.
Qed.

(** Running the maximum loop again on a constructed grid gives, whenever the
    grid has a year, the stored [seasons_max_]. *)
Lemma grid_max_loop g m :
  variable_grid g ∨ fixed_grid g →
  for_size_t (nyears_ g) (max_season_step (season_offsets_ g)) 0 = Ok m →
  nyears_ g * m = nyears_ g * seasons_max_ g.
Proof.
  intros [(ny & off & na & i & i' & Hg)|Hf] Hm.
  - apply model_base_variable_ok in Hg as (Hloop & <- & _ & _ & <- & _).
    rewrite Hloop in Hm. by injection Hm as <-.
  - destruct (decide (nyears_ g = 0)) as [->|Hpos]; [done|].
    apply max_season_loop in Hm as (_ & _ & Hex & _).
    destruct Hex as (y & row & Hy & Hrow & <-); [lia|].
    destruct (fixed_grid_rows g Hf) as (_ & Hrows).
    pose proof (Hrows y Hy) as Hs. apply get_seasons_ok in Hs as (row' & Hrow' & ->).
    by simplify_eq.
Qed.

Lemma derived_size_wrap b :
  derived_size b = SizeT.wrap (nyears_ b * seasons_max_ b * nages_ b).
Proof. unfold derived_size, SizeT.mul. by rewrite wrap_mul_l. Qed.

(** The array of a subpopulation made by the partitioning step has the size
    of the population's rectangle, computed in [size_t]. *)
Lemma made_for_size (p : population) a sp :
  variable_grid p ∨ fixed_grid p →
  made_for p a sp →
  vec_size (some_derived_quantities sp) = derived_size p.
Proof.
  intros Hgrid (sp0 & g & g' & Hsp & ->).
  unfold subpopulation_variable, population_base_variable in Hsp.
  apply bind_ok in Hsp as ([pb g1] & ([b g2] & Hb & [= <- <-])%bind_ok & [= <- <-]).
  simpl. unfold vec_size. rewrite length_replicate, N2Nat.id.
  apply model_base_variable_ok in Hb as (Hloop & Hny & _ & Hna & _).
  apply (grid_max_loop _ _ Hgrid) in Hloop.
  rewrite !derived_size_wrap, Hny, Hna. by rewrite Hloop.
Qed.

Lemma visited_in_rectangle (p : population) y s a :
  variable_grid p ∨ fixed_grid p →
  visited p y s a →
  y < nyears_ p ∧ s < seasons_max_ p ∧ a < nages_ p.
Proof.
  intros Hgrid (Hy & (k & Hk & Hs) & Ha).
  pose proof (grid_seasons_le_max _ _ _ Hgrid Hy Hk). lia.
Qed.

Lemma evaluate_ages_total (p : population) y s sp :
  (∀ a, a < nages_ p → get_index p y s a < vec_size (some_derived_quantities sp)) →
  ∃ sp', evaluate_ages p y s sp = Ok sp' ∧ same_shape sp sp'.
Proof.
  intros Hin. apply (for_size_t_total (λ _ t, same_shape sp t)); [done|].
  intros a t Ha Ht. eexists. split.
  - apply calculate_ok. split; [|done]. destruct Ht as (_ & _ & ->). by apply Hin.
  - eapply same_shape_trans; [done|]. repeat split. simpl. unfold vec_size.
    by rewrite length_insert.
Qed.

Lemma evaluate_seasons_total (p : population) y sp :
  y < nyears_ p →
  is_ok (get_seasons p y) →
  in_bounds p sp →
  ∃ sp', evaluate_seasons p y sp = Ok sp' ∧ same_shape sp sp'.
Proof.
  intros Hy [k Hk] Hin. unfold evaluate_seasons. rewrite Hk. simpl.
  apply (for_size_t_total (λ _ t, same_shape sp t)); [done|].
  intros s t Hs Ht. destruct (evaluate_ages_total p y s t) as (t' & Hrun & Ht').
  - intros a Ha. destruct Ht as (_ & _ & ->). apply Hin.
    split; [done|]. split; [by exists k|done].
  - exists t'. split; [done|]. by eapply same_shape_trans.
Qed.

Lemma evaluate_years_total (p : population) sp :
  (∀ y, y < nyears_ p → is_ok (get_seasons p y)) →
  in_bounds p sp →
  ∃ sp', evaluate_years p sp = Ok sp' ∧ same_shape sp sp'.
Proof.
  intros Hrows Hin. apply (for_size_t_total (λ _ t, same_shape sp t)); [done|].
  intros y t Hy Ht. destruct (evaluate_seasons_total p y t) as (t' & Hrun & Ht').
  - done.
  - by apply Hrows.
  - intros y' s a Hv. destruct Ht as (_ & _ & ->). by apply Hin.
  - exists t'. split; [done|]. by eapply same_shape_trans.
Qed.

Lemma for_each_total {A} (f : A → result A) (R : A → A → Prop) v :
  (∀ a, a ∈ v → ∃ a', f a = Ok a' ∧ R a a') →
  ∃ v', for_each f v = Ok v' ∧ Forall2 R v v'.
Proof.
  induction v as [|a v IH]; intros Hf; simpl.
  - exists []. split; [done|constructor].
  - destruct (Hf a) as (a' & Ha & HR); [by left|].
    destruct IH as (v' & Hv & HRv); [intros b Hb; apply Hf; by right|].
    exists (a' :: v'). rewrite Ha, Hv. split; [done|by constructor].
Qed.

Lemma evaluate_years_base (t p : population) :
  pop_base t = pop_base p → evaluate_years t = evaluate_years p.
Proof.
  intros Hb. unfold evaluate_years, evaluate_seasons, evaluate_ages.
  by rewrite Hb.
Qed.

(** Evaluation returns when every subpopulation held by the population has
    room for every computed index. *)
Lemma evaulate_subpopulations_total (p : population) nsexes :
  nsexes_ p = Some nsexes →
  (∀ y, y < nyears_ p → is_ok (get_seasons p y)) →
  (∀ i sp, sp ∈ sub_pops_of p i → in_bounds p sp) →
  ∃ p', evaulate_subpopulations p = Ok p' ∧
        ∀ i sp, sp ∈ sub_pops_of p' i → in_bounds p sp.
Proof.
  intros Hn Hrows Hall. unfold evaulate_subpopulations. rewrite Hn.
  set (P := λ (_ : N) (t : population),
    same_frame p t ∧ ∀ i sp, sp ∈ sub_pops_of t i → in_bounds p sp).
  destruct (for_size_t_total P
    (λ i t, sub_pops ← for_each (evaluate_years t) (sub_pops_of t i);
            Ok (set_subpopulations (<[i := sub_pops]> (subpopulation_ t)) t))
    nsexes p) as (p' & Hrun & _ & Hp'); [done| |by exists p'].
  intros i t _ [(Hb & Ha & Hs) Ht].
  destruct (for_each_total (evaluate_years t) same_shape (sub_pops_of t i))
    as (sps & Hsps & Hshape).
  { intros sp Hsp. rewrite (evaluate_years_base t p Hb).
    apply evaluate_years_total; [done|]. by apply (Ht i). }
  eexists. rewrite Hsps. split; [done|]. split; [done|].
  intros i' sp'. rewrite sub_pops_of_insert.
  destruct (decide (i = i')) as [<-|_]; [|apply Ht].
  intros Hsp'. apply list_elem_of_lookup in Hsp' as [j Hj].
  destruct (Forall2_lookup_r _ _ _ _ _ Hshape Hj) as (sp & Hsp & (_ & _ & Hsize)).
  intros y s a Hv. rewrite Hsize. apply (Ht i sp); [|done].
  apply list_elem_of_lookup. by exists j.
Qed.

(** C9, counterexample.  A population with 2 years of one season each and
    [2^63] ages has a rectangle of [2^64] cells; the size
    [nyears * seasons_max_ * nages] of the array of its subpopulation is
    computed in [size_t] and wraps around to 0.  The first cell that
    evaluation visits, (0, 0, 0), has index 0, which is not below the
    allocated size, and the cell update writes past the end of the array. *)
Lemma evaluation_writes_out_of_bounds :
  ∃ a id1 p0 id2 p id3 sp,
    area_fixed 1 1 1 0 = Ok (a, id1) ∧
    population_variable 2 [[1%float]; [1%float]] (2 ^ 63) id1 = Ok (p0, id2) ∧
    initialize_subpopulations 1 [a] p0 id2 = Ok (p, id3) ∧
    sub_pops_of p 0 = [sp] ∧
    visited p 0 0 0 ∧
    nyears_ p * seasons_max_ p * nages_ p = 2 ^ 64 ∧
    vec_size (some_derived_quantities sp) = 0 ∧
    ¬ get_index p 0 0 0 < vec_size (some_derived_quantities sp) ∧
    evaulate_subpopulations p = Err OutOfBounds.
Proof.
  eexists _, _, _, _, _, _, _.
  do 4 (split; [vm_compute; reflexivity|]).
  split. { split; [by vm_compute|]. split; [|by vm_compute]. exists 1. by vm_compute. }
  split; [by vm_compute|]. split; [by vm_compute|]. split; [by vm_compute|].
  lazy. reflexivity.
Qed.

Lemma grid_rows g :
  variable_grid g ∨ fixed_grid g →
  ∀ y, y < nyears_ g → is_ok (get_seasons g y).
Proof.
  intros Hg y Hy.
  assert (nyears_ g ≤ vec_size (season_offsets_ g)) as Hrows.
  { destruct Hg as [Hv|Hf]; [by apply variable_grid_rows|].
    apply fixed_grid_rows in Hf as [-> _]. lia. }
  destruct (vec_get_lt (season_offsets_ g) y) as (row & _ & Hrow); [lia|].
  exists (vec_size row). apply get_seasons_ok. by exists row.
Qed.

(** What partitioning a new population establishes for evaluation. *)
Lemma partition_in_bounds (p0 : population) nsexes areas id_g p id_g' :
  new_population p0 →
  initialize_subpopulations nsexes areas p0 id_g = Ok (p, id_g') →
  (variable_grid p ∨ fixed_grid p) ∧
  nsexes_ p = Some nsexes ∧
  ∀ i sp, sp ∈ sub_pops_of p i →
    vec_size (some_derived_quantities sp) = derived_size p.
Proof.
  intros Hnew Hrun.
  pose proof (new_population_grid p0 Hnew) as Hgrid.
  destruct (initialize_subpopulations_frame _ _ _ _ _ _ Hrun) as (Hb & _ & Hn).
  rewrite Hb. split; [done|]. split; [done|]. intros i sp Hsp.
  destruct (initialize_subpopulations_result _ _ _ _ _ _ Hrun i) as [Hge Hlt].
  rewrite (new_population_empty p0 i Hnew) in Hge, Hlt.
  destruct (decide (i < nsexes)) as [Hi|Hi].
  - destruct (Hlt Hi) as (sps & Hsps & _ & Hall). simpl in Hsps.
    rewrite Hsps in Hsp. rewrite Forall_forall in Hall.
    destruct (Hall sp Hsp) as (a & _ & Hmade). by eapply made_for_size.
  - rewrite Hge in Hsp by lia. by apply not_elem_of_nil in Hsp.
Qed.

(** C9, amended.  For every population whose subpopulations were created
    by its own partitioning step and whose rectangle
    [yearCount * maxSeasonCount * ageCount] is below [2^64]: the array of
    every subpopulation has exactly that many cells, every index that
    evaluation computes, [index3(y, s, a)] with [y < yearCount],
    [s < seasonsInYear(y)] and [a < ageCount], is strictly below that size,
    and evaluation returns without writing outside an array. *)
Theorem evaluation_in_bounds (p0 : population) nsexes areas id_g p id_g' :
  new_population p0 →
  initialize_subpopulations nsexes areas p0 id_g = Ok (p, id_g') →
  nyears_ p * seasons_max_ p * nages_ p < SizeT.modulus →
  (∀ i sp, sp ∈ sub_pops_of p i →
     vec_size (some_derived_quantities sp) =
       nyears_ p * seasons_max_ p * nages_ p ∧
     ∀ y s a, visited p y s a →
       get_index p y s a = y * seasons_max_ p * nages_ p + s * nages_ p + a ∧
       get_index p y s a < vec_size (some_derived_quantities sp)) ∧
  ∃ p', evaulate_subpopulations p = Ok p'.
Proof.
  intros Hnew Hrun Hfit.
  destruct (partition_in_bounds _ _ _ _ _ _ Hnew Hrun) as (Hgrid & Hn & Hsize).
  assert (∀ i sp, sp ∈ sub_pops_of p i →
     vec_size (some_derived_quantities sp) =
       nyears_ p * seasons_max_ p * nages_ p ∧
     ∀ y s a, visited p y s a →
       get_index p y s a = y * seasons_max_ p * nages_ p + s * nages_ p + a ∧
       get_index p y s a < vec_size (some_derived_quantities sp)) as Hall.
  { intros i sp Hsp.
    assert (vec_size (some_derived_quantities sp) =
            nyears_ p * seasons_max_ p * nages_ p) as Hlen.
    { rewrite (Hsize i sp Hsp), derived_size_wrap. by apply wrap_small. }
    split; [done|]. intros y s a Hv.
    destruct (visited_in_rectangle p y s a Hgrid Hv) as (Hy & Hs & Ha).
    rewrite get_index_exact by (done || lia). split; [done|].
    rewrite Hlen. by apply folded_lt_product. }
  split; [done|].
  destruct (evaulate_subpopulations_total p nsexes Hn) as (p' & Hp' & _).
  - by apply grid_rows.
  - intros i sp Hsp y s a Hv. by apply (Hall i sp Hsp).
  - by exists p'.
Qed.

Lemma unit_area_constructed : area_fixed 1 1 1 0 = Ok (unit_area, 1).
Proof. reflexivity. Qed.

Lemma evaluation_in_bounds_witness :
  ∃ p0 p id_g',
    population_variable 2 jagged_table 1 1 = Ok (p0, 2) ∧
    new_population p0 ∧
    initialize_subpopulations 1 [unit_area] p0 2 = Ok (p, id_g') ∧
    nyears_ p * seasons_max_ p * nages_ p < SizeT.modulus ∧
    (∀ i sp, sp ∈ sub_pops_of p i →
       vec_size (some_derived_quantities sp) =
         nyears_ p * seasons_max_ p * nages_ p ∧
       ∀ y s a, visited p y s a →
         get_index p y s a = y * seasons_max_ p * nages_ p + s * nages_ p + a ∧
         get_index p y s a < vec_size (some_derived_quantities sp)) ∧
    ∃ p', evaulate_subpopulations p = Ok p'.
Proof.
  eexists _, _, _.
  split; [vm_compute; reflexivity|].
  match goal with |- new_population ?q ∧ _ =>
    assert (new_population q) as Hnew
      by (left; exists 2, jagged_table, 1, 1, 2; vm_compute; reflexivity)
  end.
  split; [exact Hnew|].
  match goal with |- ?init = _ ∧ _ =>
    assert (init = Ok (_, _)) as Hrun by (vm_compute; reflexivity)
  end.
  split; [exact Hrun|].
  match goal with |- ?fit ∧ _ => assert fit as Hfit by (by vm_compute) end.
  split; [exact Hfit|].
  exact (evaluation_in_bounds _ _ _ _ _ _ Hnew Hrun Hfit).
Defined.

(** ** When [finalize] returns *)

(** [finalize] returns for a subpopulation on a constructed grid whose array
    has the size its constructor gives it, when the rectangle fits
    [size_t]: every read is inside the array. *)
Lemma finalize_total (sp : subpopulation) :
  variable_grid sp ∨ fixed_grid sp →
  vec_size (some_derived_quantities sp) = derived_size sp →
  nyears_ sp * seasons_max_ sp * nages_ sp < SizeT.modulus →
  ∃ out, finalize sp = Ok out.
Proof.
  intros Hgrid Hsize Hfit.
  rewrite derived_size_wrap, wrap_small in Hsize by done.
  destruct (for_size_t_total (λ _ _, True) (finalize_seasons sp) (nyears_ sp) [])
    as (out & Hout & _); [done| |by exists out].
  intros y t Hy _. unfold finalize_seasons.
  assert (∃ k, get_seasons sp y = Ok k) as [k Hk] by (by apply grid_rows).
  rewrite Hk. simpl.
  destruct (for_size_t_total (λ _ _, True) (finalize_ages sp y) k t)
    as (t' & Ht' & _); [done| |by exists t'].
  intros s u Hs _.
  destruct (for_size_t_total (λ _ _, True)
    (λ a out, v ← vec_get (some_derived_quantities sp) (get_index sp y s a);
              Ok (out ++ [{| cell_year := y; cell_season := s; cell_age := a;
                             cell_value := v |}]))
    (nages_ sp) u) as (u' & Hu' & _); [done| |by exists u'].
  intros a w Ha _.
  destruct (vec_get_lt (some_derived_quantities sp) (get_index sp y s a))
    as (v & Hv & _).
  - rewrite Hsize. assert (s < seasons_max_ sp) as Hsm.
    { pose proof (grid_seasons_le_max _ _ _ Hgrid Hy Hk). lia. }
    rewrite get_index_exact by (done || lia). by apply folded_lt_product.
  - rewrite Hv. by eexists.
Qed.

(** ** fims_math.hpp: [dlnorm] and [gamma] (claims C10 and C8) *)

Section MathProperties.

Local Open Scope float_scope.

(** A [double] that is at most zero is not above zero. *)
Lemma leb_zero_not_pos (x : float) : (x <=? 0) = true → (0 <? x) = false.
Proof.
  rewrite FloatAxioms.leb_spec, FloatAxioms.ltb_spec. unfold SFleb, SFltb.
  change (Prim2SF 0) with (S754_zero false).
  by destruct (Prim2SF x) as [[]|[]| |[] m e].
Qed.

Lemma pos_not_leb_zero (x : float) : (0 <? x) = true → (x <=? 0) = false.
Proof.
  intros Hpos. destruct (x <=? 0) eqn:Hle; [|done].
  apply leb_zero_not_pos in Hle. congruence.
Qed.

Variables exp log floor : float → float.
Variable pow : float → float → float.
Variable int_of_double : float → Z.
Variable libm_lgamma : float → float.

(** For an argument above zero [dlnorm] is the density formula, or its
    logarithm. *)
Lemma dlnorm_positive x meanLog sdLog ret_log :
  (0 <? x) = true →
  fims.dlnorm exp log pow x meanLog sdLog ret_log =
    let ret := (1 / (x * sdLog * pow (2 * fims.M_PI) 0.5)) *
               exp (-1 * ((log x - meanLog) * (log x - meanLog)) / (2 * sdLog)) in
    if ret_log then log ret else ret.
Proof. unfold fims.dlnorm. intros ->. by destruct ret_log. Qed.

(** C10.  For every input [x <= 0] and any mean, standard deviation and
    [ret_log] flag, [dlnorm] returns exactly 0; the density formula is
    evaluated only when [x > 0], so the result is 0 whenever [x > 0] does
    not hold. *)
Theorem dlnorm_nonpositive x meanLog sdLog ret_log :
  (x <=? 0) = true →
  fims.dlnorm exp log pow x meanLog sdLog ret_log = 0 ∧
  ∀ x', (0 <? x') = false →
        fims.dlnorm exp log pow x' meanLog sdLog ret_log = 0.
Proof.
  intros Hle. assert (∀ x', (0 <? x') = false →
    fims.dlnorm exp log pow x' meanLog sdLog ret_log = 0) as Hzero.
  { intros x' Hx'. unfold fims.dlnorm. by rewrite Hx'. }
  split; [|done]. by apply Hzero, leb_zero_not_pos.
Qed.

(** From 12 on [lgamma] is the asymptotic series. *)
Lemma lgamma_large x :
  (x <=? 0) = false → (x <? 12) = false →
  fims.lgamma exp log floor int_of_double libm_lgamma x =
    Ok (fims.lgamma_series log x).
Proof. intros Hle Hlt. unfold fims.lgamma. by rewrite Hle, Hlt. Qed.

(** [gamma] returns a value for every argument that is not at most zero. *)
Lemma gamma_returns x :
  (x <=? 0) = false →
  ∃ v, fims.gamma exp floor int_of_double libm_lgamma x = Ok v.
Proof.
  intros Hle. unfold fims.gamma. rewrite Hle.
  destruct (x <? 0.001); [by eexists|].
  destruct (x <? 12); [by eexists|].
  destruct (171.624 <? x); by eexists.
Qed.

(** C8.  [gamma] fails with [std::invalid_argument] if and only if its
    input is at most zero; in particular [gamma(0)] fails, and every
    positive input returns a value without error.  The [lgamma] that
    [gamma] calls in its last interval is the C library's, which returns a
    number and does not throw. *)
Theorem gamma_domain_error x :
  (fims.gamma exp floor int_of_double libm_lgamma x = Err InvalidArgument
     ↔ (x <=? 0) = true) ∧
  fims.gamma exp floor int_of_double libm_lgamma 0 = Err InvalidArgument ∧
  ((0 <? x) = true →
     ∃ v, fims.gamma exp floor int_of_double libm_lgamma x = Ok v) ∧
  ((x <=? 0) = false →
     ∃ v, fims.gamma exp floor int_of_double libm_lgamma x = Ok v).
Proof.
  split; [|split; [done|split]].
  - destruct (x <=? 0) eqn:Hle.
    + split; [done|]. intros _. unfold fims.gamma. by rewrite Hle.
    + destruct (gamma_returns x Hle) as [v ->]. done.
  - intros Hpos. by apply gamma_returns, pos_not_leb_zero.
  - apply gamma_returns.
Qed.

End MathProperties.

Lemma dlnorm_nonpositive_witness :
  ((-1 <=? 0)%float = true) ∧
  fims.dlnorm (λ x, x) (λ x, x) (λ x _, x) (-1)%float 0%float 1%float false = 0%float ∧
  ∀ x', (0 <? x')%float = false →
        fims.dlnorm (λ x, x) (λ x, x) (λ x _, x) x' 0%float 1%float false = 0%float.
Proof.
  split; [reflexivity|].
  exact (dlnorm_nonpositive (λ x, x) (λ x, x) (λ x _, x) (-1)%float 0%float 1%float
           false eq_refl).
Defined.


(** * Further properties of the code *)

(** ** More loop rules *)

Section MoreLoopRules.

Context {S : Type}.
Implicit Types (body : N → S → result S).

(** A loop that fails has an iteration that fails with the same error. *)
Lemma for_loop_err body n i s e :
  for_loop n i body s = Err e →
  ∃ k t, i ≤ k < i + N.of_nat n ∧ body k t = Err e.
Proof.
  revert i s. induction n as [|n IH]; intros i s Hrun; simpl in Hrun; [done|].
  destruct (body i s) as [t|e'] eqn:Hb.
  - destruct (IH _ _ Hrun) as (k & u & Hk & Hu). exists k, u. split; [lia|done].
  - injection Hrun as ->. exists i, s. split; [lia|done].
Qed.

(** If the iterations before [j] succeed and iteration [j] fails in every
    state, the loop fails with the error of iteration [j]. *)
Lemma for_loop_fails_at body n i j s e :
  i ≤ j < i + N.of_nat n →
  (∀ k t, i ≤ k < j → ∃ t', body k t = Ok t') →
  (∀ t, body j t = Err e) →
  for_loop n i body s = Err e.
Proof.
  revert i s. induction n as [|n IH]; intros i s Hj Hbefore Hat; [lia|]. simpl.
  destruct (decide (i = j)) as [->|Hne]; [by rewrite Hat|].
  destruct (Hbefore i s) as [t ->]; [lia|].
  apply IH; [lia| |done]. intros k u Hk. apply Hbefore. lia.
Qed.

End MoreLoopRules.

(** Two loops whose bodies keep a relation between their states, and fail
    together with the same error, finish in related states or fail
    together. *)
Lemma for_loop_rel {S1 S2 : Type} (R : S1 → S2 → Prop)
    (body1 : N → S1 → result S1) (body2 : N → S2 → result S2) n i s1 s2 :
  R s1 s2 →
  (∀ k t1 t2, i ≤ k < i + N.of_nat n → R t1 t2 →
     match body1 k t1, body2 k t2 with
     | Ok u1, Ok u2 => R u1 u2
     | Err e1, Err e2 => e1 = e2
     | _, _ => False
     end) →
  match for_loop n i body1 s1, for_loop n i body2 s2 with
  | Ok u1, Ok u2 => R u1 u2
  | Err e1, Err e2 => e1 = e2
  | _, _ => False
  end.
Proof.
  revert i s1 s2. induction n as [|n IH]; intros i s1 s2 HR Hstep; simpl; [done|].
  specialize (Hstep i s1 s2 ltac:(lia) HR) as Hi.
  destruct (body1 i s1) as [t1|e1], (body2 i s2) as [t2|e2]; try done.
  apply IH; [done|]. intros k u1 u2 Hk. apply Hstep. lia.
Qed.

Lemma range_succ n : range (N.succ n) = range n ++ [n].
Proof.
  unfold range. rewrite N2Nat.inj_succ, seq_S, fmap_app. simpl.
  by rewrite N2Nat.id.
Qed.

Lemma range_0 : range 0 = [].
Proof. done. Qed.

Lemma elem_of_range n k : k ∈ range n ↔ k < n.
Proof.
  unfold range. rewrite list_elem_of_fmap. split.
  - intros (j & -> & Hj). apply list_elem_of_In, in_seq in Hj. lia.
  - intros Hk. exists (N.to_nat k). split; [lia|].
    apply list_elem_of_In, in_seq. lia.
Qed.

(** ** The folded index is injective *)

Lemma folded_injective M A y s a y' s' a' :
  s < M → a < A → s' < M → a' < A →
  y * M * A + s * A + a = y' * M * A + s' * A + a' →
  y = y' ∧ s = s' ∧ a = a'.
Proof.
  intros Hs Ha Hs' Ha' Heq.
  assert (s * A + a < M * A ∧ s' * A + a' < M * A) as [Hu Hu'].
  { split; (apply N.lt_le_trans with ((M - 1) * A + A); [|nia]).
    - assert (s * A ≤ (M - 1) * A) by (apply N.mul_le_mono_r; lia). lia.
    - assert (s' * A ≤ (M - 1) * A) by (apply N.mul_le_mono_r; lia). lia. }
  destruct (N.div_mod_unique (M * A) y y' (s * A + a) (s' * A + a'))
    as [Hy Hr]; [done|done|lia|].
  destruct (N.div_mod_unique A s s' a a') as [Hs0 Ha0]; [done|done|lia|].
  done.
Qed.

(** X1.  On a grid whose rectangle [yearCount * maxSeasonCount * ageCount]
    is at most [2^64], two cells of the rectangle with the same
    three-argument folded index are the same cell: distinct cells never
    share a position of the array. *)
Theorem get_index_injective (b : model_base) y s a y' s' a' :
  nyears_ b * seasons_max_ b * nages_ b ≤ SizeT.modulus →
  y < nyears_ b → s < seasons_max_ b → a < nages_ b →
  y' < nyears_ b → s' < seasons_max_ b → a' < nages_ b →
  get_index b y s a = get_index b y' s' a' →
  y = y' ∧ s = s' ∧ a = a'.
Proof.
  intros Hfit Hy Hs Ha Hy' Hs' Ha'.
  rewrite !get_index_exact by done. by apply folded_injective.
Qed.

Lemma get_index_injective_witness :
  nyears_ jagged_grid * seasons_max_ jagged_grid * nages_ jagged_grid ≤ SizeT.modulus ∧
  1 < nyears_ jagged_grid ∧ 2 < seasons_max_ jagged_grid ∧ 0 < nages_ jagged_grid ∧
  get_index jagged_grid 1 2 0 = get_index jagged_grid 1 2 0 ∧
  1 = 1 ∧ 2 = 2 ∧ 0 = 0.
Proof.
  assert (nyears_ jagged_grid * seasons_max_ jagged_grid * nages_ jagged_grid
          ≤ SizeT.modulus) as Hfit by (by vm_compute).
  assert (1 < nyears_ jagged_grid) as Hy by reflexivity.
  assert (2 < seasons_max_ jagged_grid) as Hs by reflexivity.
  assert (0 < nages_ jagged_grid) as Ha by reflexivity.
  do 4 (split; [done|]). split; [reflexivity|].
  exact (get_index_injective jagged_grid 1 2 0 1 2 0 Hfit Hy Hs Ha Hy Hs Ha eq_refl).
Defined.

(** ** Edge behaviour of the constructors *)

(** X2.  When the season-offset table has fewer rows than [nyears], the
    variable-season constructor reads the table past its end while looking
    for the longest row: it does not return a grid. *)
Theorem model_base_variable_short_table nyears offsets nages id_g :
  vec_size offsets < nyears →
  model_base_variable nyears offsets nages id_g = Err OutOfBounds.
Proof.
  intros Hshort. unfold model_base_variable. simpl.
  assert (for_size_t nyears (max_season_step offsets) 0 = Err OutOfBounds) as ->;
    [|done].
  apply (for_loop_fails_at _ _ _ (vec_size offsets)); [lia| |].
  - intros k t Hk. destruct (vec_get_lt offsets k) as (row & Hrow & _); [lia|].
    unfold max_season_step. rewrite Hrow. by eexists.
  - intros t. unfold max_season_step.
    by rewrite (proj1 (vec_get_ge offsets (vec_size offsets))).
Qed.

Lemma model_base_variable_short_table_witness :
  vec_size jagged_table < 3 ∧
  model_base_variable 3 jagged_table 1 0 = Err OutOfBounds.
Proof.
  assert (vec_size jagged_table < 3) as Hshort by reflexivity.
  split; [exact Hshort|].
  exact (model_base_variable_short_table 3 jagged_table 1 0 Hshort).
Defined.

Lemma fixed_season_row_lookup nseasons (s : N) :
  s < nseasons →
  fixed_season_row nseasons !! N.to_nat s =
    Some ((SizeT.to_double s + 1) / SizeT.to_double nseasons)%float.
Proof.
  intros Hs. unfold fixed_season_row. rewrite list_lookup_fmap.
  rewrite lookup_seq_lt by lia. simpl. by rewrite N2Nat.id.
Qed.

Lemma fixed_rows_loop_total nyears nseasons :
  nyears ≤ SizeT.INT_MAX → nseasons ≤ 2 ^ 53 →
  for_int nyears
    (λ i offs,
       if 2 ^ 53 <? nseasons then Err BadAlloc
       else row ← vec_get offs i;
            Ok (<[N.to_nat i := row ++ fixed_season_row nseasons]> offs))
    (replicate (N.to_nat nyears) []) =
  Ok (replicate (N.to_nat nyears) (fixed_season_row nseasons)).
Proof.
  intros Hny Hns.
  destruct (for_int_total (λ _ o, length o = N.to_nat nyears)
    (λ i offs,
       if 2 ^ 53 <? nseasons then Err BadAlloc
       else row ← vec_get offs i;
            Ok (<[N.to_nat i := row ++ fixed_season_row nseasons]> offs))
    nyears (replicate (N.to_nat nyears) [])) as (offs & Hrun & _).
  - done.
  - by rewrite length_replicate.
  - intros k t Hk Hlen. apply N.ltb_ge in Hns. rewrite Hns.
    destruct (vec_get_lt t k) as (row & -> & _); [unfold vec_size; lia|].
    eexists. split; [done|]. by rewrite length_insert.
  - rewrite Hrun. f_equal. by apply fixed_rows_loop in Hrun as [_ ->].
Qed.

(** X3.  For [nyears] up to [INT_MAX] and [nseasons] up to [2^53] the
    fixed-season constructor returns a grid with exactly [nyears] rows of
    season offsets; every year has [nseasons] seasons, which is also
    [seasons_max_], the offset of season [s] is [(s + 1) / nseasons], and
    asking for the seasons of a year at or beyond [nyears] reads the table
    past its end.  The constructor takes one identifier. *)
Theorem model_base_fixed_grid nyears nseasons nages id_g :
  nyears ≤ SizeT.INT_MAX → nseasons ≤ 2 ^ 53 →
  ∃ g, model_base_fixed nyears nseasons nages id_g = Ok (g, id_g ⊕ 1) ∧
       object_id g = id_g ∧
       nyears_ g = nyears ∧ nages_ g = nages ∧ seasons_max_ g = nseasons ∧
       vec_size (season_offsets_ g) = nyears ∧
       (∀ y, y < nyears → get_seasons g y = Ok nseasons) ∧
       (∀ y, nyears ≤ y → get_seasons g y = Err OutOfBounds) ∧
       (∀ y s row, y < nyears → s < nseasons →
          season_offsets_ g !! N.to_nat y = Some row →
          row !! N.to_nat s =
            Some ((SizeT.to_double s + 1) / SizeT.to_double nseasons)%float).
Proof.
  intros Hny Hns. eexists. split.
  { unfold model_base_fixed. simpl. by rewrite fixed_rows_loop_total. }
  simpl. do 4 (split; [done|]).
  assert (vec_size (replicate (N.to_nat nyears) (fixed_season_row nseasons)) = nyears)
    as Hrows by (unfold vec_size; rewrite length_replicate; lia).
  split; [done|]. split; [|split].
  - intros y Hy. apply get_seasons_ok. exists (fixed_season_row nseasons).
    split; [apply lookup_replicate_2; lia|by rewrite fixed_season_row_size].
  - intros y Hy. apply get_seasons_err. simpl. rewrite Hrows. done.
  - intros y s row Hy Hs [-> _]%lookup_replicate_1.
    by apply fixed_season_row_lookup.
Qed.

Lemma model_base_fixed_grid_witness :
  30 ≤ SizeT.INT_MAX ∧ 4 ≤ 2 ^ 53 ∧
  ∃ g, model_base_fixed 30 4 8 0 = Ok (g, 0 ⊕ 1) ∧
       object_id g = 0 ∧
       nyears_ g = 30 ∧ nages_ g = 8 ∧ seasons_max_ g = 4 ∧
       vec_size (season_offsets_ g) = 30 ∧
       (∀ y, y < 30 → get_seasons g y = Ok 4) ∧
       (∀ y, 30 ≤ y → get_seasons g y = Err OutOfBounds) ∧
       (∀ y s row, y < 30 → s < 4 →
          season_offsets_ g !! N.to_nat y = Some row →
          row !! N.to_nat s = Some ((SizeT.to_double s + 1) / SizeT.to_double 4)%float).
Proof.
  assert (30 ≤ SizeT.INT_MAX) as Hny by (by vm_compute).
  assert (4 ≤ 2 ^ 53) as Hns by (by vm_compute).
  split; [exact Hny|]. split; [exact Hns|].
  exact (model_base_fixed_grid 30 4 8 0 Hny Hns).
Defined.

(** ** Partitioning appends *)

Lemma made_for_fields (p : population) a (sp : subpopulation) :
  made_for p a sp →
  nyears_ sp = nyears_ p ∧ nages_ sp = nages_ p ∧
  season_offsets_ sp = season_offsets_ p ∧
  nseasons_ sp = None ∧ ages sp = [] ∧ area_ sp = Some a ∧
  some_derived_quantities sp = replicate (N.to_nat (derived_size sp)) 0%float ∧
  for_size_t (nyears_ p) (max_season_step (season_offsets_ p)) 0
    = Ok (seasons_max_ sp).
Proof.
  intros (sp0 & g & g' & Hsp & ->).
  unfold subpopulation_variable, population_base_variable in Hsp.
  apply bind_ok in Hsp as ([pb g1] & ([b g2] & Hb & [= <- <-])%bind_ok & [= <- <-]).
  apply model_base_variable_ok in Hb as (Hloop & Hny & Hns & Hna & Hoff & _).
  simpl. done.
Qed.

(** X4.  Partitioning keeps what is there and appends: the vector of every
    sex below [nsexes] grows by one subpopulation per area, the vectors of
    other keys are untouched, and the population keeps its grid; so
    partitioning a second time leaves twice as many subpopulations per sex.
    Every new subpopulation takes the years, the ages count and the season
    table of the population, is bound to an area, has an array of zeros of
    the size computed from its own grid, and has an empty age-class list:
    the age classes of the population are not handed on. *)
Theorem partition_appends nsexes areas (p : population) id_g p' id_g' :
  initialize_subpopulations nsexes areas p id_g = Ok (p', id_g') →
  pop_base p' = pop_base p ∧ areas_ p' = areas ∧ nsexes_ p' = Some nsexes ∧
  ∀ i,
    (nsexes ≤ i → sub_pops_of p' i = sub_pops_of p i) ∧
    (i < nsexes →
       ∃ sps : list subpopulation,
         sub_pops_of p' i = sub_pops_of p i ++ sps ∧
         vec_size sps = vec_size areas ∧
         ∀ sp : subpopulation, sp ∈ sps →
           nyears_ sp = nyears_ p ∧ nages_ sp = nages_ p ∧
           season_offsets_ sp = season_offsets_ p ∧
           ages sp = [] ∧ is_Some (area_ sp) ∧
           some_derived_quantities sp =
             replicate (N.to_nat (derived_size sp)) 0%float).
Proof.
  intros Hrun.
  destruct (initialize_subpopulations_frame _ _ _ _ _ _ Hrun) as (Hb & Ha & Hn).
  do 3 (split; [done|]). intros i.
  destruct (initialize_subpopulations_result _ _ _ _ _ _ Hrun i) as [Hge Hlt].
  split; [done|]. intros Hi. destruct (Hlt Hi) as (sps & Hsps & Hlen & Hall).
  exists sps. split; [done|]. split; [done|]. intros sp Hsp.
  rewrite Forall_forall in Hall. destruct (Hall sp Hsp) as (a & _ & Hmade).
  destruct (made_for_fields p a sp Hmade) as (? & ? & ? & _ & ? & Harea & ? & _).
  rewrite Harea. eauto 10.
Qed.

Lemma partition_appends_witness :
  ∃ p0 p1 p2 id1 id2,
    population_variable 2 jagged_table 1 1 = Ok (p0, 2) ∧
    initialize_subpopulations 1 [unit_area] p0 2 = Ok (p1, id1) ∧
    initialize_subpopulations 1 [unit_area] p1 id1 = Ok (p2, id2) ∧
    length (sub_pops_of p1 0) = 1%nat ∧ length (sub_pops_of p2 0) = 2%nat ∧
    pop_base p2 = pop_base p1 ∧ areas_ p2 = [unit_area] ∧ nsexes_ p2 = Some 1 ∧
    ∀ i,
      (1 ≤ i → sub_pops_of p2 i = sub_pops_of p1 i) ∧
      (i < 1 →
         ∃ sps : list subpopulation,
           sub_pops_of p2 i = sub_pops_of p1 i ++ sps ∧
           vec_size sps = vec_size [unit_area] ∧
           ∀ sp : subpopulation, sp ∈ sps →
             nyears_ sp = nyears_ p1 ∧ nages_ sp = nages_ p1 ∧
             season_offsets_ sp = season_offsets_ p1 ∧
             ages sp = [] ∧ is_Some (area_ sp) ∧
             some_derived_quantities sp =
               replicate (N.to_nat (derived_size sp)) 0%float).
Proof.
  eexists _, _, _, _, _.
  split; [vm_compute; reflexivity|]. split; [vm_compute; reflexivity|].
  match goal with |- ?init = _ ∧ _ =>
    assert (init = Ok (_, _)) as Hrun by (vm_compute; reflexivity)
  end.
  split; [exact Hrun|]. split; [reflexivity|]. split; [reflexivity|].
  exact (partition_appends _ _ _ _ _ _ Hrun).
Defined.

(** X5.  With at least one area and more sexes than areas, partitioning
    does not return: for the first sex index that is not a position of the
    area vector, the statement [sub_pop->area_ = this->areas_[i]] reads the
    vector past its end. *)
Theorem partition_more_sexes_than_areas nsexes areas (p : population) id_g :
  0 < vec_size areas → vec_size areas < nsexes →
  ∃ e, initialize_subpopulations nsexes areas p id_g = Err e.
Proof.
  intros Hne Hlt.
  destruct (initialize_subpopulations nsexes areas p id_g) as [[p' g']|e] eqn:Hrun;
    [|by exists e].
  destruct (initialize_subpopulations_result _ _ _ _ _ _ Hrun (vec_size areas))
    as [_ Hsex].
  destruct (Hsex Hlt) as (sps & _ & Hlen & Hall).
  destruct sps as [|sp sps]; [unfold vec_size in *; simpl in *; lia|].
  apply Forall_cons in Hall as [(a & Ha & _) _].
  by rewrite (proj1 (vec_get_ge areas (vec_size areas))) in Ha.
Qed.

Lemma partition_more_sexes_than_areas_witness :
  ∃ p0,
    population_variable 2 jagged_table 1 1 = Ok (p0, 2) ∧
    0 < vec_size [unit_area] ∧ vec_size [unit_area] < 2 ∧
    initialize_subpopulations 2 [unit_area] p0 2 = Err OutOfBounds ∧
    ∃ e, initialize_subpopulations 2 [unit_area] p0 2 = Err e.
Proof.
  eexists. split; [vm_compute; reflexivity|].
  assert (0 < vec_size [unit_area]) as Hne by reflexivity.
  assert (vec_size [unit_area] < 2) as Hlt by reflexivity.
  split; [exact Hne|]. split; [exact Hlt|]. split; [vm_compute; reflexivity|].
  exact (partition_more_sexes_than_areas 2 [unit_area] _ 2 Hne Hlt).
Defined.

(** ** What evaluation writes *)

Lemma calculate_writes index (sp sp' : subpopulation) :
  calculate_some_life_history_1 index sp = Ok sp' →
  holds_offset sp' index ∧
  (∀ k, holds_offset sp k → holds_offset sp' k) ∧
  (∀ k : nat, k ≠ N.to_nat index →
     some_derived_quantities sp' !! k = some_derived_quantities sp !! k).
Proof.
  intros [Hlt ->]%calculate_ok. unfold holds_offset, vec_size in *. simpl.
  split; [|split].
  - apply list_lookup_insert_eq. lia.
  - intros k Hk. destruct (decide (k = index)) as [->|Hne].
    + apply list_lookup_insert_eq. lia.
    + rewrite list_lookup_insert_ne by lia. done.
  - intros k Hk. by rewrite list_lookup_insert_ne.
Qed.

Lemma evaluate_ages_writes (p : population) y s n (t t' : subpopulation) :
  y < nyears_ p → get_seasons p y = Ok n → s < n →
  evaluate_ages p y s t = Ok t' →
  wrote p (λ y' s' a, y' = y ∧ s' = s ∧ a < nages_ p) t t'.
Proof.
  intros Hy Hn Hs Hrun.
  apply (for_size_t_inv
    (λ a u, wrote p (λ y' s' a', y' = y ∧ s' = s ∧ a' < a) t u)) in Hrun; [done| |].
  - split; [intros ? ? ? (_ & _ & ?); lia|done].
  - intros a u u' Ha (Hdone & Hmono & Hun) (Hnew & Hkeep & Hother)%calculate_writes.
    split; [|split].
    + intros y' s' a' (-> & -> & Ha'). destruct (decide (a' = a)) as [->|Hne];
        [done|]. apply Hkeep, Hdone. repeat split; lia.
    + intros k Hk. by apply Hkeep, Hmono.
    + intros k Hk. rewrite Hother; [by apply Hun|]. apply not_eq_sym, Hk.
      split; [done|]. split; [by exists n|done].
Qed.

Lemma evaluate_seasons_writes (p : population) y (t t' : subpopulation) :
  y < nyears_ p →
  evaluate_seasons p y t = Ok t' →
  wrote p (λ y' s a, y' = y ∧ visited p y s a) t t'.
Proof.
  unfold evaluate_seasons. intros Hy (n & Hn & Hrun)%bind_ok.
  apply (for_size_t_inv
    (λ s u, wrote p (λ y' s' a, y' = y ∧ s' < s ∧ a < nages_ p) t u)) in Hrun.
  - destruct Hrun as (Hdone & Hmono & Hun). split; [|done].
    intros y' s a (-> & _ & (n' & Hn' & Hs) & Ha). apply Hdone.
    rewrite Hn in Hn'. injection Hn' as <-. done.
  - split; [intros ? ? ? (_ & ? & _); lia|done].
  - intros s u u' Hs (Hdone & Hmono & Hun) Hb.
    destruct (evaluate_ages_writes p y s n u u' Hy Hn Hs Hb) as (Hnew & Hkeep & Hother).
    split; [|split].
    + intros y' s' a (-> & Hs' & Ha). destruct (decide (s' = s)) as [->|Hne].
      * by apply Hnew.
      * apply Hkeep, Hdone. repeat split; [lia|done].
    + intros k Hk. by apply Hkeep, Hmono.
    + intros k Hk. rewrite Hother by done. by apply Hun.
Qed.

Lemma evaluate_years_writes (p : population) (t t' : subpopulation) :
  evaluate_years p t = Ok t' → wrote p (visited p) t t'.
Proof.
  intros Hrun.
  apply (for_size_t_inv
    (λ y u, wrote p (λ y' s a, y' < y ∧ visited p y' s a) t u)) in Hrun.
  - destruct Hrun as (Hdone & Hmono & Hun). split; [|done].
    intros y s a Hv. apply Hdone. split; [apply Hv|done].
  - split; [intros ? ? ? (? & _); lia|done].
  - intros y u u' Hy (Hdone & Hmono & Hun) Hb.
    destruct (evaluate_seasons_writes p y u u' Hy Hb) as (Hnew & Hkeep & Hother).
    split; [|split].
    + intros y' s a (Hy' & Hv). destruct (decide (y' = y)) as [->|Hne].
      * by apply Hnew.
      * apply Hkeep, Hdone. split; [lia|done].
    + intros k Hk. by apply Hkeep, Hmono.
    + intros k Hk. rewrite Hother by done. by apply Hun.
Qed.

Lemma for_each_Forall2 {A} (f : A → result A) v v' :
  for_each f v = Ok v' ↔ Forall2 (λ a a', f a = Ok a') v v'.
Proof.
  revert v'. induction v as [|a v IH]; intros v'; simpl.
  - split; [by intros [= <-]; constructor|by intros ->%Forall2_nil_inv_l].
  - rewrite bind_ok. split.
    + intros (a' & Ha & (v'' & Hv & [= <-])%bind_ok). constructor; [done|].
      by apply IH.
    + intros (a' & v'' & Ha & Hv & ->)%Forall2_cons_inv_l. exists a'.
      split; [done|]. apply bind_ok. exists v''. split; [by apply IH|done].
Qed.

(** The whole of [evaulate_subpopulations]: the vectors of the sexes below
    [nsexes_] are evaluated element by element and stored back under their
    key; nothing else changes. *)
Lemma evaulate_subpopulations_result (p p' : population) :
  evaulate_subpopulations p = Ok p' →
  ∃ n, nsexes_ p = Some n ∧ same_frame p p' ∧
    ∀ i, (n ≤ i → sub_pops_of p' i = sub_pops_of p i) ∧
         (i < n →
            Forall2 (λ sp sp', evaluate_years p sp = Ok sp')
              (sub_pops_of p i) (sub_pops_of p' i) ∧
            subpopulation_ p' !! i = Some (sub_pops_of p' i)).
Proof.
  unfold evaulate_subpopulations. destruct (nsexes_ p) as [n|] eqn:Hn; [|done].
  intros Hrun. exists n. split; [done|].
  apply (for_size_t_inv (λ k (t : population),
    same_frame p t ∧
    ∀ i, (k ≤ i → sub_pops_of t i = sub_pops_of p i) ∧
         (i < k →
            Forall2 (λ sp sp', evaluate_years p sp = Ok sp')
              (sub_pops_of p i) (sub_pops_of t i) ∧
            subpopulation_ t !! i = Some (sub_pops_of t i)))) in Hrun; [done| |].
  - split; [done|]. intros i. split; [done|lia].
  - intros k t t' Hk [(Hb & Ha & Hs) Hinv] (sps & Hsps & [= <-])%bind_ok.
    split; [done|]. intros i.
    rewrite (evaluate_years_base t p Hb) in Hsps.
    destruct (Hinv k) as [Hsame _]. rewrite Hsame in Hsps by lia.
    apply for_each_Forall2 in Hsps. destruct (Hinv i) as [Hge Hlt].
    destruct (decide (i = k)) as [->|Hne].
    + split; [lia|]. intros _. rewrite sub_pops_of_insert.
      destruct (decide (k = k)); [|done]. split; [done|].
      simpl. by rewrite lookup_insert_eq.
    + rewrite sub_pops_of_insert. destruct (decide (k = i)); [done|].
      split; [intros; apply Hge; lia|]. intros Hi. simpl.
      rewrite lookup_insert_ne by done. 
      destruct Hlt as [HF Hkey]; [lia|]. done.
Qed.

(** X6.  When evaluation returns, the population keeps its grid, areas and
    sex count, every sex keeps its number of subpopulations, and every
    subpopulation keeps its grid, area and array size.  In the
    subpopulations of the sexes below [nsexes_], every cell (year, season,
    age) with a season of that year holds its own folded index, converted
    to [double]; in all subpopulations, array positions that are the index
    of no such cell (the padding of short years) are left as they were. *)
Theorem evaluation_writes_offsets (p p' : population) :
  evaulate_subpopulations p = Ok p' →
  same_frame p p' ∧
  ∀ i, length (sub_pops_of p' i) = length (sub_pops_of p i) ∧
    ∀ j (sp sp' : subpopulation),
      sub_pops_of p i !! j = Some sp → sub_pops_of p' i !! j = Some sp' →
      same_shape sp sp' ∧
      (∀ n, nsexes_ p = Some n → i < n →
         ∀ y s a, visited p y s a → holds_offset sp' (get_index p y s a)) ∧
      (∀ k, unvisited p k →
         some_derived_quantities sp' !! k = some_derived_quantities sp !! k).
Proof.
  intros (n & Hn & Hframe & Hres)%evaulate_subpopulations_result.
  split; [done|]. intros i. destruct (Hres i) as [Hge Hlt].
  destruct (decide (i < n)) as [Hi|Hi].
  - destruct (Hlt Hi) as [HF _]. split; [symmetry; by eapply Forall2_length|].
    intros j sp sp' Hsp Hsp'.
    pose proof (Forall2_lookup_lr _ _ _ _ _ _ HF Hsp Hsp') as Hrun.
    destruct (evaluate_years_writes p sp sp' Hrun) as (Hdone & _ & Hun).
    split; [exact (evaluate_years_shape p sp sp' Hrun)|]. split; [|done].
    intros _ _ _ y s a Hv. by apply Hdone.
  - rewrite Hge by lia. split; [done|]. intros j sp sp' Hsp Hsp'.
    rewrite Hsp in Hsp'. injection Hsp' as <-. split; [done|].
    split; [|done]. intros n' Hn'. rewrite Hn in Hn'. injection Hn' as <-. lia.
Qed.

Lemma evaluation_writes_offsets_witness :
  ∃ p0 p id_g' p',
    population_variable 2 jagged_table 1 1 = Ok (p0, 2) ∧
    initialize_subpopulations 1 [unit_area] p0 2 = Ok (p, id_g') ∧
    evaulate_subpopulations p = Ok p' ∧
    (some_derived_quantities <$> sub_pops_of p' 0) =
      [[0; 0; 0; 3; 4; 5]%float] ∧
    same_frame p p' ∧
    ∀ i, length (sub_pops_of p' i) = length (sub_pops_of p i) ∧
      ∀ j (sp sp' : subpopulation),
        sub_pops_of p i !! j = Some sp → sub_pops_of p' i !! j = Some sp' →
        same_shape sp sp' ∧
        (∀ n, nsexes_ p = Some n → i < n →
           ∀ y s a, visited p y s a → holds_offset sp' (get_index p y s a)) ∧
        (∀ k, unvisited p k →
           some_derived_quantities sp' !! k = some_derived_quantities sp !! k).
Proof.
  eexists _, _, _, _.
  split; [vm_compute; reflexivity|]. split; [vm_compute; reflexivity|].
  match goal with |- ?ev = _ ∧ _ =>
    assert (ev = Ok _) as Hrun by (vm_compute; reflexivity)
  end.
  split; [exact Hrun|]. split; [vm_compute; reflexivity|].
  exact (evaluation_writes_offsets _ _ Hrun).
Defined.

(** ** The report after evaluation *)

Lemma partition_members (p0 : population) nsexes areas id_g p id_g' i sp :
  new_population p0 →
  initialize_subpopulations nsexes areas p0 id_g = Ok (p, id_g') →
  sp ∈ sub_pops_of p i →
  i < nsexes ∧ ∃ a, made_for p0 a sp.
Proof.
  intros Hnew Hrun Hsp.
  destruct (initialize_subpopulations_result _ _ _ _ _ _ Hrun i) as [Hge Hlt].
  rewrite (new_population_empty p0 i Hnew) in Hge, Hlt.
  destruct (decide (i < nsexes)) as [Hi|Hi].
  - split; [done|]. destruct (Hlt Hi) as (sps & Hsps & _ & Hall). simpl in Hsps.
    rewrite Hsps in Hsp. rewrite Forall_forall in Hall.
    destruct (Hall sp Hsp) as (a & _ & Hmade). by exists a.
  - rewrite Hge in Hsp by lia. by apply not_elem_of_nil in Hsp.
Qed.

(** A subpopulation made for a population on a constructed grid indexes and
    counts seasons as the population does, in every year of the grid. *)
Lemma made_for_same_grid (p : population) a0 (sp : subpopulation) y :
  variable_grid p ∨ fixed_grid p →
  made_for p a0 sp →
  y < nyears_ p →
  get_seasons sp y = get_seasons p y ∧
  ∀ s a, get_index sp y s a = get_index p y s a.
Proof.
  intros Hgrid Hmade Hy.
  destruct (made_for_fields p a0 sp Hmade) as (Hny & Hna & Hoff & _ & _ & _ & _ & Hloop).
  apply (grid_max_loop _ _ Hgrid) in Hloop.
  apply N.mul_cancel_l in Hloop; [|lia].
  split; [unfold get_seasons; by rewrite Hoff|].
  intros s a. unfold get_index. by rewrite Hloop, Hna.
Qed.

(** X7.  After a new population has been partitioned and evaluated, every
    [double] that [finalize] hands to [std::cout] for one of its
    subpopulations is the folded index of the (year, season, age) of that
    insertion, converted to [double]; the report of scenario A is the
    instance for the 2 x 2 x 2 fixed grid.  The statement is about the
    operand of [operator<<]: the text that the stream writes for it, with
    6 significant digits by default, is not described. *)
Theorem report_values_are_offsets (p0 : population) nsexes areas id_g p id_g' p'
    i (sp' : subpopulation) out c :
  new_population p0 →
  initialize_subpopulations nsexes areas p0 id_g = Ok (p, id_g') →
  evaulate_subpopulations p = Ok p' →
  sp' ∈ sub_pops_of p' i →
  finalize sp' = Ok out →
  c ∈ out →
  cell_value c =
    SizeT.to_double (get_index sp' (cell_year c) (cell_season c) (cell_age c)).
Proof.
  intros Hnew Hpart Heval Hsp' Hfin Hc.
  pose proof (new_population_grid p0 Hnew) as Hgrid.
  destruct (initialize_subpopulations_frame _ _ _ _ _ _ Hpart) as (Hb & _ & Hn).
  destruct (evaulate_subpopulations_result p p' Heval) as (n & Hn' & _ & Hres).
  rewrite Hn in Hn'. injection Hn' as <-.
  apply list_elem_of_lookup in Hsp' as [j Hj].
  destruct (Hres i) as [Hge Hlt].
  assert (i < nsexes) as Hi.
  { destruct (decide (i < nsexes)) as [|Hi]; [done|]. rewrite Hge in Hj by lia.
    eapply partition_members; [done..|]. apply list_elem_of_lookup. by exists j. }
  destruct (Hlt Hi) as [HF _].
  destruct (Forall2_lookup_r _ _ _ _ _ HF Hj) as (sp & Hsp & Hrun).
  destruct (partition_members p0 nsexes areas id_g p id_g' i sp Hnew Hpart)
    as (_ & a0 & Hmade); [apply list_elem_of_lookup; by exists j|].
  destruct (evaluate_years_shape p sp sp' Hrun) as (Hbase & _ & _).
  destruct (evaluate_years_writes p sp sp' Hrun) as (Hdone & _ & _).
  apply finalize_real in Hfin. rewrite Forall_forall in Hfin.
  destruct (Hfin c Hc) as (Hy & (k & Hk & Hs) & Ha & Hv).
  rewrite Hbase in Hy, Hk, Ha, Hv |- *.
  destruct (made_for_fields p0 a0 sp Hmade) as (Hny & Hna & _).
  rewrite Hny in Hy. rewrite Hna in Ha.
  destruct (made_for_same_grid p0 a0 sp (cell_year c) Hgrid Hmade Hy) as [Hseas Hidx].
  rewrite Hseas in Hk. rewrite Hidx in Hv |- *.
  assert (visited p (cell_year c) (cell_season c) (cell_age c)) as Hvis.
  { rewrite <- Hb in Hy, Hk, Ha. split; [done|]. split; [by exists k|done]. }
  apply Hdone in Hvis. unfold holds_offset in Hvis.
  rewrite Hb in Hvis. apply vec_get_ok in Hv. rewrite Hv in Hvis. by injection Hvis.
Qed.

Lemma report_values_are_offsets_witness :
  ∃ p0 p id_g' p' sp' out c,
    population_variable 2 jagged_table 1 1 = Ok (p0, 2) ∧
    new_population p0 ∧
    initialize_subpopulations 1 [unit_area] p0 2 = Ok (p, id_g') ∧
    evaulate_subpopulations p = Ok p' ∧
    sp' ∈ sub_pops_of p' 0 ∧
    finalize sp' = Ok out ∧
    c ∈ out ∧
    (cell_year c, cell_season c, cell_age c) = (1, 2, 0) ∧
    cell_value c = 5%float ∧
    cell_value c =
      SizeT.to_double (get_index sp' (cell_year c) (cell_season c) (cell_age c)).
Proof.
  eexists _, _, _, _, _, _, _.
  split; [vm_compute; reflexivity|].
  match goal with |- new_population ?q ∧ _ =>
    assert (new_population q) as Hnew
      by (left; exists 2, jagged_table, 1, 1, 2; vm_compute; reflexivity)
  end.
  split; [exact Hnew|].
  match goal with |- ?init = _ ∧ _ =>
    assert (init = Ok (_, _)) as Hpart by (vm_compute; reflexivity)
  end.
  split; [exact Hpart|].
  match goal with |- ?ev = _ ∧ _ =>
    assert (ev = Ok _) as Heval by (vm_compute; reflexivity)
  end.
  split; [exact Heval|].
  match goal with |- ?sp ∈ ?l ∧ _ =>
    assert (sp ∈ l) as Hsp by (vm_compute; apply list_elem_of_here)
  end.
  split; [exact Hsp|].
  match goal with |- ?fin = _ ∧ _ =>
    assert (fin = Ok _) as Hfin by (vm_compute; reflexivity)
  end.
  split; [exact Hfin|].
  match goal with |- ?c ∈ ?l ∧ _ =>
    assert (c ∈ l) as Hc
      by (do 3 apply list_elem_of_further; apply list_elem_of_here)
  end.
  split; [exact Hc|]. split; [reflexivity|]. split; [reflexivity|].
  exact (report_values_are_offsets _ _ _ _ _ _ _ _ _ _ _ Hnew Hpart Heval Hsp Hfin Hc).
Defined.

(** ** Evaluating again *)

Lemma set_derived_same (sp : subpopulation) :
  set_derived (some_derived_quantities sp) sp = sp.
Proof. by destruct sp. Qed.

Lemma set_subpopulations_same (p : population) :
  set_subpopulations (subpopulation_ p) p = p.
Proof. by destruct p. Qed.

Lemma calculate_again index (sp : subpopulation) :
  holds_offset sp index → calculate_some_life_history_1 index sp = Ok sp.
Proof.
  intros Hk. apply calculate_ok. unfold holds_offset in Hk. split.
  - apply lookup_lt_Some in Hk. unfold vec_size. lia.
  - by rewrite list_insert_id, set_derived_same.
Qed.

(** A run of the year loop that returns has found a row for every year. *)
Lemma evaluate_years_rows (p : population) (sp sp' : subpopulation) :
  evaluate_years p sp = Ok sp' →
  ∀ y, y < nyears_ p → is_ok (get_seasons p y).
Proof.
  intros Hrun.
  apply (for_size_t_inv (λ y _, ∀ y', y' < y → is_ok (get_seasons p y'))
           _ _ _ _ Hrun); [intros; lia|].
  intros y t t' Hy Hbefore (n & Hn & _)%bind_ok y' Hy'.
  destruct (decide (y' = y)) as [->|Hne]; [by exists n|]. apply Hbefore. lia.
Qed.

Lemma evaluate_years_again (p : population) (sp : subpopulation) :
  (∀ y, y < nyears_ p → is_ok (get_seasons p y)) →
  (∀ y s a, visited p y s a → holds_offset sp (get_index p y s a)) →
  evaluate_years p sp = Ok sp.
Proof.
  intros Hrows Hheld.
  destruct (for_size_t_total (λ _ t, t = sp) (evaluate_seasons p) (nyears_ p) sp)
    as (t & Hrun & ->); [done| |done].
  intros y t Hy ->. exists sp. split; [|done].
  destruct (Hrows y Hy) as [n Hn]. unfold evaluate_seasons. rewrite Hn. simpl.
  destruct (for_size_t_total (λ _ t, t = sp) (evaluate_ages p y) n sp)
    as (t & Hrun & ->); [done| |done].
  intros s t Hs ->. exists sp. split; [|done].
  destruct (for_size_t_total (λ _ t, t = sp)
    (λ a sp, calculate_some_life_history_1 (get_index p y s a) sp) (nages_ p) sp)
    as (t & Hrun & ->); [done| |done].
  intros a t Ha ->. exists sp. split; [|done].
  apply calculate_again, Hheld. split; [done|]. split; [by exists n|done].
Qed.

Lemma for_each_same {A} (f : A → result A) v :
  (∀ a, a ∈ v → f a = Ok a) → for_each f v = Ok v.
Proof.
  induction v as [|a v IH]; intros Hf; simpl; [done|].
  rewrite (Hf a) by (by left). simpl. rewrite IH; [done|].
  intros b Hb. apply Hf. by right.
Qed.

(** X8.  Evaluation can be repeated: evaluating an evaluated population
    again returns the same population, since every cell update writes a
    value that depends on the position only. *)
Theorem evaluation_idempotent (p p' : population) :
  evaulate_subpopulations p = Ok p' →
  evaulate_subpopulations p' = Ok p'.
Proof.
  intros (n & Hn & (Hb & Ha & Hs) & Hres)%evaulate_subpopulations_result.
  unfold evaulate_subpopulations. rewrite Hs, Hn.
  destruct (for_size_t_total (λ _ t, t = p')
    (λ i (t : population),
       sub_pops ← for_each (evaluate_years t) (sub_pops_of t i);
       Ok (set_subpopulations (<[i := sub_pops]> (subpopulation_ t)) t)) n p')
    as (t & Hrun & ->); [done| |done].
  intros i t Hi ->. exists p'. split; [|done].
  destruct (Hres i) as [_ Hlt]. destruct (Hlt Hi) as [HF Hkey].
  rewrite for_each_same.
  - simpl. by rewrite insert_id, set_subpopulations_same.
  - intros sp' Hsp'. apply list_elem_of_lookup in Hsp' as [j Hj].
    destruct (Forall2_lookup_r _ _ _ _ _ HF Hj) as (sp & _ & Hrun).
    rewrite (evaluate_years_base p' p Hb).
    apply evaluate_years_again; [by eapply evaluate_years_rows|].
    by destruct (evaluate_years_writes p sp sp' Hrun) as (Hdone & _).
Qed.

Lemma evaluation_idempotent_witness :
  ∃ p0 p id_g' p',
    population_variable 2 jagged_table 1 1 = Ok (p0, 2) ∧
    initialize_subpopulations 1 [unit_area] p0 2 = Ok (p, id_g') ∧
    evaulate_subpopulations p = Ok p' ∧
    p ≠ p' ∧
    evaulate_subpopulations p' = Ok p'.
Proof.
  eexists _, _, _, _.
  split; [vm_compute; reflexivity|]. split; [vm_compute; reflexivity|].
  match goal with |- ?ev = _ ∧ _ =>
    assert (ev = Ok _) as Hrun by (vm_compute; reflexivity)
  end.
  split; [exact Hrun|]. split; [by intros [=]|].
  exact (evaluation_idempotent _ _ Hrun).
Defined.

(** ** Finalising a population *)

Lemma population_finalize_result (p p' : population) out :
  population_finalize p = Ok (p', out) →
  ∃ n, nsexes_ p = Some n ∧ same_frame p p' ∧
    (∀ i, sub_pops_of p' i = sub_pops_of p i) ∧
    (∀ i, i < n → subpopulation_ p' !! i = Some (sub_pops_of p' i)) ∧
    (∀ i, n ≤ i → subpopulation_ p' !! i = subpopulation_ p !! i).
Proof.
  unfold population_finalize. destruct (nsexes_ p) as [n|] eqn:Hn; [|done].
  intros Hrun. exists n. split; [done|].
  apply (for_size_t_inv (λ k (st : population * list (N * list cell)),
    same_frame p st.1 ∧
    (∀ i, sub_pops_of st.1 i = sub_pops_of p i) ∧
    (∀ i, i < k → subpopulation_ st.1 !! i = Some (sub_pops_of st.1 i)) ∧
    (∀ i, k ≤ i → subpopulation_ st.1 !! i = subpopulation_ p !! i))) in Hrun;
    [done| |].
  - split; [done|]. split; [done|]. split; [intros; lia|done].
  - intros k [t o] [t' o'] Hk (Hframe & Hsame & Hkeys & Hrest).
    intros (pr & _ & [= <- <-])%bind_ok. cbn [fst] in *.
    split; [done|].
    assert (∀ i, sub_pops_of
      (set_subpopulations (<[k:=sub_pops_of t k]> (subpopulation_ t)) t) i
      = sub_pops_of t i) as Hsub.
    { intros i. rewrite sub_pops_of_insert. by destruct (decide (k = i)) as [->|]. }
    split; [intros i; by rewrite Hsub|]. split.
    + intros i Hi. rewrite Hsub. simpl.
      destruct (decide (i = k)) as [->|Hne]; [by rewrite lookup_insert_eq|].
      rewrite lookup_insert_ne by done. apply Hkeys. lia.
    + intros i Hi. simpl. rewrite lookup_insert_ne by lia. apply Hrest. lia.
Qed.

(** X9.  [population::finalize] changes no subpopulation and no member of
    the population; the only trace it leaves is that every sex index below
    [nsexes_] becomes a key of the subpopulation map (with an empty vector
    if it was none), because the vectors are reached with [operator[]].
    Finalising a second time returns the same output and changes nothing
    at all. *)
Theorem finalize_twice (p p' : population) out :
  population_finalize p = Ok (p', out) →
  same_frame p p' ∧
  (∀ i, sub_pops_of p' i = sub_pops_of p i) ∧
  (∀ i n, nsexes_ p = Some n →
     subpopulation_ p' !! i =
       if decide (i < n) then Some (sub_pops_of p i) else subpopulation_ p !! i) ∧
  population_finalize p' = Ok (p', out).
Proof.
  intros Hrun.
  destruct (population_finalize_result p p' out Hrun)
    as (n & Hn & Hframe & Hsame & Hkeys & Hrest).
  split; [done|]. split; [done|]. split.
  { intros i n' Hn'. rewrite Hn in Hn'. injection Hn' as <-.
    destruct (decide (i < n)) as [Hi|Hi]; [|apply Hrest; lia].
    by rewrite Hkeys, Hsame. }
  revert Hrun. unfold population_finalize.
  destruct Hframe as (Hb & Ha & Hs). rewrite Hs, Hn. unfold for_size_t.
  set (body := λ (i : N) (st : population * list (N * list cell)),
    let '(p, out) := st in
    printed ← finalize_each (sub_pops_of p i);
    Ok (set_subpopulations (<[i:=sub_pops_of p i]> (subpopulation_ p)) p,
        out ++ printed)).
  intros Hrun.
  pose proof (for_loop_rel
    (λ st1 st2 : population * list (N * list cell),
       st2.1 = p' ∧ st1.2 = st2.2 ∧ ∀ i, sub_pops_of st1.1 i = sub_pops_of p' i)
    body body (N.to_nat n) 0 (p, []) (p', [])) as Hrel.
  rewrite Hrun in Hrel.
  assert (match for_loop (N.to_nat n) 0 body (p', []) with
          | Ok u2 => u2.1 = p' ∧ out = u2.2 ∧ ∀ i, sub_pops_of p' i = sub_pops_of p' i
          | Err _ => False
          end) as Hsecond.
  { apply Hrel; [done|].
    intros k [t1 o1] [t2 o2] Hk (Ht2 & Ho & Hsub). cbn [fst snd] in *. subst.
    unfold body. rewrite Hsub.
    destruct (finalize_each (sub_pops_of p' k)) as [pr|e]; simpl; [|done].
    split; [|split; [done|]].
    + rewrite insert_id; [apply set_subpopulations_same|apply Hkeys; lia].
    + intros i. rewrite sub_pops_of_insert.
      destruct (decide (k = i)) as [->|]; [done|apply Hsub]. }
  destruct (for_loop (N.to_nat n) 0 body (p', [])) as [[t o]|e]; [|done].
  cbn [fst snd] in Hsecond. by destruct Hsecond as (-> & -> & _).
Qed.

Lemma finalize_twice_witness :
  ∃ p0 p id_g' p' out,
    population_variable 2 jagged_table 1 1 = Ok (p0, 2) ∧
    initialize_subpopulations 1 [unit_area] p0 2 = Ok (p, id_g') ∧
    population_finalize p = Ok (p', out) ∧
    length out = 1%nat ∧
    same_frame p p' ∧
    (∀ i, sub_pops_of p' i = sub_pops_of p i) ∧
    (∀ i n, nsexes_ p = Some n →
       subpopulation_ p' !! i =
         if decide (i < n) then Some (sub_pops_of p i) else subpopulation_ p !! i) ∧
    population_finalize p' = Ok (p', out).
Proof.
  eexists _, _, _, _, _.
  split; [vm_compute; reflexivity|]. split; [vm_compute; reflexivity|].
  match goal with |- ?fin = _ ∧ _ =>
    assert (fin = Ok (_, _)) as Hrun by (vm_compute; reflexivity)
  end.
  split; [exact Hrun|]. split; [reflexivity|].
  exact (finalize_twice _ _ _ Hrun).
Defined.

(** ** The order of the report *)

Lemma row_size_ok (b : model_base) y n :
  get_seasons b y = Ok n → row_size b y = n.
Proof.
  intros (row & Hrow & ->)%get_seasons_ok. unfold row_size. by rewrite Hrow.
Qed.

Lemma finalize_ages_coords (sp : subpopulation) y s out out' :
  finalize_ages sp y s out = Ok out' →
  cell_coords <$> out' =
    (cell_coords <$> out) ++ (a ← range (nages_ sp); [(y, s, a)]).
Proof.
  intros Hrun.
  apply (for_size_t_inv (λ n (t : list cell),
    cell_coords <$> t = (cell_coords <$> out) ++ (a ← range n; [(y, s, a)])))
    in Hrun; [done| |].
  - by rewrite range_0, app_nil_r.
  - intros a t t' _ Ht (v & _ & [= <-])%bind_ok.
    rewrite fmap_app, Ht, range_succ, bind_app, bind_singleton, app_assoc. done.
Qed.

Lemma finalize_seasons_coords (sp : subpopulation) y out out' :
  finalize_seasons sp y out = Ok out' →
  cell_coords <$> out' =
    (cell_coords <$> out) ++
    (s ← range (row_size sp y); a ← range (nages_ sp); [(y, s, a)]).
Proof.
  unfold finalize_seasons. intros (n & Hn & Hrun)%bind_ok.
  rewrite (row_size_ok _ _ _ Hn).
  apply (for_size_t_inv (λ k (t : list cell),
    cell_coords <$> t =
      (cell_coords <$> out) ++ (s ← range k; a ← range (nages_ sp); [(y, s, a)])))
    in Hrun; [done| |].
  - by rewrite range_0, app_nil_r.
  - intros s t t' _ Ht Hb. apply finalize_ages_coords in Hb.
    rewrite Hb, Ht, range_succ, bind_app, bind_singleton, app_assoc. done.
Qed.

(** X10.  When [finalize] returns, the coordinates of its records are
    the cells of the grid in lexicographic (year, season, age) order, each
    year with as many seasons as its row of season offsets has, and each
    record carries the array entry at the folded index of its cell. *)
Theorem finalize_reports_cells_in_order (sp : subpopulation) out :
  finalize sp = Ok out →
  cell_coords <$> out = report_cells sp ∧
  ∀ c, c ∈ out →
    some_derived_quantities sp
      !! N.to_nat (get_index sp (cell_year c) (cell_season c) (cell_age c))
    = Some (cell_value c).
Proof.
  intros Hrun. split.
  - apply (for_size_t_inv (λ k (t : list cell),
      cell_coords <$> t =
        (y ← range k; s ← range (row_size sp y); a ← range (nages_ sp);
         [(y, s, a)]))) in Hrun; [done|done|].
    intros y t t' _ Ht Hb. apply finalize_seasons_coords in Hb.
    rewrite Hb, Ht, range_succ, bind_app, bind_singleton. done.
  - apply finalize_real in Hrun. rewrite Forall_forall in Hrun.
    intros c Hc. destruct (Hrun c Hc) as (_ & _ & _ & Hv). by apply vec_get_ok.
Qed.

Lemma finalize_reports_cells_in_order_witness :
  finalize jagged_subpopulation =
    Ok [ {| cell_year := 0; cell_season := 0; cell_age := 0; cell_value := 0 |};
         {| cell_year := 1; cell_season := 0; cell_age := 0; cell_value := 0 |};
         {| cell_year := 1; cell_season := 1; cell_age := 0; cell_value := 0 |};
         {| cell_year := 1; cell_season := 2; cell_age := 0; cell_value := 0 |} ] ∧
  report_cells jagged_subpopulation = [(0, 0, 0); (1, 0, 0); (1, 1, 0); (1, 2, 0)] ∧
  cell_coords <$>
    [ {| cell_year := 0; cell_season := 0; cell_age := 0; cell_value := 0 |};
      {| cell_year := 1; cell_season := 0; cell_age := 0; cell_value := 0 |};
      {| cell_year := 1; cell_season := 1; cell_age := 0; cell_value := 0 |};
      {| cell_year := 1; cell_season := 2; cell_age := 0; cell_value := 0 |} ]
    = report_cells jagged_subpopulation.
Proof.
  split; [reflexivity|]. split; [reflexivity|].
  exact (proj1 (finalize_reports_cells_in_order jagged_subpopulation _ eq_refl)).
Defined.

(** ** Before partitioning *)

(** X11.  A population that has not been partitioned cannot be evaluated
    or finalised: both operations start by reading [nsexes_], which no
    constructor sets. *)
Theorem unpartitioned_population (p : population) :
  new_population p →
  nsexes_ p = None ∧ subpopulation_ p = ∅ ∧ areas_ p = [] ∧
  evaulate_subpopulations p = Err Uninitialized ∧
  population_finalize p = Err Uninitialized.
Proof.
  unfold population_variable, population_fixed.
  intros [(ny & off & na & g & g' & Hp)|(ny & ns & na & ag & g & g' & Hp)];
    apply bind_ok in Hp as ([pb g1] & _ & [= <- _]); done.
Qed.

Lemma unpartitioned_population_witness :
  ∃ p,
    population_variable 2 jagged_table 1 1 = Ok (p, 2) ∧
    new_population p ∧
    nsexes_ p = None ∧ subpopulation_ p = ∅ ∧ areas_ p = [] ∧
    evaulate_subpopulations p = Err Uninitialized ∧
    population_finalize p = Err Uninitialized.
Proof.
  eexists. split; [vm_compute; reflexivity|].
  match goal with |- new_population ?q ∧ _ =>
    assert (new_population q) as Hnew
      by (left; exists 2, jagged_table, 1, 1, 2; vm_compute; reflexivity)
  end.
  split; [exact Hnew|]. exact (unpartitioned_population _ Hnew).
Defined.

(** ** More of fims_math.hpp *)

(** A loop that fails has, under an invariant kept by the successful
    iterations, an iteration that fails with the same error in a state that
    satisfies the invariant. *)
Lemma for_loop_err_inv {S : Type} (P : N → S → Prop) (body : N → S → result S)
    n i s e :
  for_loop n i body s = Err e →
  P i s →
  (∀ k t t', i ≤ k < i + N.of_nat n → P k t → body k t = Ok t' → P (N.succ k) t') →
  ∃ k t, i ≤ k < i + N.of_nat n ∧ P k t ∧ body k t = Err e.
Proof.
  revert i s. induction n as [|n IH]; intros i s Hrun Hi Hstep; simpl in Hrun;
    [done|].
  destruct (body i s) as [t|e'] eqn:Hb.
  - destruct (IH _ _ Hrun) as (k & u & Hk & HP & Hu).
    + apply (Hstep i s t); [lia|done..].
    + intros k u u' Hk. apply Hstep. lia.
    + exists k, u. split; [lia|done].
  - injection Hrun as ->. exists i, s. split; [lia|done].
Qed.

(** Loops whose bodies agree on the iterations that are run are equal. *)
Lemma for_loop_ext {S : Type} (body1 body2 : N → S → result S) n i s :
  (∀ k t, i ≤ k < i + N.of_nat n → body1 k t = body2 k t) →
  for_loop n i body1 s = for_loop n i body2 s.
Proof.
  revert i s. induction n as [|n IH]; intros i s Hext; simpl; [done|].
  rewrite <- Hext by lia. destruct (body1 i s); [|done].
  apply IH. intros k u Hk. apply Hext. lia.
Qed.

Section MoreMathProperties.

Local Open Scope float_scope.

Lemma spec_171 : Prim2SF 171.624 = S754_finite false 6038482675373703 (-45).
Proof. vm_compute. reflexivity. Qed.

Lemma spec_12 : Prim2SF 12 = S754_finite false 6755399441055744 (-49).
Proof. vm_compute. reflexivity. Qed.

Lemma spec_001 : Prim2SF 0.001 = S754_finite false 4611686018427388 (-62).
Proof. vm_compute. reflexivity. Qed.

Lemma spec_0 : Prim2SF 0 = S754_zero false.
Proof. vm_compute. reflexivity. Qed.

(** Above 171.624 a [double] is neither at most zero nor below 0.001 or
    12. *)
Lemma above_171 (x : float) :
  (171.624 <? x) = true →
  (x <=? 0) = false ∧ (x <? 0.001) = false ∧ (x <? 12) = false.
Proof.
  rewrite FloatAxioms.leb_spec, !FloatAxioms.ltb_spec. unfold SFleb, SFltb.
  rewrite spec_171, spec_12, spec_001, spec_0.
  destruct (Prim2SF x) as [[]|[]| |[] m e]; cbn [SFcompare];
    try solve [intros H; discriminate H | intros _; auto].
  destruct (Z.compare_spec (-45) e) as [<-|Hlt|Hgt].
  - intros _. vm_compute. auto.
  - intros _.
    destruct (Z.compare_spec e (-62)) as [?|?|?], (Z.compare_spec e (-49)) as [?|?|?];
      try lia; auto.
  - intros H; discriminate H.
Qed.

Variables exp log floor : float → float.
Variable int_of_double : float → Z.
Variable libm_lgamma : float → float.

(** X12.  For every argument above 171.624, where the value of the gamma
    function exceeds the range of [double], [gamma] returns positive
    infinity; the C library's [lgamma] is not called, whatever it is. *)
Theorem gamma_saturates x :
  (171.624 <? x) = true →
  fims.gamma exp floor int_of_double libm_lgamma x = Ok infinity.
Proof.
  intros Hx. destruct (above_171 x Hx) as (Hle & Hsmall & Hmid).
  unfold fims.gamma. by rewrite Hle, Hsmall, Hmid, Hx.
Qed.

(** Below 12, [gamma] returns before its call of the C library's
    [lgamma]. *)
Lemma gamma_below_12 x :
  (x <=? 0) = false → (x <? 12) = true →
  fims.gamma exp floor int_of_double libm_lgamma x =
    Ok (if x <? 0.001 then 1 / (x * (1 + fims.euler_gamma * x))
        else fims.gamma_middle floor int_of_double x).
Proof.
  intros Hle Hlt. unfold fims.gamma. rewrite Hle, Hlt. by destruct (x <? 0.001).
Qed.

Lemma lgamma_returns x :
  (x <=? 0) = false →
  ∃ v, fims.lgamma exp log floor int_of_double libm_lgamma x = Ok v.
Proof.
  intros Hle. unfold fims.lgamma. rewrite Hle.
  destruct (x <? 12) eqn:Hlt; [|by eexists].
  rewrite (gamma_below_12 x Hle Hlt). by eexists.
Qed.

Lemma lgamma_throws x :
  (x <=? 0) = true →
  fims.lgamma exp log floor int_of_double libm_lgamma x = Err InvalidArgument.
Proof. intros Hle. unfold fims.lgamma. by rewrite Hle. Qed.

(** X13.  [lgamma] fails with [std::invalid_argument] if and only if its
    argument is at most zero, and returns a value for every other
    argument: from 12 on the asymptotic series, and below 12 the logarithm
    of the absolute value of what [gamma] computes below 12.  The calls do
    not go round: [gamma] is called below 12 only, where it returns before
    its own call of the C library's [lgamma], so the result of [lgamma]
    does not depend on that function. *)
Theorem lgamma_domain_error x :
  (fims.lgamma exp log floor int_of_double libm_lgamma x = Err InvalidArgument
     ↔ (x <=? 0) = true) ∧
  ((x <=? 0) = false →
     ∃ v, fims.lgamma exp log floor int_of_double libm_lgamma x = Ok v) ∧
  ((x <=? 0) = false → (x <? 12) = false →
     fims.lgamma exp log floor int_of_double libm_lgamma x
       = Ok (fims.lgamma_series log x)) ∧
  ((x <=? 0) = false → (x <? 12) = true →
     fims.lgamma exp log floor int_of_double libm_lgamma x
       = Ok (log (abs (if x <? 0.001 then 1 / (x * (1 + fims.euler_gamma * x))
                       else fims.gamma_middle floor int_of_double x)))) ∧
  (∀ other_lgamma : float → float,
     fims.lgamma exp log floor int_of_double other_lgamma x =
     fims.lgamma exp log floor int_of_double libm_lgamma x).
Proof.
  split; [|split; [|split; [|split]]].
  - destruct (x <=? 0) eqn:Hle.
    + split; [done|]. intros _. by apply lgamma_throws.
    + destruct (lgamma_returns x Hle) as [v ->]. done.
  - apply lgamma_returns.
  - intros Hle Hlt. unfold fims.lgamma. by rewrite Hle, Hlt.
  - intros Hle Hlt. unfold fims.lgamma.
    by rewrite Hle, Hlt, (gamma_below_12 x Hle Hlt).
  - intros other_lgamma. unfold fims.lgamma, fims.gamma.
    destruct (x <=? 0); [done|]. destruct (x <? 12); [|done].
    by destruct (x <? 0.001).
Qed.

End MoreMathProperties.

Lemma gamma_saturates_witness :
  (171.624 <? 200)%float = true ∧
  fims.gamma (λ x, x) (λ x, x) (λ _, 0%Z) (λ x, x) 200%float = Ok infinity.
Proof.
  split; [reflexivity|].
  exact (gamma_saturates (λ x, x) (λ x, x) (λ _, 0%Z) (λ x, x) 200%float eq_refl).
Defined.

(** ** Vectors of [double]: [sum], [lgamma] and [dmultinom] *)

Lemma bind_Ok {A B} (a : A) (f : A → result B) : Ok a ≫= f = f a.
Proof. done. Qed.

Lemma bind_err {A B} (r : result A) (f : A → result B) e :
  r ≫= f = Err e ↔ r = Err e ∨ ∃ a, r = Ok a ∧ f a = Err e.
Proof.
  destruct r as [a|e']; simpl; split.
  - intros Hf. right. by exists a.
  - by intros [[=]|(a' & [= <-] & Hf)].
  - intros [= <-]. by left.
  - by intros [[= <-]|(a' & [=] & _)].
Qed.

Lemma vec_set_lt {A} (v : list A) i x :
  i < vec_size v → vec_set v i x = Ok (<[N.to_nat i := x]> v).
Proof. intros Hi. by apply vec_set_ok. Qed.

Lemma vec_size_insert {A} (v : list A) (i : nat) x :
  vec_size (<[i := x]> v) = vec_size v.
Proof. unfold vec_size. by rewrite length_insert. Qed.

Lemma vec_get_insert {A} (v : list A) i x :
  i < vec_size v → vec_get (<[N.to_nat i := x]> v) i = Ok x.
Proof.
  intros Hi. apply vec_get_ok, list_lookup_insert_eq. unfold vec_size in Hi. lia.
Qed.

Lemma for_int_unfold {S} (bound : N) (body : N → S → result S) s :
  bound ≤ SizeT.INT_MAX →
  for_int bound body s = for_loop (N.to_nat bound) 0 body s.
Proof. unfold for_int. intros Hb. apply N.ltb_ge in Hb. by rewrite Hb. Qed.

(** The value of [sum]: the elements added from left to right, starting
    from [0.0]. *)
Lemma sum_ok (v : list float) :
  vec_size v ≤ SizeT.INT_MAX →
  fims.sum v = Ok (fold_left PrimFloat.add v 0%float).
Proof.
  intros Hmax.
  destruct (for_int_total
    (λ k acc, acc = fold_left PrimFloat.add (take (N.to_nat k) v) 0%float)
    (λ i ret, x ← vec_get v i; Ok (ret + x)%float) (vec_size v) 0%float)
    as (acc & Hrun & ->); [done|done| |].
  - intros k t Hk ->. destruct (vec_get_lt v k Hk) as (x & -> & Hx).
    eexists. split; [done|].
    by rewrite N2Nat.inj_succ, (take_S_r _ _ _ Hx), fold_left_app.
  - unfold fims.sum. rewrite Hrun. unfold vec_size.
    by rewrite Nat2N.id, firstn_all.
Qed.

Section MultinomProperties.

Local Open Scope float_scope.

Variables exp log floor : float → float.
Variable int_of_double : float → Z.
Variable libm_lgamma : float → float.

Local Abbreviation lgamma := (fims.lgamma exp log floor int_of_double libm_lgamma).
Local Abbreviation lgamma_vector :=
  (fims.lgamma_vector exp log floor int_of_double libm_lgamma).
Local Abbreviation dmultinom :=
  (fims.dmultinom exp log floor int_of_double libm_lgamma).

Lemma lgamma_error_kind x e :
  lgamma x = Err e → e = InvalidArgument ∧ (x <=? 0) = true.
Proof.
  destruct (x <=? 0) eqn:Hle.
  - rewrite lgamma_throws by done. by intros [= <-].
  - destruct (lgamma_returns exp log floor int_of_double libm_lgamma x Hle) as [v ->]. done.
Qed.

Lemma lgamma_ok_positive x y :
  lgamma x = Ok y → (x <=? 0) = false.
Proof.
  destruct (x <=? 0) eqn:Hle; [|done]. by rewrite lgamma_throws.
Qed.

Lemma lgamma_vector_ok (v l : list float) :
  lgamma_vector v = Ok l → Forall2 (λ x y, lgamma x = Ok y) v l.
Proof.
  intros Hrun. unfold fims.lgamma_vector in Hrun.
  apply (for_int_inv (λ k (ret : list float),
    length ret = length v ∧
    ∀ (i : nat) x, (i < N.to_nat k)%nat → v !! i = Some x →
      ∃ y, lgamma x = Ok y ∧ ret !! i = Some y)) in Hrun
    as (_ & Hlen & Hall).
  - apply Forall2_same_length_lookup_2; [done|]. intros i x y Hx Hy.
    destruct (Hall i x) as (y' & Hy' & Hl); [|done|].
    + apply lookup_lt_Some in Hx. unfold vec_size. lia.
    + rewrite Hy in Hl. by injection Hl as <-.
  - rewrite length_replicate. split; [done|]. intros; lia.
  - intros k t t' Hk (Hlen & Hall) Hb.
    apply bind_ok in Hb as (x & Hx & (y & Hy & Hset)%bind_ok).
    apply vec_set_ok in Hset as (Hlt & ->). apply vec_get_ok in Hx.
    rewrite length_insert. split; [done|]. intros i x' Hi Hx'.
    destruct (decide (i = N.to_nat k)) as [->|Hne].
    + rewrite Hx in Hx'. injection Hx' as <-. exists y. split; [done|].
      apply list_lookup_insert_eq. unfold vec_size in Hlt. lia.
    + rewrite list_lookup_insert_ne by done. apply Hall; [lia|done].
Qed.

Lemma lgamma_vector_cases (v : list float) :
  vec_size v ≤ SizeT.INT_MAX →
  (Exists (λ x, (x <=? 0) = true) v →
     lgamma_vector v = Err InvalidArgument) ∧
  (Forall (λ x, (x <=? 0) = false) v →
     ∃ l, lgamma_vector v = Ok l ∧
          length l = length v ∧
          Forall2 (λ x y, lgamma x = Ok y) v l).
Proof.
  intros Hmax.
  set (body := λ (i : N) (ret : list float),
    x ← vec_get v i; y ← lgamma x; vec_set ret i y).
  split.
  - intros Hbad.
    destruct (lgamma_vector v) as [l|e] eqn:Hrun.
    + apply lgamma_vector_ok in Hrun. exfalso.
      apply Exists_exists in Hbad as (x & Hx & Hle).
      apply list_elem_of_lookup in Hx as [i Hi].
      destruct (Forall2_lookup_l _ _ _ _ _ Hrun Hi) as (y & _ & Hy).
      apply lgamma_ok_positive in Hy. congruence.
    + f_equal. unfold fims.lgamma_vector in Hrun.
      rewrite for_int_unfold in Hrun by done.
      apply (for_loop_err_inv (λ _ (ret : list float), length ret = length v))
        in Hrun as (k & t & Hk & Hlen & Hb).
      * apply bind_err in Hb as [Hget|(x & _ & [Hy|(y & _ & Hset)]%bind_err)].
        -- destruct (vec_get_lt v k) as (x & Hx & _); [lia|]. congruence.
        -- by apply lgamma_error_kind in Hy as [-> _].
        -- rewrite vec_set_lt in Hset; [done|]. unfold vec_size in *. lia.
      * by rewrite length_replicate.
      * intros k t t' _ Hlen (x & _ & (y & _ & (_ & ->)%vec_set_ok)%bind_ok)%bind_ok.
        by rewrite length_insert.
  - intros Hgood.
    destruct (for_int_total (λ _ (ret : list float), length ret = length v)
      body (vec_size v) (replicate (length v) 0)) as (l & Hrun & Hlen).
    + done.
    + by rewrite length_replicate.
    + intros k t Hk Hlen. unfold body.
      destruct (vec_get_lt v k Hk) as (x & -> & Hx). rewrite bind_Ok.
      rewrite Forall_forall in Hgood.
      destruct (lgamma_returns exp log floor int_of_double libm_lgamma x) as [y ->].
      { apply Hgood, list_elem_of_lookup. by eexists. }
      rewrite bind_Ok, vec_set_lt by (unfold vec_size in *; lia).
      eexists. split; [done|]. by rewrite length_insert.
    + exists l. split; [done|]. split; [done|]. by apply lgamma_vector_ok.
Qed.

(** X14.  [lgamma] of a vector of at most [INT_MAX] elements fails with
    [std::invalid_argument] when some element is at most zero, and
    otherwise returns a vector of the same size that holds [lgamma] of every
    element, in order. *)
Theorem lgamma_vector_domain (v : list float) :
  vec_size v ≤ SizeT.INT_MAX →
  (Exists (λ x, (x <=? 0) = true) v →
     lgamma_vector v = Err InvalidArgument) ∧
  (Forall (λ x, (x <=? 0) = false) v →
     ∃ l, lgamma_vector v = Ok l ∧
          length l = length v ∧
          Forall2 (λ x y, lgamma x = Ok y) v l).
Proof. apply lgamma_vector_cases. Qed.

Lemma normalise_loop_total (x p : list float) :
  vec_size x ≤ vec_size p → vec_size x ≤ SizeT.INT_MAX →
  ∃ sum_p, for_int (vec_size x) (λ i sum_p, pi ← vec_get p i; Ok (sum_p + pi)) 0
             = Ok sum_p.
Proof.
  intros Hp Hmax.
  destruct (for_int_total (λ _ _, True)
    (λ i sum_p, pi ← vec_get p i; Ok (sum_p + pi)) (vec_size x) 0)
    as (sum_p & Hrun & _); [done|done| |by exists sum_p].
  intros k t Hk _. destruct (vec_get_lt p k) as (pi & -> & _); [lia|].
  by eexists.
Qed.

(** The second loop of [dmultinom] fills [xp1] with the counts plus one. *)
Lemma dmultinom_loop_total (x p : list float) sum_p :
  vec_size x ≤ vec_size p → vec_size x ≤ SizeT.INT_MAX →
  ∃ p' ret2,
    for_int (vec_size x) (fims.dmultinom_step log x sum_p)
      (p, replicate (length x) 0, replicate (length x) 0)
      = Ok (p', (λ xi, xi + 1) <$> x, ret2) ∧
    length ret2 = length x.
Proof.
  intros Hp Hmax.
  destruct (for_int_total
    (λ k (st : list float * list float * list float),
       length st.1.1 = length p ∧ length st.1.2 = length x ∧
       length st.2 = length x ∧
       ∀ i : nat, (i < N.to_nat k)%nat → st.1.2 !! i = (λ xi, xi + 1) <$> x !! i)
    (fims.dmultinom_step log x sum_p) (vec_size x)
    (p, replicate (length x) 0, replicate (length x) 0))
    as ([[p' xp1] ret2] & Hrun & Hlp & Hlx & Hlr & Hall); [done| | |].
  - cbn [fst snd]. rewrite !length_replicate. repeat split; intros; lia.
  - intros k [[q xp1] ret2] Hk (Hlq & Hlx & Hlr & Hall). cbn [fst snd] in *.
    unfold fims.dmultinom_step.
    assert (k < vec_size q ∧ k < vec_size xp1 ∧ k < vec_size ret2) as (Hq & Hx1 & Hr2).
    { unfold vec_size in *. lia. }
    destruct (vec_get_lt q k Hq) as (pi & -> & _).
    rewrite bind_Ok, (vec_set_lt q k _ Hq), bind_Ok.
    destruct (vec_get_lt x k Hk) as (xi & Hxi & Hlook). rewrite Hxi, bind_Ok.
    rewrite (vec_set_lt xp1 k _ Hx1), !bind_Ok.
    rewrite (vec_get_insert q k _ Hq), bind_Ok.
    rewrite (vec_set_lt ret2 k _ Hr2), bind_Ok.
    eexists. split; [done|]. cbn [fst snd]. rewrite !length_insert.
    do 3 (split; [done|]). intros i Hi.
    destruct (decide (i = N.to_nat k)) as [->|Hne].
    + rewrite list_lookup_insert_eq by (unfold vec_size in Hx1; lia).
      by rewrite Hlook.
    + rewrite list_lookup_insert_ne by done. apply Hall. lia.
  - cbn [fst snd] in *. exists p', ret2. split; [|done]. rewrite Hrun.
    do 3 f_equal. apply list_eq. intros i. rewrite list_lookup_fmap.
    destruct (decide (i < length x)%nat) as [Hi|Hi].
    + rewrite Hall by (unfold vec_size; lia). done.
    + rewrite !lookup_ge_None_2 by lia. done.
Qed.

(** X15.  With at least as many probabilities as counts, [dmultinom] fails
    with [std::invalid_argument] when the sum of the counts plus one, or
    some count plus one, is at most zero, and returns a value otherwise;
    the probabilities play no part in this. *)
Theorem dmultinom_domain (x p : list float) ret_log :
  vec_size x ≤ SizeT.INT_MAX → vec_size x ≤ vec_size p →
  ((fold_left PrimFloat.add x 0 + 1 <=? 0) = true ∨
   Exists (λ xi, (xi + 1 <=? 0) = true) x →
     dmultinom x p ret_log = Err InvalidArgument) ∧
  ((fold_left PrimFloat.add x 0 + 1 <=? 0) = false →
   Forall (λ xi, (xi + 1 <=? 0) = false) x →
     ∃ v, dmultinom x p ret_log = Ok v).
Proof.
  intros Hmax Hp. unfold fims.dmultinom.
  destruct (normalise_loop_total x p Hp Hmax) as (sum_p & ->). rewrite bind_Ok.
  destruct (dmultinom_loop_total x p sum_p Hp Hmax) as (p' & ret2 & -> & Hlr).
  rewrite bind_Ok, (sum_ok x Hmax), bind_Ok. cbn [fst snd].
  assert (vec_size ((λ xi, xi + 1) <$> x) ≤ SizeT.INT_MAX) as Hmax1.
  { unfold vec_size in *. by rewrite length_fmap. }
  destruct (lgamma_vector_cases _ Hmax1) as [Hbad Hgood].
  split.
  - intros [Hsum|Hsome].
    + by rewrite lgamma_throws.
    + destruct (fold_left PrimFloat.add x 0 + 1 <=? 0) eqn:Hsum;
        [by rewrite lgamma_throws|].
      destruct (lgamma_returns exp log floor int_of_double libm_lgamma _ Hsum) as [a ->].
      rewrite bind_Ok, Hbad; [done|]. by apply Exists_fmap.
  - intros Hsum Hall.
    destruct (lgamma_returns exp log floor int_of_double libm_lgamma _ Hsum) as [a ->].
    destruct Hgood as (l & -> & Hl & _); [by apply Forall_fmap|].
    assert (vec_size l ≤ SizeT.INT_MAX) as Hmaxl.
    { unfold vec_size in *. by rewrite Hl, length_fmap. }
    assert (vec_size ret2 ≤ SizeT.INT_MAX) as Hmaxr.
    { unfold vec_size in *. by rewrite Hlr. }
    rewrite !bind_Ok, (sum_ok l Hmaxl), bind_Ok, (sum_ok ret2 Hmaxr). by eexists.
Qed.

(** X16.  With fewer probabilities than counts, [dmultinom] reads the
    probability vector past its end while summing it. *)
Theorem dmultinom_short_probabilities (x p : list float) ret_log :
  vec_size p < vec_size x → vec_size x ≤ SizeT.INT_MAX →
  dmultinom x p ret_log = Err OutOfBounds.
Proof.
  intros Hp Hmax. unfold fims.dmultinom.
  rewrite for_int_unfold by done.
  rewrite (for_loop_fails_at _ _ _ (vec_size p) _ OutOfBounds); [done|lia| |].
  - intros k t Hk. destruct (vec_get_lt p k) as (pi & -> & _); [lia|]. by eexists.
  - intros t. by rewrite (proj1 (vec_get_ge p (vec_size p))).
Qed.

End MultinomProperties.

Lemma lgamma_vector_domain_witness :
  vec_size [1; 20]%float ≤ SizeT.INT_MAX ∧
  fims.lgamma_vector (λ x, x) (λ x, x) (λ x, x) (λ _, 1%Z) (λ x, x) [1; 20]%float
    = Ok [1; 370.92310485289664]%float ∧
  fims.lgamma_vector (λ x, x) (λ x, x) (λ x, x) (λ _, 1%Z) (λ x, x) [1; 0; 20]%float
    = Err InvalidArgument.
Proof.
  assert (vec_size [1; 20]%float ≤ SizeT.INT_MAX) as Hmax by (by vm_compute).
  split; [exact Hmax|]. split; [vm_compute; reflexivity|].
  refine (proj1 (lgamma_vector_domain (λ x, x) (λ x, x) (λ x, x) (λ _, 1%Z) (λ x, x)
                   [1; 0; 20]%float _) _).
  - by vm_compute.
  - apply Exists_cons_tl, Exists_cons_hd. reflexivity.
Defined.

Lemma vec_get_app_l {A} (v w : list A) k :
  k < vec_size v → vec_get (v ++ w) k = vec_get v k.
Proof.
  intros Hk. unfold vec_get. rewrite lookup_app_l; [done|].
  unfold vec_size in Hk. lia.
Qed.

Lemma vec_set_app_l {A} (v w : list A) k a :
  k < vec_size v → vec_set (v ++ w) k a = Ok (<[N.to_nat k := a]> v ++ w).
Proof.
  intros Hk. rewrite vec_set_lt.
  - rewrite insert_app_l; [done|]. unfold vec_size in Hk. lia.
  - unfold vec_size in *. rewrite length_app. lia.
Qed.

(** One iteration of the second loop of [dmultinom] does not look at the
    probabilities behind the counts. *)
Lemma dmultinom_step_app log (x : list float) sum_p k (q extra a b : list float) :
  k < vec_size q →
  match fims.dmultinom_step log x sum_p k (q, a, b) with
  | Ok st => fims.dmultinom_step log x sum_p k (q ++ extra, a, b)
               = Ok (st.1.1 ++ extra, st.1.2, st.2) ∧
             vec_size st.1.1 = vec_size q
  | Err e => fims.dmultinom_step log x sum_p k (q ++ extra, a, b) = Err e
  end.
Proof.
  intros Hk. unfold fims.dmultinom_step.
  rewrite (vec_get_app_l q extra k Hk).
  destruct (vec_get_lt q k Hk) as (pi & -> & _). rewrite !bind_Ok.
  rewrite (vec_set_app_l q extra k _ Hk), (vec_set_lt q k _ Hk), !bind_Ok.
  destruct (vec_get x k) as [xi|e]; [rewrite !bind_Ok|done].
  destruct (vec_set a k (xi + 1)%float) as [a'|e]; [rewrite !bind_Ok|done].
  rewrite vec_get_app_l by (by rewrite vec_size_insert).
  rewrite (vec_get_insert q k _ Hk), !bind_Ok.
  destruct (vec_set b k _) as [b'|e]; [rewrite !bind_Ok|done].
  cbn [fst snd]. by rewrite vec_size_insert.
Qed.

(** X17.  [dmultinom] uses one probability per count: probabilities
    behind the first [x.size()] are ignored, also in the normalisation of
    [p], so appending entries to [p] changes neither the value nor the
    failure. *)
Theorem dmultinom_ignores_extra (exp log floor : float → float)
    (int_of_double : float → Z) (libm_lgamma : float → float)
    (x p extra : list float) ret_log :
  vec_size x ≤ vec_size p →
  fims.dmultinom exp log floor int_of_double libm_lgamma x (p ++ extra) ret_log =
  fims.dmultinom exp log floor int_of_double libm_lgamma x p ret_log.
Proof.
  intros Hp. unfold fims.dmultinom, for_int.
  destruct (SizeT.INT_MAX <? vec_size x); [done|].
  rewrite (for_loop_ext
    (λ i sum_p, pi ← vec_get (p ++ extra) i; Ok (sum_p + pi)%float)
    (λ i sum_p, pi ← vec_get p i; Ok (sum_p + pi)%float)).
  2: { intros k t Hk. rewrite vec_get_app_l; [done|lia]. }
  destruct (for_loop _ _ (λ i sum_p, pi ← vec_get p i; Ok (sum_p + pi)%float) _)
    as [sum_p|e]; [rewrite !bind_Ok|done].
  pose proof (for_loop_rel
    (λ st1 st2 : list float * list float * list float,
       st1 = (st2.1.1 ++ extra, st2.1.2, st2.2) ∧ vec_size st2.1.1 = vec_size p)
    (fims.dmultinom_step log x sum_p) (fims.dmultinom_step log x sum_p)
    (N.to_nat (vec_size x)) 0
    (p ++ extra, replicate (length x) 0%float, replicate (length x) 0%float)
    (p, replicate (length x) 0%float, replicate (length x) 0%float)) as Hrel.
  destruct (for_loop _ _ _ (p ++ extra, _, _)) as [st1|e1],
    (for_loop _ _ _ (p, _, _)) as [st2|e2].
  - destruct Hrel as [-> _]; [done| |done].
    intros k t1 [[q a] b] Hk [-> Hq]. cbn [fst snd] in *.
    pose proof (dmultinom_step_app log x sum_p k q extra a b) as Hstep.
    destruct (fims.dmultinom_step log x sum_p k (q, a, b)) as [st|e].
    + destruct Hstep as [-> Hsize]; [lia|]. split; [done|]. by rewrite Hsize.
    + rewrite Hstep; [done|lia].
  - exfalso. apply Hrel; [done|].
    intros k t1 [[q a] b] Hk [-> Hq]. cbn [fst snd] in *.
    pose proof (dmultinom_step_app log x sum_p k q extra a b) as Hstep.
    destruct (fims.dmultinom_step log x sum_p k (q, a, b)) as [st|e].
    + destruct Hstep as [-> Hsize]; [lia|]. split; [done|]. by rewrite Hsize.
    + rewrite Hstep; [done|lia].
  - exfalso. apply Hrel; [done|].
    intros k t1 [[q a] b] Hk [-> Hq]. cbn [fst snd] in *.
    pose proof (dmultinom_step_app log x sum_p k q extra a b) as Hstep.
    destruct (fims.dmultinom_step log x sum_p k (q, a, b)) as [st|e].
    + destruct Hstep as [-> Hsize]; [lia|]. split; [done|]. by rewrite Hsize.
    + rewrite Hstep; [done|lia].
  - rewrite Hrel; [done|done|].
    intros k t1 [[q a] b] Hk [-> Hq]. cbn [fst snd] in *.
    pose proof (dmultinom_step_app log x sum_p k q extra a b) as Hstep.
    destruct (fims.dmultinom_step log x sum_p k (q, a, b)) as [st|e].
    + destruct Hstep as [-> Hsize]; [lia|]. split; [done|]. by rewrite Hsize.
    + rewrite Hstep; [done|lia].
Qed.

Lemma dmultinom_ignores_extra_witness :
  vec_size [1; 2]%float ≤ vec_size [0.5; 0.5]%float ∧
  fims.dmultinom (λ x, x) (λ x, x) (λ x, x) (λ _, 1%Z) (λ x, x)
    [1; 2]%float ([0.5; 0.5] ++ [7])%float true =
  fims.dmultinom (λ x, x) (λ x, x) (λ x, x) (λ _, 1%Z) (λ x, x)
    [1; 2]%float [0.5; 0.5]%float true.
Proof.
  assert (vec_size [1; 2]%float ≤ vec_size [0.5; 0.5]%float) as Hp by (by vm_compute).
  split; [exact Hp|].
  exact (dmultinom_ignores_extra _ _ _ _ _ _ _ [7%float] true Hp).
Defined.

Lemma dmultinom_domain_witness :
  vec_size [1; -2]%float ≤ SizeT.INT_MAX ∧
  vec_size [1; -2]%float ≤ vec_size [0.5; 0.5]%float ∧
  fims.dmultinom (λ x, x) (λ x, x) (λ x, x) (λ _, 1%Z) (λ x, x)
    [1; -2]%float [0.5; 0.5]%float true = Err InvalidArgument.
Proof.
  assert (vec_size [1; -2]%float ≤ SizeT.INT_MAX) as Hmax by (by vm_compute).
  assert (vec_size [1; -2]%float ≤ vec_size [0.5; 0.5]%float) as Hp by (by vm_compute).
  split; [exact Hmax|]. split; [exact Hp|].
  refine (proj1 (dmultinom_domain (λ x, x) (λ x, x) (λ x, x) (λ _, 1%Z) (λ x, x)
                   [1; -2]%float [0.5; 0.5]%float true Hmax Hp) _).
  left. reflexivity.
Defined.

Lemma dmultinom_short_probabilities_witness :
  vec_size [0.5]%float < vec_size [1; 2]%float ∧
  vec_size [1; 2]%float ≤ SizeT.INT_MAX ∧
  fims.dmultinom (λ x, x) (λ x, x) (λ x, x) (λ _, 1%Z) (λ x, x)
    [1; 2]%float [0.5]%float true = Err OutOfBounds.
Proof.
  assert (vec_size [0.5]%float < vec_size [1; 2]%float) as Hp by reflexivity.
  assert (vec_size [1; 2]%float ≤ SizeT.INT_MAX) as Hmax by (by vm_compute).
  split; [exact Hp|]. split; [exact Hmax|].
  exact (dmultinom_short_probabilities (λ x, x) (λ x, x) (λ x, x) (λ _, 1%Z) (λ x, x)
           _ _ true Hp Hmax).
Defined.

(** ** Identifiers *)

Lemma subpopulation_variable_id nyears offsets nages id_g (sp : subpopulation) id_g' :
  subpopulation_variable nyears offsets nages id_g = Ok (sp, id_g') →
  object_id sp = id_g ∧ id_g' = id_g ⊕ 1.
Proof.
  unfold subpopulation_variable, population_base_variable.
  intros ([pb g1] & ([b g2] & Hb & [= <- <-])%bind_ok & [= <- <-])%bind_ok.
  by apply model_base_variable_ok in Hb as (_ & _ & _ & _ & _ & ? & ?).
Qed.

Lemma wrap_succ id_g k : SizeT.wrap (id_g + k) ⊕ 1 = SizeT.wrap (id_g + N.succ k).
Proof. unfold SizeT.add. rewrite wrap_add_l. f_equal. lia. Qed.

Lemma wrap_add_inj id_g k k' :
  k < SizeT.modulus → k' < SizeT.modulus →
  SizeT.wrap (id_g + k) = SizeT.wrap (id_g + k') → k = k'.
Proof.
  unfold SizeT.wrap. intros Hk Hk' Heq.
  pose proof (N.div_mod (id_g + k) SizeT.modulus modulus_pos) as H1.
  pose proof (N.div_mod (id_g + k') SizeT.modulus modulus_pos) as H2.
  rewrite Heq in H1.
  set (q := (id_g + k) / SizeT.modulus) in *.
  set (q' := (id_g + k') / SizeT.modulus) in *.
  set (r := (id_g + k') mod SizeT.modulus) in *.
  destruct (N.lt_trichotomy q q') as [Hq|[Hq|Hq]]; [|lia|].
  - assert (SizeT.modulus * (q + 1) ≤ SizeT.modulus * q') by (apply N.mul_le_mono_l; lia).
    lia.
  - assert (SizeT.modulus * (q' + 1) ≤ SizeT.modulus * q) by (apply N.mul_le_mono_l; lia).
    lia.
Qed.

(** The inner loop of [initialize_subpopulations] hands the new
    subpopulations consecutive identifiers. *)
Lemma initialize_areas_loop_ids i (q : population) id_g q' id_g' :
  id_g < SizeT.modulus →
  for_int (vec_size (areas_ q)) (initialize_one i) (q, id_g) = Ok (q', id_g') →
  id_g' = SizeT.wrap (id_g + vec_size (areas_ q)) ∧
  ∃ sps, sub_pops_of q' i = sub_pops_of q i ++ sps ∧
         ∀ (j : nat) (sp : subpopulation), sps !! j = Some sp →
           object_id sp = SizeT.wrap (id_g + N.of_nat j).
Proof.
  intros Hid Hrun.
  apply (for_int_inv (λ (k : N) (st : population * N),
    same_frame q st.1 ∧
    st.2 = SizeT.wrap (id_g + k) ∧
    ∃ sps, sub_pops_of st.1 i = sub_pops_of q i ++ sps ∧
           vec_size sps = k ∧
           ∀ (j : nat) (sp : subpopulation), sps !! j = Some sp →
             object_id sp = SizeT.wrap (id_g + N.of_nat j))) in Hrun
    as [_ (Hframe & Hg & sps & Hsps & _ & Hids)].
  - split; [done|]. by exists sps.
  - split; [done|]. split; [cbn; by rewrite N.add_0_r, wrap_small|].
    exists []. by rewrite app_nil_r.
  - intros k [t g] [t' g'] _ (Hframe & Hg & sps & Hsps & Hlen & Hids).
    intros (sp & a & Hsp & _ & ->)%initialize_one_ok. cbn [fst snd] in *.
    apply subpopulation_variable_id in Hsp as [Hid' ->]. subst g.
    split; [done|]. split; [apply wrap_succ|].
    exists (sps ++ [set_area a sp]). rewrite sub_pops_of_insert.
    destruct (decide (i = i)); [|done]. rewrite Hsps, <- app_assoc.
    split; [done|]. split.
    + unfold vec_size in *. rewrite length_app. simpl. lia.
    + intros j sp' Hj. apply lookup_app_Some in Hj as [Hj|[Hge Hj]].
      * by apply Hids.
      * apply list_lookup_singleton_Some in Hj as [Hj <-]. simpl. rewrite Hid'.
        f_equal. unfold vec_size in Hlen. lia.
Qed.

(** X18.  Partitioning draws one identifier per new subpopulation, in the
    order of creation: starting from a counter [id_g], the subpopulation
    at position [j] among those added for the sex [i] gets
    [id_g + i * areas.size() + j] (modulo [2^64]) and the counter ends at
    [id_g + nsexes * areas.size()]; as long as fewer than [2^64]
    subpopulations are created their identifiers are pairwise distinct. *)
Theorem partition_identifiers nsexes areas (p : population) id_g p' id_g' :
  id_g < SizeT.modulus →
  initialize_subpopulations nsexes areas p id_g = Ok (p', id_g') →
  id_g' = SizeT.wrap (id_g + nsexes * vec_size areas) ∧
  (∀ i, i < nsexes →
     ∃ sps, sub_pops_of p' i = sub_pops_of p i ++ sps ∧
            ∀ (j : nat) (sp : subpopulation), sps !! j = Some sp →
              (j < length areas)%nat ∧
              object_id sp =
                SizeT.wrap (id_g + (i * vec_size areas + N.of_nat j))) ∧
  (nsexes * vec_size areas ≤ SizeT.modulus →
   ∀ i j i' j', i < nsexes → i' < nsexes →
     (j < length areas)%nat → (j' < length areas)%nat →
     SizeT.wrap (id_g + (i * vec_size areas + N.of_nat j)) =
     SizeT.wrap (id_g + (i' * vec_size areas + N.of_nat j')) →
     i = i' ∧ j = j').
Proof.
  intros Hid Hrun.
  assert (id_g' = SizeT.wrap (id_g + nsexes * vec_size areas) ∧
    ∀ i, i < nsexes →
      ∃ sps, sub_pops_of p' i = sub_pops_of p i ++ sps ∧
             ∀ (j : nat) (sp : subpopulation), sps !! j = Some sp →
               object_id sp =
                 SizeT.wrap (id_g + (i * vec_size areas + N.of_nat j))) as [Hend Hids].
  { unfold initialize_subpopulations in Hrun.
    apply (for_int_inv (λ (n : N) (st : population * N),
      areas_ st.1 = areas ∧
      st.2 = SizeT.wrap (id_g + n * vec_size areas) ∧
      ∀ i, (n ≤ i → sub_pops_of st.1 i = sub_pops_of p i) ∧
           (i < n →
              ∃ sps, sub_pops_of st.1 i = sub_pops_of p i ++ sps ∧
                     ∀ (j : nat) (sp : subpopulation), sps !! j = Some sp →
                       object_id sp =
                         SizeT.wrap (id_g + (i * vec_size areas + N.of_nat j)))))
      in Hrun as [_ (_ & Hg & Hsex)].
    - split; [done|]. intros i Hi. by apply Hsex.
    - split; [done|]. split; [cbn; by rewrite N.add_0_r, wrap_small|].
      intros i. split; [done|lia].
    - intros n [t g] [t' g'] _ (Ha & Hg & Hsex) Hin. cbn [fst snd] in *.
      pose proof (initialize_areas_loop _ _ _ _ _ Hin) as ((_ & Ha' & _) & Hother & _).
      apply initialize_areas_loop_ids in Hin as (Hg' & sps & Hsps & Hids);
        [|subst g; apply N.mod_lt, modulus_pos].
      rewrite Ha in *. split; [done|]. split.
      { subst g g'. rewrite wrap_add_l. f_equal. lia. }
      intros i. destruct (decide (i = n)) as [->|Hne].
      + split; [intros; lia|]. intros _. exists sps.
        destruct (Hsex n) as [Hsame _]. rewrite Hsps, Hsame by lia.
        split; [done|]. intros j sp Hj. rewrite (Hids j sp Hj). subst g.
        rewrite wrap_add_l. f_equal. lia.
      + rewrite Hother by done. destruct (Hsex i) as [Hge Hlt].
        split; [intros; apply Hge; lia|intros; apply Hlt; lia]. }
  split; [done|]. split.
  - intros i Hi. destruct (Hids i Hi) as (sps & Hsps & Hsp).
    destruct (initialize_subpopulations_result _ _ _ _ _ _ Hrun i) as [_ Hlt].
    destruct (Hlt Hi) as (sps' & Hsps' & Hlen & _).
    rewrite Hsps in Hsps'. apply app_inv_head in Hsps'. subst sps'.
    exists sps. split; [done|]. intros j sp Hj. split; [|by apply Hsp].
    apply lookup_lt_Some in Hj. unfold vec_size in Hlen. lia.
  - intros Hfit i j i' j' Hi Hi' Hj Hj' Heq.
    assert (∀ i j, i < nsexes → (j < length areas)%nat →
      i * vec_size areas + N.of_nat j < SizeT.modulus) as Hlt.
    { intros i0 j0 Hi0 Hj0. unfold vec_size in *.
      apply N.lt_le_trans with ((i0 + 1) * N.of_nat (length areas)); [lia|].
      etrans; [|exact Hfit]. apply N.mul_le_mono_r. lia. }
    apply wrap_add_inj in Heq; [|by apply Hlt..].
    unfold vec_size in Heq.
    destruct (N.div_mod_unique (N.of_nat (length areas)) i i' (N.of_nat j) (N.of_nat j'))
      as [-> Hjj]; [lia|lia|lia|]. split; [done|lia].
Qed.

Lemma partition_identifiers_witness :
  ∃ p0 p id_g',
    population_variable 2 jagged_table 1 1 = Ok (p0, 2) ∧
    2 < SizeT.modulus ∧
    initialize_subpopulations 2 [unit_area; unit_area] p0 2 = Ok (p, id_g') ∧
    ((λ sp : subpopulation, object_id sp) <$> sub_pops_of p 0) = [2; 3] ∧
    ((λ sp : subpopulation, object_id sp) <$> sub_pops_of p 1) = [4; 5] ∧
    id_g' = SizeT.wrap (2 + 2 * vec_size [unit_area; unit_area]).
Proof.
  eexists _, _, _.
  split; [vm_compute; reflexivity|].
  assert (2 < SizeT.modulus) as Hid by reflexivity.
  split; [exact Hid|].
  match goal with |- ?init = _ ∧ _ =>
    assert (init = Ok (_, _)) as Hrun by (vm_compute; reflexivity)
  end.
  split; [exact Hrun|]. split; [reflexivity|]. split; [reflexivity|].
  exact (proj1 (partition_identifiers _ _ _ _ _ _ Hid Hrun)).
Defined.

(** ** The two revisions of fims_indexing.cpp on a regular grid *)

Local Open Scope N_scope.

Lemma rel_result_bind {A1 A2 B1 B2 : Type} (R : A1 → A2 → Prop) (R' : B1 → B2 → Prop)
    (m1 : result A1) (m2 : result A2) (f1 : A1 → result B1) (f2 : A2 → result B2) :
  rel_result R m1 m2 →
  (∀ a1 a2, R a1 a2 → rel_result R' (f1 a1) (f2 a2)) →
  rel_result R' (m1 ≫= f1) (m2 ≫= f2).
Proof.
  destruct m1 as [a1|e1], m2 as [a2|e2]; simpl; try done.
  intros HR Hf. by apply Hf.
Qed.

Lemma rel_result_eq {A : Type} (r1 r2 : result A) : rel_result eq r1 r2 → r1 = r2.
Proof. destruct r1, r2; simpl; try done; by intros ->. Qed.

Lemma for_size_t_rel {S1 S2 : Type} (R : S1 → S2 → Prop)
    (body1 : N → S1 → result S1) (body2 : N → S2 → result S2) n s1 s2 :
  R s1 s2 →
  (∀ k t1 t2, k < n → R t1 t2 → rel_result R (body1 k t1) (body2 k t2)) →
  rel_result R (for_size_t n body1 s1) (for_size_t n body2 s2).
Proof.
  intros HR Hstep. unfold for_size_t. apply for_loop_rel; [done|].
  intros k t1 t2 Hk. apply Hstep. lia.
Qed.

Lemma for_int_rel {S1 S2 : Type} (R : S1 → S2 → Prop)
    (body1 : N → S1 → result S1) (body2 : N → S2 → result S2) n s1 s2 :
  R s1 s2 →
  (∀ k t1 t2, k < n → R t1 t2 → rel_result R (body1 k t1) (body2 k t2)) →
  rel_result R (for_int n body1 s1) (for_int n body2 s2).
Proof.
  intros HR Hstep. unfold for_int. destruct (SizeT.INT_MAX <? n); [done|].
  apply for_loop_rel; [done|]. intros k t1 t2 Hk. apply Hstep. lia.
Qed.

Lemma for_each_rel {A B : Type} (R : A → B → Prop) (f : A → result A)
    (g : B → result B) l1 l2 :
  Forall2 R l1 l2 →
  (∀ a b, R a b → rel_result R (f a) (g b)) →
  rel_result (Forall2 R) (for_each f l1) (for_each g l2).
Proof.
  intros Hl Hf. induction Hl as [|a b l1 l2 Hab Hl IH]; simpl; [constructor|].
  apply (rel_result_bind R); [by apply Hf|]. intros a' b' Hab'.
  apply (rel_result_bind (Forall2 R)); [done|]. intros l1' l2' Hl'.
  simpl. by constructor.
Qed.

Lemma vec_get_same_length {A B : Type} (l1 : list A) (l2 : list B) i :
  length l1 = length l2 →
  rel_result (λ _ _, True) (vec_get l1 i) (vec_get l2 i).
Proof.
  intros Hlen. unfold vec_get.
  destruct (l1 !! N.to_nat i) as [a|] eqn:H1, (l2 !! N.to_nat i) as [b|] eqn:H2;
    simpl; try done.
  - apply lookup_lt_Some in H1. apply lookup_ge_None in H2. lia.
  - apply lookup_lt_Some in H2. apply lookup_ge_None in H1. lia.
Qed.

Lemma same_grid_get_seasons b1 b2 y :
  same_grid_v1 b1 b2 → y < nyears_ b2 →
  get_seasons b2 y = Ok (IndexingV1.nseasons_ b1).
Proof.
  intros (_ & _ & Hoff & _) Hy. unfold get_seasons, vec_get. rewrite Hoff.
  rewrite lookup_replicate_2 by lia. simpl. by rewrite fixed_season_row_size.
Qed.

Lemma same_grid_get_index b1 b2 y s a :
  same_grid_v1 b1 b2 → y < nyears_ b2 →
  IndexingV1.get_index b1 y s a = get_index b2 y s a.
Proof.
  intros (_ & Hna & _ & [Hz|Hm]) Hy; [lia|].
  unfold IndexingV1.get_index, get_index. by rewrite Hna, Hm.
Qed.

Lemma calculate_v1 k sp1 sp2 :
  same_subpopulation_v1 sp1 sp2 →
  rel_result same_subpopulation_v1
    (IndexingV1.calculate_some_life_history_1 k sp1)
    (calculate_some_life_history_1 k sp2).
Proof.
  intros (Hg & Hid & Hd).
  unfold IndexingV1.calculate_some_life_history_1, calculate_some_life_history_1.
  rewrite Hd. destruct (vec_set _ k _) as [d|e]; simpl; [|done].
  split; [exact Hg|]. split; [exact Hid|done].
Qed.

Lemma evaluate_years_v1 (q : IndexingV1.population) (p : population) sp1 sp2 :
  same_grid_v1 q p → same_subpopulation_v1 sp1 sp2 →
  rel_result same_subpopulation_v1
    (IndexingV1.evaluate_years q sp1) (evaluate_years p sp2).
Proof.
  intros Hg Hsp. pose proof Hg as (Hny & Hna & _).
  unfold IndexingV1.evaluate_years, evaluate_years. rewrite Hny.
  apply for_size_t_rel; [done|]. intros y t1 t2 Hy Ht.
  unfold IndexingV1.evaluate_seasons, evaluate_seasons.
  rewrite (same_grid_get_seasons _ _ y Hg Hy), bind_Ok.
  apply for_size_t_rel; [done|]. intros s u1 u2 _ Hu.
  unfold IndexingV1.evaluate_ages, evaluate_ages. rewrite Hna.
  apply for_size_t_rel; [done|]. intros a w1 w2 _ Hw.
  rewrite (same_grid_get_index _ _ y s a Hg Hy). by apply calculate_v1.
Qed.

Lemma finalize_v1 sp1 sp2 :
  same_subpopulation_v1 sp1 sp2 → IndexingV1.finalize sp1 = finalize sp2.
Proof.
  intros (Hg & _ & Hd). pose proof Hg as (Hny & Hna & _).
  apply rel_result_eq. unfold IndexingV1.finalize, finalize. rewrite Hny.
  apply for_size_t_rel; [done|]. intros y o1 o2 Hy ->.
  unfold IndexingV1.finalize_seasons, finalize_seasons.
  rewrite (same_grid_get_seasons _ _ y Hg Hy), bind_Ok.
  apply for_size_t_rel; [done|]. intros s o3 o4 _ ->.
  unfold IndexingV1.finalize_ages, finalize_ages. rewrite Hna.
  apply for_size_t_rel; [done|]. intros a o5 o6 _ ->. cbv zeta.
  rewrite (same_grid_get_index _ _ y s a Hg Hy), Hd.
  by destruct (vec_get _ _).
Qed.

Lemma finalize_each_v1 l1 l2 :
  Forall2 same_subpopulation_v1 l1 l2 →
  IndexingV1.finalize_each l1 = finalize_each l2.
Proof.
  induction 1 as [|sp1 sp2 l1 l2 Hsp _ IH]; simpl; [done|].
  rewrite (finalize_v1 _ _ Hsp), IH. by destruct Hsp as (_ & -> & _).
Qed.

Lemma sub_pops_of_insert_v1 p m i l i' :
  IndexingV1.sub_pops_of (IndexingV1.set_subpopulations (<[i := l]> m) p) i' =
  if decide (i = i') then l else default [] (m !! i').
Proof.
  unfold IndexingV1.sub_pops_of. simpl. rewrite lookup_insert.
  by destruct (decide (i = i')).
Qed.

Lemma same_population_insert q p i l1 l2 :
  same_population_v1 q p → Forall2 same_subpopulation_v1 l1 l2 →
  same_population_v1
    (IndexingV1.set_subpopulations (<[i := l1]> (IndexingV1.subpopulation_ q)) q)
    (set_subpopulations (<[i := l2]> (subpopulation_ p)) p).
Proof.
  intros (Hg & Hn & Ha & Hs) Hl. split; [exact Hg|]. split; [exact Hn|].
  split; [exact Ha|]. intros i'. rewrite sub_pops_of_insert_v1, sub_pops_of_insert.
  destruct (decide (i = i')); [done|apply Hs].
Qed.

Lemma evaulate_subpopulations_v1 q p :
  same_population_v1 q p →
  rel_result same_population_v1
    (IndexingV1.evaulate_subpopulations q) (evaulate_subpopulations p).
Proof.
  intros Hqp. pose proof Hqp as (_ & Hn & _).
  unfold IndexingV1.evaulate_subpopulations, evaulate_subpopulations. rewrite Hn.
  destruct (nsexes_ p) as [n|]; [|done].
  apply for_size_t_rel; [done|]. intros i t1 t2 _ Ht.
  apply (rel_result_bind (Forall2 same_subpopulation_v1)).
  - apply for_each_rel; [apply Ht|]. intros a b. apply evaluate_years_v1, Ht.
  - intros l1 l2 Hl. simpl. by apply same_population_insert.
Qed.

Lemma population_finalize_v1 q p :
  same_population_v1 q p →
  rel_result same_state_v1
    (IndexingV1.population_finalize q) (population_finalize p).
Proof.
  intros Hqp. pose proof Hqp as (_ & Hn & _).
  unfold IndexingV1.population_finalize, population_finalize. rewrite Hn.
  destruct (nsexes_ p) as [n|]; [|done].
  apply for_size_t_rel; [done|]. intros i [t1 o1] [t2 o2] _ [Ht Ho].
  cbn [fst snd] in *. subst o2.
  pose proof Ht as (_ & _ & _ & Hs).
  rewrite (finalize_each_v1 _ _ (Hs i)).
  destruct (finalize_each _) as [printed|e]; simpl; [|done].
  split; [|done]. by apply same_population_insert.
Qed.

(** The longest row of a table of [nyears] equal rows. *)
Lemma max_season_replicate nyears (row : list float) :
  for_size_t nyears (max_season_step (replicate (N.to_nat nyears) row)) 0 =
  Ok (if nyears =? 0 then 0 else vec_size row).
Proof.
  apply max_season_loop.
  split; [unfold vec_size; rewrite length_replicate; lia|]. split; [|split].
  - intros y Hy. exists row. split; [apply lookup_replicate_2; lia|].
    destruct (N.eqb_spec nyears 0); lia.
  - intros Hpos. exists 0, row. split; [done|].
    split; [apply lookup_replicate_2; lia|].
    destruct (N.eqb_spec nyears 0); [lia|done].
  - by intros ->.
Qed.

Lemma mul_0_l_size_t n : 0 ⊗ n = 0.
Proof. done. Qed.

Lemma initialize_one_v1 i j q p g :
  same_population_v1 q p →
  rel_result same_state_v1
    (IndexingV1.initialize_one i j (q, g)) (initialize_one i j (p, g)).
Proof.
  intros Hqp. pose proof Hqp as ((Hny & Hna & Hoff & Hmax) & Hn & Hlen & Hs).
  unfold IndexingV1.initialize_one, initialize_one.
  unfold subpopulation_variable, population_base_variable, model_base_variable.
  unfold IndexingV1.subpopulation_new, IndexingV1.population_base_new,
    IndexingV1.model_base_new, next_id.
  rewrite !bind_Ok. rewrite Hoff, max_season_replicate, !bind_Ok.
  apply (rel_result_bind (λ _ _, True)); [by apply vec_get_same_length|].
  intros a1 a2 _. simpl. split; [|done]. apply same_population_insert; [done|].
  apply Forall2_app; [apply Hs|]. constructor; [|constructor].
  split; [|split; [done|]].
  - split; [exact Hny|]. split; [exact Hna|]. split; [simpl; by rewrite <- Hoff|].
    simpl. destruct (N.eqb_spec (nyears_ p) 0); [by left|right].
    apply fixed_season_row_size.
  - simpl. unfold derived_size. simpl. rewrite Hny, Hna.
    destruct (N.eqb_spec (nyears_ p) 0) as [->|_].
    + by rewrite !mul_0_l_size_t.
    + by rewrite fixed_season_row_size.
Qed.

Lemma initialize_subpopulations_v1 n areas1 areas2 q p g :
  same_population_v1 q p → length areas1 = length areas2 →
  rel_result same_state_v1
    (IndexingV1.initialize_subpopulations n areas1 q g)
    (initialize_subpopulations n areas2 p g).
Proof.
  intros (Hg & Hn & _ & Hs) Hlen.
  unfold IndexingV1.initialize_subpopulations, initialize_subpopulations.
  apply for_int_rel.
  - split; [|done]. split; [exact Hg|]. split; [done|]. split; [exact Hlen|exact Hs].
  - intros i [t1 g1] [t2 g2] _ [Ht Hgg]. cbn [fst snd] in *. subst g2.
    assert (vec_size (IndexingV1.areas_ t1) = vec_size (areas_ t2)) as ->.
    { unfold vec_size. by destruct Ht as (_ & _ & -> & _). }
    apply for_int_rel; [done|]. intros j [u1 h1] [u2 h2] _ [Hu Hh].
    cbn [fst snd] in *. subst h2. by apply initialize_one_v1.
Qed.

(** What follows the constructor in both examples, from related
    populations. *)
Lemma example_steps_v1 nsexes areas1 areas2 q p g :
  same_population_v1 q p → length areas1 = length areas2 →
  ('(pop, id_g) ← IndexingV1.initialize_subpopulations nsexes areas1 q g;
   pop ← IndexingV1.evaulate_subpopulations pop;
   '(pop, out) ← IndexingV1.population_finalize pop;
   Ok (out, id_g)) =
  ('(pop, id_g) ← initialize_subpopulations nsexes areas2 p g;
   pop ← evaulate_subpopulations pop;
   '(pop, out) ← population_finalize pop;
   Ok (out, id_g)).
Proof.
  intros Hqp Hlen. apply rel_result_eq.
  apply (rel_result_bind same_state_v1); [by apply initialize_subpopulations_v1|].
  intros [q1 g1] [p1 g2] [H1 Hg]. cbn [fst snd] in *. subst g2.
  apply (rel_result_bind same_population_v1); [by apply evaulate_subpopulations_v1|].
  intros q2 p2 H2.
  apply (rel_result_bind same_state_v1); [by apply population_finalize_v1|].
  intros [q3 o1] [p3 o2] [_ Ho]. cbn [fst snd] in *. by subst o2.
Qed.

Lemma population_new_v1 nyears nseasons nages ages0 id_g :
  ∃ q, IndexingV1.population_new nyears nseasons nages ages0 id_g = Ok (q, id_g ⊕ 1) ∧
    (nyears ≤ SizeT.INT_MAX → nseasons ≤ 2 ^ 53 →
     ∃ p, population_fixed nyears nseasons nages ages0 id_g = Ok (p, id_g ⊕ 1) ∧
          same_population_v1 q p) ∧
    ∃ p, population_variable nyears
           (replicate (N.to_nat nyears) (fixed_season_row nseasons)) nages id_g
           = Ok (p, id_g ⊕ 1) ∧
         same_population_v1 q p.
Proof.
  eexists. split; [reflexivity|]. split.
  - intros Hny Hns. eexists. split.
    + unfold population_fixed, population_base_fixed, model_base_fixed, next_id.
      rewrite !bind_Ok, fixed_rows_loop_total by done. reflexivity.
    + split; [|done]. split; [done|]. split; [done|]. split; [done|]. by right.
  - eexists. split.
    + unfold population_variable, population_base_variable, model_base_variable, next_id.
      rewrite !bind_Ok, max_season_replicate. reflexivity.
    + split; [|done]. split; [done|]. split; [done|]. split; [done|]. simpl.
      destruct (N.eqb_spec nyears 0); [by left|right]. apply fixed_season_row_size.
Qed.

(** X19.  On a regular grid the two revisions of the program print the same.
    For [nyears] at most [INT_MAX], [nseasons] at most [2^53] and area lists
    of the same length, the first revision's example
      [population pop(nyears, nseasons, nages, ages);]
      [pop.initialize_subpopulations(nsexes, areas);]
      [pop.evaulate_subpopulations(); pop.finalize();]
    and the second revision's run of the same statements stop with the same
    error or print the same identifiers and cells and leave the identifier
    counter at the same value, although the second revision keeps a season
    table, folds indices with [seasons_max_] and builds its subpopulations
    with the variable-season constructor. *)
Theorem revisions_agree_on_regular_grid nyears nseasons nages ages0 nsexes
    (areas1 : list IndexingV1.area) (areas2 : list area) id_g :
  nyears ≤ SizeT.INT_MAX → nseasons ≤ 2 ^ 53 →
  length areas1 = length areas2 →
  IndexingV1.fixed_example nyears nseasons nages ages0 nsexes areas1 id_g =
  fixed_example nyears nseasons nages ages0 nsexes areas2 id_g.
Proof.
  intros Hny Hns Hlen.
  destruct (population_new_v1 nyears nseasons nages ages0 id_g)
    as (q & Hq & Hfixed & _).
  destruct (Hfixed Hny Hns) as (p & Hp & Hqp).
  unfold IndexingV1.fixed_example, fixed_example. rewrite Hq, Hp, !bind_Ok.
  by apply example_steps_v1.
Qed.

Lemma revisions_agree_on_regular_grid_witness :
  2 ≤ SizeT.INT_MAX ∧ 2 ≤ 2 ^ 53 ∧
  length [unit_area_v1; unit_area_v1] = length [unit_area; unit_area] ∧
  IndexingV1.fixed_example 2 2 2 [1%float; 2%float] 2 [unit_area_v1; unit_area_v1] 1 =
  fixed_example 2 2 2 [1%float; 2%float] 2 [unit_area; unit_area] 1.
Proof.
  assert (2 ≤ SizeT.INT_MAX) as Hny by (vm_compute; discriminate).
  assert (2 ≤ 2 ^ 53) as Hns by (vm_compute; discriminate).
  assert (length [unit_area_v1; unit_area_v1] = length [unit_area; unit_area])
    as Hlen by reflexivity.
  split; [exact Hny|]. split; [exact Hns|]. split; [exact Hlen|].
  exact (revisions_agree_on_regular_grid 2 2 2 _ 2 _ _ 1 Hny Hns Hlen).
Defined.

(** X20.  The fixed-season constructor is the variable-season constructor on
    the regular table.  For [nyears] at most [INT_MAX] and [nseasons] at most
    [2^53], a population built by [population(nyears, nseasons, nages, ages)]
    and one built by [population(nyears, table, nages)], where [table] has
    [nyears] rows [1/nseasons, 2/nseasons, ..., 1], give the same result when
    partitioned over area lists of the same length, evaluated and finalized:
    the same error, or the same printed identifiers and cells and the same
    identifier counter. *)
Theorem fixed_is_variable_on_regular_table nyears nseasons nages ages0 nsexes
    (areas1 areas2 : list area) id_g :
  nyears ≤ SizeT.INT_MAX → nseasons ≤ 2 ^ 53 →
  length areas1 = length areas2 →
  fixed_example nyears nseasons nages ages0 nsexes areas1 id_g =
  variable_example nyears (replicate (N.to_nat nyears) (fixed_season_row nseasons))
    nages nsexes areas2 id_g.
Proof.
  intros Hny Hns Hlen.
  destruct (population_new_v1 nyears nseasons nages ages0 id_g)
    as (q & _ & Hfixed & p2 & Hp2 & Hqp2).
  destruct (Hfixed Hny Hns) as (p1 & Hp1 & Hqp1).
  unfold fixed_example, variable_example. rewrite Hp1, Hp2, !bind_Ok.
  rewrite <- (example_steps_v1 nsexes (replicate (length areas1) unit_area_v1)
                areas1 q p1 _ Hqp1) by apply length_replicate.
  apply example_steps_v1; [done|]. by rewrite length_replicate.
Qed.

Lemma fixed_is_variable_on_regular_table_witness :
  2 ≤ SizeT.INT_MAX ∧ 3 ≤ 2 ^ 53 ∧
  length [unit_area] = length [unit_area] ∧
  fixed_example 2 3 1 [1%float] 1 [unit_area] 1 =
  variable_example 2 (replicate (N.to_nat 2) (fixed_season_row 3)) 1 1 [unit_area] 1.
Proof.
  assert (2 ≤ SizeT.INT_MAX) as Hny by (vm_compute; discriminate).
  assert (3 ≤ 2 ^ 53) as Hns by (vm_compute; discriminate).
  assert (length [unit_area] = length [unit_area]) as Hlen by reflexivity.
  split; [exact Hny|]. split; [exact Hns|]. split; [exact Hlen|].
  exact (fixed_is_variable_on_regular_table 2 3 1 _ 1 _ _ 1 Hny Hns Hlen).
Defined.
